(** * portreg: the port registry (package [registry]) and its specification

    A shallow embedding of [registry.go]: the data model ([Assignment],
    [BlockedPort], [Registry]), the range matching of blocked-port rules,
    the assignment operations and the persistence protocol ([Save], [load],
    [New], [Init]) over a model of the [os], [filepath], [strings],
    [strconv] and [encoding/json] calls the code makes. *)

From Stdlib Require Import ZArith Ascii String List Lia Bool DecimalString.
From stdpp Require Import base gmap strings list.

Local Open Scope Z_scope.

(** ** Go strings

    A Go [string] is a sequence of bytes: [string] here, one [ascii] per
    byte.  [int] is the 64-bit signed integer, carried as a [Z]. *)

Definition byteval (c : ascii) : Z := Z.of_N (N_of_ascii c).
Definition bytes_of (s : string) : list ascii := list_ascii_of_string s.
Definition string_of (l : list ascii) : string := string_of_list_ascii l.

Definition minInt : Z := - 2 ^ 63.
Definition maxInt : Z := 2 ^ 63 - 1.
Definition is_int (z : Z) : bool := (minInt <=? z) && (z <=? maxInt).

(** ** Package [strings] *)

Module Strings.

(** [strings.Contains(s, sep)] for a one-byte [sep]. *)
Fixpoint Contains (s : string) (sep : ascii) : bool :=
  match s with
  | EmptyString => false
  | String c s' => if Ascii.eqb c sep then true else Contains s' sep
  end.

(** [strings.Split(s, sep)] for a one-byte [sep]: the substrings between
    the separators, [Count(s, sep) + 1] of them. *)
Fixpoint Split (s : string) (sep : ascii) : list string :=
  match s with
  | EmptyString => [EmptyString]
  | String c s' =>
      if Ascii.eqb c sep then EmptyString :: Split s' sep
      else match Split s' sep with
           | p :: ps => String c p :: ps
           | [] => [String c EmptyString]
           end
  end.

(** The table [asciiSpace]: tab, line feed, vertical tab, form feed,
    carriage return, space. *)
Definition asciiSpace (c : ascii) : bool :=
  let n := byteval c in ((9 <=? n) && (n <=? 13)) || (n =? 32).

(** UTF-8 encodings of the other runes of [unicode.IsSpace]:
    U+0085, U+00A0 on two bytes; U+1680, U+2000..U+200A, U+2028, U+2029,
    U+202F, U+205F, U+3000 on three. *)
Definition space2 (c0 c1 : ascii) : bool :=
  (byteval c0 =? 194) && ((byteval c1 =? 133) || (byteval c1 =? 160)).

Definition space3 (c0 c1 c2 : ascii) : bool :=
  let a := byteval c0 in let b := byteval c1 in let c := byteval c2 in
  ((a =? 225) && (b =? 154) && (c =? 128))
  || ((a =? 226) && (b =? 128)
      && (((128 <=? c) && (c <=? 138)) || (c =? 168) || (c =? 169) || (c =? 175)))
  || ((a =? 226) && (b =? 129) && (c =? 159))
  || ((a =? 227) && (b =? 128) && (c =? 128)).

(** [TrimLeftFunc(s, unicode.IsSpace)]: a rune is decoded at the head; an
    encoding of a white-space rune is dropped, anything else stops. *)
Fixpoint trimLeft (l : list ascii) : list ascii :=
  match l with
  | [] => []
  | c0 :: l1 =>
      if asciiSpace c0 then trimLeft l1
      else match l1 with
           | c1 :: l2 =>
               if space2 c0 c1 then trimLeft l2
               else match l2 with
                    | c2 :: l3 => if space3 c0 c1 c2 then trimLeft l3 else l
                    | [] => l
                    end
           | [] => l
           end
  end.

(** [TrimRightFunc(s, unicode.IsSpace)] on the reversed bytes: the last
    rune is decoded ([DecodeLastRuneInString]), so the bytes of an
    encoding are met last byte first. *)
Fixpoint trimRightRev (l : list ascii) : list ascii :=
  match l with
  | [] => []
  | c0 :: l1 =>
      if asciiSpace c0 then trimRightRev l1
      else match l1 with
           | c1 :: l2 =>
               if space2 c1 c0 then trimRightRev l2
               else match l2 with
                    | c2 :: l3 => if space3 c2 c1 c0 then trimRightRev l3 else l
                    | [] => l
                    end
           | [] => l
           end
  end.

(** [strings.TrimSpace(s)]: leading white space is cut, then trailing. *)
Definition TrimSpace (s : string) : string :=
  string_of (rev (trimRightRev (rev (trimLeft (bytes_of s))))).

End Strings.

(** ** Package [strconv] *)

Module Strconv.

Definition digit (c : ascii) : option Z :=
  let n := byteval c in
  if (48 <=? n) && (n <=? 57) then Some (n - 48) else None.

(** The digit loop of [ParseUint(s, 10, 64)]; base 10 admits no
    underscore. *)
Fixpoint digits (acc : Z) (l : list ascii) : option Z :=
  match l with
  | [] => Some acc
  | c :: l' =>
      match digit c with
      | Some d => digits (acc * 10 + d) l'
      | None => None
      end
  end.

(** [strconv.Atoi(s)]: an optional sign, then at least one decimal digit;
    a value outside [int] is a range error.  [None] is a non-nil error. *)
Definition Atoi (s : string) : option Z :=
  let l := bytes_of s in
  let '(neg, ds) :=
    match l with
    | c :: r =>
        if Ascii.eqb c "-" then (true, r)
        else if Ascii.eqb c "+" then (false, r)
        else (false, l)
    | [] => (false, l)
    end in
  match ds with
  | [] => None
  | _ :: _ =>
      match digits 0 ds with
      | Some n =>
          let v := if neg then - n else n in
          if is_int v then Some v else None
      | None => None
      end
  end.

End Strconv.

(** ** Range matching *)

(** [isPortInRange]: whether [port] is within a range specification. *)
Definition isPortInRange (port : Z) (rangeSpec : string) : bool :=
  if Strings.Contains rangeSpec "-" then
    match Strings.Split rangeSpec "-" with
    | [part0; part1] =>
        match Strconv.Atoi (Strings.TrimSpace part0),
              Strconv.Atoi (Strings.TrimSpace part1) with
        | Some start, Some end_ => (start <=? port) && (port <=? end_)
        | _, _ => false
        end
    | _ => false
    end
  else
    match Strconv.Atoi (Strings.TrimSpace rangeSpec) with
    | Some singlePort => port =? singlePort
    | None => false
    end.


(** ** Package [unicode/utf8] *)

Module Utf8.

Definition cont (c : ascii) : bool :=
  let n := byteval c in (128 <=? n) && (n <=? 191).

(** The valid two-, three- and four-byte encodings ([first] and
    [acceptRanges] of the package). *)
Definition enc2 (c0 c1 : ascii) : bool :=
  let a := byteval c0 in (194 <=? a) && (a <=? 223) && cont c1.

Definition enc3 (c0 c1 c2 : ascii) : bool :=
  let a := byteval c0 in let b := byteval c1 in
  (((a =? 224) && (160 <=? b) && (b <=? 191))
   || ((225 <=? a) && (a <=? 236) && cont c1)
   || ((a =? 237) && (128 <=? b) && (b <=? 159))
   || ((238 <=? a) && (a <=? 239) && cont c1))
  && cont c2.

Definition enc4 (c0 c1 c2 c3 : ascii) : bool :=
  let a := byteval c0 in let b := byteval c1 in
  (((a =? 240) && (144 <=? b) && (b <=? 191))
   || ((241 <=? a) && (a <=? 243) && cont c1)
   || ((a =? 244) && (128 <=? b) && (b <=? 143)))
  && cont c2 && cont c3.

(** The encoding of U+FFFD, the replacement rune. *)
Definition replacement : list ascii :=
  [ascii_of_nat 239; ascii_of_nat 191; ascii_of_nat 189].

(** Width of the rune [DecodeRune] finds at the head of [l]; [0%nat] when
    it answers [(RuneError, 1)] for an invalid or short encoding. *)
Definition width (l : list ascii) : nat :=
  match l with
  | [] => 0%nat
  | c0 :: l1 =>
      if byteval c0 <? 128 then 1%nat
      else match l1 with
           | [] => 0%nat
           | c1 :: l2 =>
               if enc2 c0 c1 then 2%nat
               else match l2 with
                    | [] => 0%nat
                    | c2 :: l3 =>
                        if enc3 c0 c1 c2 then 3%nat
                        else match l3 with
                             | [] => 0%nat
                             | c3 :: _ =>
                                 if enc4 c0 c1 c2 c3 then 4%nat else 0%nat
                             end
                    end
           end
  end.

(** The coercion to valid UTF-8 that the JSON encoder applies: every
    byte that does not start a valid encoding becomes U+FFFD. *)
Fixpoint toValid (l : list ascii) : list ascii :=
  match l with
  | [] => []
  | c0 :: l1 =>
      match width l, l1 with
      | 2%nat, c1 :: l2 => c0 :: c1 :: toValid l2
      | 3%nat, c1 :: c2 :: l3 => c0 :: c1 :: c2 :: toValid l3
      | 4%nat, c1 :: c2 :: c3 :: l4 => c0 :: c1 :: c2 :: c3 :: toValid l4
      | 1%nat, _ => c0 :: toValid l1
      | _, _ => replacement ++ toValid l1
      end
  end.

(** [utf8.ValidString]. *)
Fixpoint valid (l : list ascii) : bool :=
  match l with
  | [] => true
  | c0 :: l1 =>
      match width l, l1 with
      | 2%nat, c1 :: l2 => valid l2
      | 3%nat, c1 :: c2 :: l3 => valid l3
      | 4%nat, c1 :: c2 :: c3 :: l4 => valid l4
      | 1%nat, _ => valid l1
      | _, _ => false
      end
  end.

Definition ToValidUTF8 (s : string) : string := string_of (toValid (bytes_of s)).
Definition ValidString (s : string) : bool := valid (bytes_of s).

End Utf8.

(** ** Package [path/filepath] (Unix) *)

Module Filepath.

(** [path[0 : i+1]] for [i] the index of the last separator: the path
    without its last element. *)
Fixpoint dropLast (p : string) : string :=
  match p with
  | EmptyString => EmptyString
  | String c p' =>
      if Strings.Contains p' "/" then String c (dropLast p')
      else if Ascii.eqb c "/" then String c EmptyString
      else EmptyString
  end.

(** One element of the path met by [Clean]; [stack] holds the elements
    kept so far, the last one first. *)
Definition cleanStep (rooted : bool) (stack : list string) (elem : string)
  : list string :=
  if String.eqb elem EmptyString || String.eqb elem "." then stack
  else if String.eqb elem ".." then
    match stack with
    | top :: rest => if String.eqb top ".." then elem :: stack else rest
    | [] => if rooted then [] else [elem]
    end
  else elem :: stack.

Fixpoint join (elems : list string) : string :=
  match elems with
  | [] => EmptyString
  | [e] => e
  | e :: es => e +:+ "/" +:+ join es
  end.

(** [filepath.Clean]: separators collapsed, [.] dropped, inner [..]
    resolved, [..] at the root dropped; the empty result is [.]. *)
Definition Clean (p : string) : string :=
  match p with
  | EmptyString => "."
  | String c _ =>
      let rooted := Ascii.eqb c "/" in
      let body := join (rev (fold_left (cleanStep rooted) (Strings.Split p "/") [])) in
      if rooted then "/" +:+ body
      else if String.eqb body EmptyString then "." else body
  end.

(** [filepath.Dir]. *)
Definition Dir (p : string) : string := Clean (dropLast p).

End Filepath.

(** ** Data model *)

(** [Assignment]: a port assignment to a project. *)
Record Assignment := mkAssignment {
  Port : Z;                   (* `json:"port"` *)
  Description : string;       (* `json:"description,omitempty"` *)
  Path : string               (* `json:"path,omitempty"` *)
}.

(** [BlockedPort]: a port or range of ports that should not be assigned.
    Its [Description] field is [BlockedDescription] here. *)
Record BlockedPort := mkBlockedPort {
  Ports : string;               (* `json:"ports"` *)
  BlockedDescription : string   (* `json:"description,omitempty"` *)
}.

(** [registryData]: the JSON structure of the registry file. *)
Record registryData := mkRegistryData {
  Assignments : list Assignment;     (* `json:"assignments"` *)
  BlockedPorts : list BlockedPort    (* `json:"blockedPorts"` *)
}.

(** [Registry]: port assignments and where they persist.  A slice is the
    list of its elements; a nil slice and an empty one are both [[]]. *)
Record Registry := mkRegistry {
  path : string;
  assignments : list Assignment;
  blockedPorts : list BlockedPort
}.

(** ** Package [encoding/json]

    The text of a document is left to the package: a file holds either a
    well-formed JSON text, known by the value it denotes, or bytes that
    are no JSON text.  What is embedded is the mapping between the Go
    structs above, with their field tags, and JSON values. *)

Module Json.

(** A number literal: an integer literal ([-]digits), or one with a
    fraction or an exponent, kept as written. *)
Inductive number :=
| Int (z : Z)
| Real (lit : string).

#[warnings="-register-all"] Inductive value :=
| JNull
| JBool (b : bool)
| JNumber (n : number)
| JString (s : string)
| JArray (elems : list value)
| JObject (members : list (string * value)).

Inductive content :=
| Document (v : value)
| Malformed (raw : string).

Inductive error :=
| SyntaxError
| UnmarshalTypeError.

(** *** Encoding *)

(** "String values encode as JSON strings coerced to valid UTF-8,
    replacing invalid bytes with the Unicode replacement rune." *)
Definition marshalString (s : string) : value := JString (Utf8.ToValidUTF8 s).

(** A string field tagged [omitempty] is left out when empty. *)
Definition omitempty (name s : string) : list (string * value) :=
  if String.eqb s EmptyString then [] else [(name, marshalString s)].

Definition marshalAssignment (a : Assignment) : value :=
  JObject ([("port"%string, JNumber (Int (Port a)))]
           ++ omitempty "description" (Description a)
           ++ omitempty "path" (Path a)).

Definition marshalBlockedPort (b : BlockedPort) : value :=
  JObject ([("ports"%string, marshalString (Ports b))]
           ++ omitempty "description" (BlockedDescription b)).

Definition marshalData (d : registryData) : value :=
  JObject [("assignments"%string, JArray (marshalAssignment <$> Assignments d));
           ("blockedPorts"%string, JArray (marshalBlockedPort <$> BlockedPorts d))].

(** [json.MarshalIndent] of a [registryData], two spaces a level; these
    types always marshal, the error is nil. *)
Definition MarshalIndent (d : registryData) : content := Document (marshalData d).

(** *** Decoding *)

(** [foldName]: the key of an object member is matched with a field
    name up to case: ASCII letters in upper case, U+017F as S, U+212A as
    K.  A key equal to the name is matched first and folds to the same. *)
Fixpoint foldBytes (l : list ascii) : list ascii :=
  match l with
  | [] => []
  | c0 :: l1 =>
      let n := byteval c0 in
      if (97 <=? n) && (n <=? 122) then ascii_of_N (Z.to_N (n - 32)) :: foldBytes l1
      else match l1 with
           | c1 :: l2 =>
               if (n =? 197) && (byteval c1 =? 191) then "S"%char :: foldBytes l2
               else match l2 with
                    | c2 :: l3 =>
                        if (n =? 226) && (byteval c1 =? 132) && (byteval c2 =? 170)
                        then "K"%char :: foldBytes l3
                        else c0 :: foldBytes l1
                    | [] => c0 :: foldBytes l1
                    end
           | [] => c0 :: foldBytes l1
           end
  end.

Definition foldName (key : string) : string := string_of (foldBytes (bytes_of key)).

(** Whether the member key [key] selects the field tagged [name]. *)
Definition selects (key name : string) : bool :=
  String.eqb (foldName key) (foldName name).

(** Decoding writes into the current value of a field: [null] leaves
    an [int], a [string] or a struct as it is, a value of another JSON
    type is an [UnmarshalTypeError] ([None]).  An [int] takes an integer
    literal within its range. *)
Definition decodeInt (cur : Z) (v : value) : option Z :=
  match v with
  | JNull => Some cur
  | JNumber (Int z) => if is_int z then Some z else None
  | _ => None
  end.

Definition decodeString (cur : string) (v : value) : option string :=
  match v with
  | JNull => Some cur
  | JString s => Some s
  | _ => None
  end.

(** The members of an object are taken in order; a key that selects no
    field is skipped with its value. *)
Fixpoint decodeAssignmentMembers (cur : Assignment) (ms : list (string * value))
  : option Assignment :=
  match ms with
  | [] => Some cur
  | (key, v) :: ms' =>
      if selects key "port" then
        p ← decodeInt (Port cur) v;
        decodeAssignmentMembers (mkAssignment p (Description cur) (Path cur)) ms'
      else if selects key "description" then
        d ← decodeString (Description cur) v;
        decodeAssignmentMembers (mkAssignment (Port cur) d (Path cur)) ms'
      else if selects key "path" then
        p ← decodeString (Path cur) v;
        decodeAssignmentMembers (mkAssignment (Port cur) (Description cur) p) ms'
      else decodeAssignmentMembers cur ms'
  end.

Fixpoint decodeBlockedPortMembers (cur : BlockedPort) (ms : list (string * value))
  : option BlockedPort :=
  match ms with
  | [] => Some cur
  | (key, v) :: ms' =>
      if selects key "ports" then
        p ← decodeString (Ports cur) v;
        decodeBlockedPortMembers (mkBlockedPort p (BlockedDescription cur)) ms'
      else if selects key "description" then
        d ← decodeString (BlockedDescription cur) v;
        decodeBlockedPortMembers (mkBlockedPort (Ports cur) d) ms'
      else decodeBlockedPortMembers cur ms'
  end.

Definition decodeAssignment (v : value) : option Assignment :=
  match v with
  | JNull => Some (mkAssignment 0 EmptyString EmptyString)
  | JObject ms => decodeAssignmentMembers (mkAssignment 0 EmptyString EmptyString) ms
  | _ => None
  end.

Definition decodeBlockedPort (v : value) : option BlockedPort :=
  match v with
  | JNull => Some (mkBlockedPort EmptyString EmptyString)
  | JObject ms => decodeBlockedPortMembers (mkBlockedPort EmptyString EmptyString) ms
  | _ => None
  end.

(** "To unmarshal a JSON array into a slice, Unmarshal resets the slice
    length to zero and then appends each element to the slice"; [null]
    sets a slice to nil. *)
Definition decodeAssignments (v : value) : option (list Assignment) :=
  match v with
  | JNull => Some []
  | JArray elems => mapM decodeAssignment elems
  | _ => None
  end.

Definition decodeBlockedPorts (v : value) : option (list BlockedPort) :=
  match v with
  | JNull => Some []
  | JArray elems => mapM decodeBlockedPort elems
  | _ => None
  end.

Fixpoint decodeDataMembers (cur : registryData) (ms : list (string * value))
  : option registryData :=
  match ms with
  | [] => Some cur
  | (key, v) :: ms' =>
      if selects key "assignments" then
        a ← decodeAssignments v;
        decodeDataMembers (mkRegistryData a (BlockedPorts cur)) ms'
      else if selects key "blockedPorts" then
        b ← decodeBlockedPorts v;
        decodeDataMembers (mkRegistryData (Assignments cur) b) ms'
      else decodeDataMembers cur ms'
  end.

Definition decodeData (cur : registryData) (v : value) : option registryData :=
  match v with
  | JNull => Some cur
  | JObject ms => decodeDataMembers cur ms
  | _ => None
  end.

(** [json.Unmarshal(data, &regData)] into a zero [registryData].  A text
    that is not JSON is a [SyntaxError].  On a value of the wrong type
    the package goes on and returns the first [UnmarshalTypeError] at
    the end; the caller drops the data then, so only the error is kept. *)
Definition Unmarshal (data : content) : error + registryData :=
  match data with
  | Malformed _ => inl SyntaxError
  | Document v =>
      match decodeData (mkRegistryData [] []) v with
      | Some d => inr d
      | None => inl UnmarshalTypeError
      end
  end.

End Json.

(** ** Package [os]

    The file system the registry sees: regular files by name with their
    content, the directories by name, and the log of the calls made.  The
    root and the working directory always exist.  A call fails for a
    reason the file system shows (a missing parent, a directory in the
    way) or because the environment makes it fail ([Faults]). *)

Module Os.

Inductive call :=
| CallStat (name : string)
| CallMkdirAll (name : string)
| CallWriteFile (name : string) (data : Json.content)
| CallRename (oldname newname : string)
| CallRemove (name : string)
| CallReadFile (name : string).

Record World := mkWorld {
  files : gmap string Json.content;
  dirs : gset string;
  trace : list call
}.

Inductive errno := EIO | ENOENT | ENOTDIR | EISDIR.

(** What becomes of a write the environment fails: nothing is created,
    or the file is left with bytes that are not the whole text. *)
Inductive writeFault :=
| WriteThrough
| WriteRefused
| WriteTorn (raw : string).

(** The failures of the environment during one operation of the
    registry; each call is made at most once per operation.  [mkdirFault]
    is the number of directories made before [MkdirAll] fails. *)
Record Faults := mkFaults {
  mkdirFault : option nat;
  writeFault_ : writeFault;
  renameFault : bool;
  removeFault : bool;
  readFault : bool
}.

Definition noFaults : Faults := mkFaults None WriteThrough false false false.

Definition record (c : call) (w : World) : World :=
  mkWorld (files w) (dirs w) (trace w ++ [c]).

Definition isDir (w : World) (name : string) : bool :=
  String.eqb name "." || String.eqb name "/" || bool_decide (name ∈ dirs w).

Definition isFile (w : World) (name : string) : bool :=
  match files w !! name with Some _ => true | None => false end.

(** [os.Stat(name)]: whether the error is nil. *)
Definition Stat (name : string) (w : World) : bool * World :=
  (isFile w name || isDir w name, record (CallStat name) w).

(** The directories on the way to a clean [name]: what stands before each
    separator, outermost first. *)
Fixpoint parents (before rest : string) : list string :=
  match rest with
  | EmptyString => []
  | String c rest' =>
      (if Ascii.eqb c "/" && negb (String.eqb before EmptyString) then [before] else [])
      ++ parents (before +:+ String c EmptyString) rest'
  end.

(** The directories [MkdirAll] goes through, down to [name] itself. *)
Definition ancestors (name : string) : list string :=
  if String.eqb name "." || String.eqb name "/" then []
  else parents EmptyString name ++ [name].

Fixpoint mkdirs (budget : option nat) (names : list string) (w : World)
  : option errno * World :=
  match names with
  | [] => (None, w)
  | name :: names' =>
      if isDir w name then mkdirs budget names' w
      else if isFile w name then (Some ENOTDIR, w)
      else
        let w' := mkWorld (files w) ({[name]} ∪ dirs w) (trace w) in
        match budget with
        | None => mkdirs None names' w'
        | Some (S k) => mkdirs (Some k) names' w'
        | Some O => (Some EIO, w)
        end
  end.

(** [os.MkdirAll(name, 0755)]: the directory and the parents it needs;
    nothing to do where a directory exists, an error where a file is in
    the way. *)
Definition MkdirAll (f : Faults) (name : string) (w : World) : option errno * World :=
  let w1 := record (CallMkdirAll name) w in
  let '(err, w2) := mkdirs (mkdirFault f) (ancestors name) w1 in
  match mkdirFault f, err with
  | Some _, None => (Some EIO, w2)
  | _, _ => (err, w2)
  end.

(** [os.WriteFile(name, data, 0644)]: creates or truncates [name] in an
    existing directory and writes [data]. *)
Definition WriteFile (f : Faults) (name : string) (data : Json.content) (w : World)
  : option errno * World :=
  let w1 := record (CallWriteFile name data) w in
  match writeFault_ f with
  | WriteRefused => (Some EIO, w1)
  | WriteTorn raw =>
      (Some EIO, mkWorld (<[name := Json.Malformed raw]> (files w1)) (dirs w1) (trace w1))
  | WriteThrough =>
      if negb (isDir w1 (Filepath.Dir name)) then (Some ENOENT, w1)
      else if isDir w1 name then (Some EISDIR, w1)
      else (None, mkWorld (<[name := data]> (files w1)) (dirs w1) (trace w1))
  end.

(** [os.Rename(oldname, newname)]: [newname] is replaced in one step, or
    nothing changes. *)
Definition Rename (f : Faults) (oldname newname : string) (w : World)
  : option errno * World :=
  let w1 := record (CallRename oldname newname) w in
  if renameFault f then (Some EIO, w1)
  else match files w1 !! oldname with
       | None => (Some ENOENT, w1)
       | Some data =>
           if negb (isDir w1 (Filepath.Dir newname)) then (Some ENOENT, w1)
           else if isDir w1 newname then (Some EISDIR, w1)
           else (None, mkWorld (<[newname := data]> (delete oldname (files w1)))
                               (dirs w1) (trace w1))
       end.

(** [os.Remove(name)] of a regular file. *)
Definition Remove (f : Faults) (name : string) (w : World) : option errno * World :=
  let w1 := record (CallRemove name) w in
  if removeFault f then (Some EIO, w1)
  else match files w1 !! name with
       | None => (Some ENOENT, w1)
       | Some _ => (None, mkWorld (delete name (files w1)) (dirs w1) (trace w1))
       end.

(** [os.ReadFile(name)]. *)
Definition ReadFile (f : Faults) (name : string) (w : World)
  : (errno + Json.content) * World :=
  let w1 := record (CallReadFile name) w in
  if readFault f then (inl EIO, w1)
  else match files w1 !! name with
       | Some data => (inr data, w1)
       | None => (inl (if isDir w1 name then EISDIR else ENOENT), w1)
       end.

End Os.

(** ** The registry *)

(** The errors of the package: the sentinel an error wraps, with the
    values formatted into its message, or the failing call it reports. *)
Inductive error :=
| ErrAlreadyExists (path : string)            (* "registry file already exists at %s" *)
| ErrPortAlreadyAssigned (port : Z) (description : string)
| ErrPortNotAssigned (port : Z)
| ErrPortBlocked (port : Z)
| ErrNoPortsAvailable
| ErrCreateDirectory (e : Os.errno)           (* "failed to create directory: %w" *)
| ErrWriteTemporary (e : Os.errno)            (* "failed to write temporary file: %w" *)
| ErrSave (e : Os.errno)                      (* "failed to save registry: %w" *)
| ErrRead (e : Os.errno)                      (* "failed to read registry file: %w" *)
| ErrUnmarshal (e : Json.error)               (* "failed to unmarshal registry: %w" *)
| ErrLoad (e : error).                        (* "failed to load registry: %w" *)

(** The error kinds of the specification. *)
Inductive kind :=
| AlreadyInitialized
| PortAlreadyAssigned
| PortNotAssigned
| PortBlocked
| NoPortsAvailable
| ParseError
| IOError.

Fixpoint kindOf (e : error) : kind :=
  match e with
  | ErrAlreadyExists _ => AlreadyInitialized
  | ErrPortAlreadyAssigned _ _ => PortAlreadyAssigned
  | ErrPortNotAssigned _ => PortNotAssigned
  | ErrPortBlocked _ => PortBlocked
  | ErrNoPortsAvailable => NoPortsAvailable
  | ErrCreateDirectory _ | ErrWriteTemporary _ | ErrSave _ | ErrRead _ => IOError
  | ErrUnmarshal _ => ParseError
  | ErrLoad e' => kindOf e'
  end.

(** [Save] persists the registry to disk. *)
Definition Save (f : Os.Faults) (r : Registry) (w : Os.World) : option error * Os.World :=
  let data := mkRegistryData (assignments r) (blockedPorts r) in
  let jsonData := Json.MarshalIndent data in
  (* Ensure directory exists *)
  let dir := Filepath.Dir (path r) in
  match Os.MkdirAll f dir w with
  | (Some err, w1) => (Some (ErrCreateDirectory err), w1)
  | (None, w1) =>
      (* Write to temporary file first for atomic write *)
      let tmpFile := (path r +:+ ".tmp")%string in
      match Os.WriteFile f tmpFile jsonData w1 with
      | (Some err, w2) => (Some (ErrWriteTemporary err), w2)
      | (None, w2) =>
          (* Rename temporary file to actual file *)
          match Os.Rename f tmpFile (path r) w2 with
          | (Some err, w3) =>
              let '(_, w4) := Os.Remove f tmpFile w3 in (* Clean up on error *)
              (Some (ErrSave err), w4)
          | (None, w3) => (None, w3)
          end
      end
  end.

(** [load] reads the registry from disk. *)
Definition load (f : Os.Faults) (r : Registry) (w : Os.World)
  : option error * Registry * Os.World :=
  match Os.ReadFile f (path r) w with
  | (inl err, w1) => (Some (ErrRead err), r, w1)
  | (inr data, w1) =>
      match Json.Unmarshal data with
      | inl err => (Some (ErrUnmarshal err), r, w1)
      | inr regData =>
          (None, mkRegistry (path r) (Assignments regData) (BlockedPorts regData), w1)
      end
  end.

(** [New] creates a new Registry instance, loading from file if it exists. *)
Definition New (f : Os.Faults) (path : string) (w : Os.World)
  : (error + Registry) * Os.World :=
  let r := mkRegistry path [] [] in
  (* Load existing registry if file exists *)
  let '(found, w1) := Os.Stat path w in
  if found then
    match load f r w1 with
    | (Some err, _, w2) => (inl (ErrLoad err), w2)
    | (None, r', w2) => (inr r', w2)
    end
  else (inr r, w1).

(** The blocked ports [Init] sets. *)
Definition defaultBlockedPorts : list BlockedPort :=
  [ mkBlockedPort "3306" "MySQL default port";
    mkBlockedPort "5432" "PostgreSQL default port";
    mkBlockedPort "6379" "Redis default port";
    mkBlockedPort "8080" "Common HTTP alternative port";
    mkBlockedPort "27017" "MongoDB default port" ].

(** [Init] initializes a new registry file with default blocked ports. *)
Definition Init (f : Os.Faults) (r : Registry) (w : Os.World)
  : option error * Registry * Os.World :=
  (* Check if file already exists *)
  let '(found, w1) := Os.Stat (path r) w in
  if found then (Some (ErrAlreadyExists (path r)), r, w1)
  else
    let r1 := mkRegistry (path r) (assignments r) defaultBlockedPorts in
    let r2 := mkRegistry (path r1) [] (blockedPorts r1) in
    let '(err, w2) := Save f r2 w1 in
    (err, r2, w2).

(** [isPortBlocked] checks if a port is in any blocked range. *)
Fixpoint blockedLoop (bps : list BlockedPort) (port : Z) : bool :=
  match bps with
  | [] => false
  | bp :: bps' => if isPortInRange port (Ports bp) then true else blockedLoop bps' port
  end.

Definition isPortBlocked (r : Registry) (port : Z) : bool :=
  blockedLoop (blockedPorts r) port.

(** The loop over the assignments that [AssignPort] and [IsPortAvailable]
    share: the first assignment of [port], if any. *)
Fixpoint assignedLoop (asgs : list Assignment) (port : Z) : option Assignment :=
  match asgs with
  | [] => None
  | a :: asgs' => if Port a =? port then Some a else assignedLoop asgs' port
  end.

(** [IsPortAvailable] checks if a port can be assigned. *)
Definition IsPortAvailable (r : Registry) (port : Z) : bool :=
  match assignedLoop (assignments r) port with
  | Some _ => false
  | None => negb (isPortBlocked r port)
  end.

(** [AssignPort] assigns a specific port to a project. *)
Definition AssignPort (f : Os.Faults) (port : Z) (description path_ : string)
    (r : Registry) (w : Os.World) : option error * Registry * Os.World :=
  match assignedLoop (assignments r) port with
  | Some a => (Some (ErrPortAlreadyAssigned port (Description a)), r, w)
  | None =>
      if isPortBlocked r port then (Some (ErrPortBlocked port), r, w)
      else
        let r' := mkRegistry (path r)
                    (assignments r ++ [mkAssignment port description path_])
                    (blockedPorts r) in
        let '(err, w') := Save f r' w in
        (err, r', w')
  end.

(** [findNextAvailablePort] finds the lowest available port starting from
    3100; [n] is the number of ports left up to [maxPort]. *)
Fixpoint scanPorts (r : Registry) (n : nat) (port : Z) : Z :=
  match n with
  | O => -1
  | S n' => if IsPortAvailable r port then port else scanPorts r n' (port + 1)
  end.

Definition startPort : Z := 3100.
Definition maxPort : Z := 65535.

Definition findNextAvailablePort (r : Registry) : Z :=
  scanPorts r (Z.to_nat (maxPort - startPort + 1)) startPort.

(** [AssignNextAvailable] finds and assigns the next available port. *)
Definition AssignNextAvailable (f : Os.Faults) (description path_ : string)
    (r : Registry) (w : Os.World) : (Z * option error) * Registry * Os.World :=
  let port := findNextAvailablePort r in
  if port =? -1 then ((0, Some ErrNoPortsAvailable), r, w)
  else
    match AssignPort f port description path_ r w with
    | (Some err, r', w') => ((0, Some err), r', w')
    | (None, r', w') => ((port, None), r', w')
    end.

(** [UnassignPort] releases a port assignment; the loop keeps [found] and
    [newAssignments]. *)
Definition unassignStep (port : Z) (st : bool * list Assignment) (a : Assignment)
  : bool * list Assignment :=
  if Port a =? port then (true, st.2) else (st.1, st.2 ++ [a]).

Definition UnassignPort (f : Os.Faults) (port : Z) (r : Registry) (w : Os.World)
  : option error * Registry * Os.World :=
  let '(found, newAssignments) :=
    fold_left (unassignStep port) (assignments r) (false, []) in
  if negb found then (Some (ErrPortNotAssigned port), r, w)
  else
    let r' := mkRegistry (path r) newAssignments (blockedPorts r) in
    let '(err, w') := Save f r' w in
    (err, r', w').

(** [ListAssignments] returns all current port assignments. *)
Definition ListAssignments (r : Registry) : list Assignment := assignments r.

(** ** Reachable states *)

(** The public operations that change a registry or its file. *)
Inductive operation :=
| OpInit
| OpAssignPort (port : Z) (description path_ : string)
| OpAssignNextAvailable (description path_ : string)
| OpUnassignPort (port : Z)
| OpSave.

Definition run (f : Os.Faults) (o : operation) (r : Registry) (w : Os.World)
  : Registry * Os.World :=
  match o with
  | OpInit => let '(_, r', w') := Init f r w in (r', w')
  | OpAssignPort port d p => let '(_, r', w') := AssignPort f port d p r w in (r', w')
  | OpAssignNextAvailable d p => let '(_, r', w') := AssignNextAvailable f d p r w in (r', w')
  | OpUnassignPort port => let '(_, r', w') := UnassignPort f port r w in (r', w')
  | OpSave => (r, (Save f r w).2)
  end.

(** A registry comes from [New] over some file system and is then taken
    through operations, each under the failures of its moment. *)
Inductive reachable : Registry -> Os.World -> Prop :=
| reach_New f p w r w' :
    New f p w = (inr r, w') -> reachable r w'
| reach_run f o r w :
    reachable r w -> reachable (run f o r w).1 (run f o r w).2.

(** The ports of the assignments, in order. *)
Definition ports (r : Registry) : list Z := Port <$> assignments r.

(** The operations that [AssignPort] is asked for a positive port in. *)
Definition positiveArg (o : operation) : Prop :=
  match o with
  | OpAssignPort port _ _ => 0 < port
  | _ => True
  end.

(** The states a registry [r0] over the file system [w0] gets to through
    such operations. *)
Inductive reachable_from (r0 : Registry) (w0 : Os.World) : Registry -> Os.World -> Prop :=
| from_start : reachable_from r0 w0 r0 w0
| from_run f o r w :
    reachable_from r0 w0 r w -> positiveArg o ->
    reachable_from r0 w0 (run f o r w).1 (run f o r w).2.

(** ** The commands

    What the commands [init], [assign] and [unassign] ask of the
    registry they have loaded.  [assign] calls [AssignPort] for a port
    flag above zero, and [AssignNextAvailable] otherwise. *)
Inductive command :=
| CmdInit
| CmdAssign (assignPort : Z) (assignDescription assignPath : string)
| CmdUnassign (port : Z).

Definition operationOf (c : command) : operation :=
  match c with
  | CmdInit => OpInit
  | CmdAssign assignPort assignDescription assignPath =>
      if assignPort >? 0 then OpAssignPort assignPort assignDescription assignPath
      else OpAssignNextAvailable assignDescription assignPath
  | CmdUnassign port => OpUnassignPort port
  end.

(** ** Well-formed registries and documents *)

(** The ports are Go [int]s. *)
Definition intPorts (r : Registry) : Prop :=
  Forall (fun a => is_int (Port a) = true) (assignments r).

(** Every text of the registry is valid UTF-8. *)
Definition validText (r : Registry) : Prop :=
  Forall (fun a => Utf8.ValidString (Description a) = true
                   /\ Utf8.ValidString (Path a) = true) (assignments r)
  /\ Forall (fun b => Utf8.ValidString (Ports b) = true
                      /\ Utf8.ValidString (BlockedDescription b) = true) (blockedPorts r).

(** The JSON values that fit the schema of the registry file: a member
    that selects a field holds a value of the type of the field, or
    [null]; members that select no field, and fields without a member,
    are of no concern. *)
Definition fitsInt (v : Json.value) : Prop :=
  v = Json.JNull \/ exists z, v = Json.JNumber (Json.Int z) /\ minInt <= z <= maxInt.

Definition fitsString (v : Json.value) : Prop :=
  v = Json.JNull \/ exists s, v = Json.JString s.

Definition fitsAssignment (v : Json.value) : Prop :=
  v = Json.JNull
  \/ exists ms, v = Json.JObject ms
       /\ forall key x, (key, x) ∈ ms ->
           (Json.selects key "port" = true -> fitsInt x)
           /\ (Json.selects key "description" = true -> fitsString x)
           /\ (Json.selects key "path" = true -> fitsString x).

Definition fitsBlockedPort (v : Json.value) : Prop :=
  v = Json.JNull
  \/ exists ms, v = Json.JObject ms
       /\ forall key x, (key, x) ∈ ms ->
           (Json.selects key "ports" = true -> fitsString x)
           /\ (Json.selects key "description" = true -> fitsString x).

Definition fitsSlice (fitsElem : Json.value -> Prop) (v : Json.value) : Prop :=
  v = Json.JNull \/ exists elems, v = Json.JArray elems /\ Forall fitsElem elems.

Definition fitsData (v : Json.value) : Prop :=
  v = Json.JNull
  \/ exists ms, v = Json.JObject ms
       /\ forall key x, (key, x) ∈ ms ->
           (Json.selects key "assignments" = true -> fitsSlice fitsAssignment x)
           /\ (Json.selects key "blockedPorts" = true -> fitsSlice fitsBlockedPort x).

(** The document is [null], or an object none of whose members selects
    the field [name]. *)
Definition lacks (name : string) (v : Json.value) : Prop :=
  v = Json.JNull
  \/ exists ms, v = Json.JObject ms
       /\ forall key x, (key, x) ∈ ms -> Json.selects key name = false.

(** ** Sample states *)

(** An empty disk, a registry file name, and environments in which one
    call of [Save] fails. *)
Definition emptyDisk : Os.World := Os.mkWorld ∅ ∅ [].
Definition homeFile : string := "/home/dev/.portreg.json".
Definition renameFails : Os.Faults := Os.mkFaults None Os.WriteThrough true false false.
Definition writeFails : Os.Faults := Os.mkFaults None (Os.WriteTorn "{") false false false.
Definition mkdirFails : Os.Faults := Os.mkFaults (Some 1%nat) Os.WriteThrough false false false.

Definition web : Assignment := mkAssignment 8000 "web" "/srv/web".
Definition api : Assignment := mkAssignment 8001 "api" EmptyString.

(** A disk whose registry file, edited by hand, lists a port twice. *)
Definition editedDisk : Os.World :=
  Os.mkWorld
    {[ homeFile :=
         Json.Document
           (Json.JObject
              [("assignments"%string,
                Json.JArray
                  [Json.JObject [("port"%string, Json.JNumber (Json.Int 8000));
                                 ("description"%string, Json.JString "web")];
                   Json.JObject [("port"%string, Json.JNumber (Json.Int 8000));
                                 ("description"%string, Json.JString "api")]])]) ]}
    ∅ [].

(** A registry with a description typed in Latin-1: the byte 233 is no
    UTF-8 encoding. *)
Definition latin1Registry : Registry :=
  mkRegistry homeFile
    [mkAssignment 8000 (String.append "caf" (String (ascii_of_nat 233) EmptyString)) EmptyString] [].

(** A disk whose registry file holds the document [{}]. *)
Definition emptyObjectDisk : Os.World :=
  Os.mkWorld {[ homeFile := Json.Document (Json.JObject []) ]} ∅ [].

(** The registry of [TestSaveAndLoad]. *)
Definition testRegistry : Registry :=
  mkRegistry homeFile
    [mkAssignment 8000 "project1" "/path1"; mkAssignment 8001 "project2" EmptyString]
    [mkBlockedPort "3000-3010" "Rails ports"; mkBlockedPort "3306" "MySQL"].

(** The registry over an empty disk after [AssignPort] of 8000, and then
    after an [AssignNextAvailable] whose [Save] fails. *)
Definition afterWeb : Registry * Os.World :=
  run Os.noFaults (OpAssignPort 8000 "web" "/srv/web") (mkRegistry homeFile [] []) emptyDisk.

Definition afterApi : Registry * Os.World :=
  run renameFails (OpAssignNextAvailable "api" EmptyString) afterWeb.1 afterWeb.2.

(** ** Package [cmd]: the commands as they run

    The [RunE] of [initCmd], [assignCmd] and [unassignCmd], given the
    values of the flags and the arguments: the error returned, the lines
    printed on the standard output, and the file system left.  [cwd] is
    what [os.Getwd] answers. *)

(** The sentinel errors of the registry, and [errors.Is] on its errors. *)
Inductive sentinel :=
| SentPortAlreadyAssigned
| SentPortNotAssigned
| SentPortBlocked
| SentNoPortsAvailable
| SentInvalidPortRange.

Fixpoint errorsIs (err : error) (target : sentinel) : bool :=
  match err, target with
  | ErrPortAlreadyAssigned _ _, SentPortAlreadyAssigned => true
  | ErrPortNotAssigned _, SentPortNotAssigned => true
  | ErrPortBlocked _, SentPortBlocked => true
  | ErrNoPortsAvailable, SentNoPortsAvailable => true
  | ErrLoad err', _ => errorsIs err' target
  | _, _ => false
  end.

Module Cmd.

(** The errors a command returns. *)
Inductive failure :=
| InvalidPortNumber (arg : string)     (* "invalid port number: %s" *)
| FailedToLoad (err : error)           (* "failed to load registry: %w" *)
| FailedToCreate (err : error)         (* "failed to create registry: %w" *)
| SeeList (err : error)                (* "%w. Use 'portreg list' to see all assignments" *)
| Plain (err : error).                 (* the error of the registry, as it is *)

(** The verb [%d] and the line feed. *)
Definition itoa (n : Z) : string := NilZero.string_of_int (Z.to_int n).
Definition nl : string := String (ascii_of_nat 10) EmptyString.

(** "Assigned port %d to %s\n", or "Assigned port %d\n" without a
    description. *)
Definition assigned (port : Z) (description : string) : string :=
  if negb (String.eqb description EmptyString)
  then ("Assigned port " +:+ itoa port +:+ " to " +:+ description +:+ nl)%string
  else ("Assigned port " +:+ itoa port +:+ nl)%string.

(** [initCmd]. *)
Definition initCmd (f : Os.Faults) (registryPath : string) (w : Os.World)
  : option failure * list string * Os.World :=
  match New f registryPath w with
  | (inl err, w1) => (Some (FailedToCreate err), [], w1)
  | (inr reg, w1) =>
      match Init f reg w1 with
      | (Some err, _, w2) => (Some (Plain err), [], w2)
      | (None, _, w2) =>
          (None, [("Initialized registry at " +:+ registryPath +:+ nl)%string], w2)
      end
  end.

(** [assignCmd]. *)
Definition assignCmd (f : Os.Faults) (cwd registryPath : string)
    (assignPort : Z) (assignDescription assignPath : string) (w : Os.World)
  : option failure * list string * Os.World :=
  match New f registryPath w with
  | (inl err, w1) => (Some (FailedToLoad err), [], w1)
  | (inr reg, w1) =>
      (* Use current directory if no path specified *)
      let assignPath := if String.eqb assignPath EmptyString then cwd else assignPath in
      if assignPort >? 0 then
        (* Assign specific port *)
        match AssignPort f assignPort assignDescription assignPath reg w1 with
        | (Some err, _, w2) =>
            if errorsIs err SentPortAlreadyAssigned then (Some (SeeList err), [], w2)
            else (Some (Plain err), [], w2)
        | (None, _, w2) => (None, [assigned assignPort assignDescription], w2)
        end
      else
        (* Auto-assign next available port *)
        match AssignNextAvailable f assignDescription assignPath reg w1 with
        | ((_, Some err), _, w2) => (Some (Plain err), [], w2)
        | ((port, None), _, w2) => (None, [assigned port assignDescription], w2)
        end
  end.

(** [unassignCmd], on its one argument. *)
Definition unassignCmd (f : Os.Faults) (registryPath arg : string) (w : Os.World)
  : option failure * list string * Os.World :=
  match Strconv.Atoi arg with
  | None => (Some (InvalidPortNumber arg), [], w)
  | Some port =>
      match New f registryPath w with
      | (inl err, w1) => (Some (FailedToLoad err), [], w1)
      | (inr reg, w1) =>
          match UnassignPort f port reg w1 with
          | (Some err, _, w2) =>
              if errorsIs err SentPortNotAssigned then (Some (SeeList err), [], w2)
              else (Some (Plain err), [], w2)
          | (None, _, w2) => (None, [("Unassigned port " +:+ itoa port +:+ nl)%string], w2)
          end
      end
  end.

End Cmd.

(** A registry with 3101 assigned and 3102-3105 blocked, and what two
    automatic assignments make of it. *)
Definition gapRegistry : Registry :=
  mkRegistry homeFile [mkAssignment 3101 EmptyString EmptyString]
    [mkBlockedPort "3102-3105" EmptyString].

Definition firstAuto : (Z * option error) * Registry * Os.World :=
  AssignNextAvailable Os.noFaults "a" "/a" gapRegistry emptyDisk.

Definition secondAuto : (Z * option error) * Registry * Os.World :=
  AssignNextAvailable Os.noFaults "b" "/b" firstAuto.1.2 firstAuto.2.

(** ** Tactics *)

(** Closes an equation between two logs of calls. *)
Ltac trace_eq :=
  simpl;
  repeat match goal with H : Os.trace _ = _ |- _ => rewrite H; clear H end;
  repeat rewrite <- app_assoc; reflexivity.

(** Proves that two field names fold differently. *)
Ltac fold_differs := let H := fresh in intros H; vm_compute in H; discriminate H.

(** Closes a case of [Save] that ends in the removal of the temporary
    file, where [Save] is to have returned nil. *)
Ltac no_nil :=
  cbv beta iota zeta;
  match goal with
  | |- context [Os.Remove ?f ?n ?w] => destruct (Os.Remove f n w); cbn; discriminate
  end.

(** * Properties *)

(** ** Range matching *)

Lemma Split_not_nil (s : string) (sep : ascii) : Strings.Split s sep <> [].
Proof.
  destruct s as [|c s]; simpl; [discriminate|].
  destruct (Ascii.eqb c sep); [discriminate|].
  destruct (Strings.Split s sep); discriminate.
Qed.

(** One part: the text has no separator. *)
Lemma Split_one (s b : string) (sep : ascii) :
  Strings.Split s sep = [b] <-> s = b /\ Strings.Contains s sep = false.
Proof.
  revert b; induction s as [|c s IH]; intros b; simpl.
  - split; [intros [= <-]; auto | intros [<- _]; reflexivity].
  - destruct (Ascii.eqb c sep) eqn:E.
    + split; [intros [= _ H]; destruct (Split_not_nil _ _ H) | intros [_ ?]; discriminate].
    + destruct (Strings.Split s sep) as [|p ps] eqn:ES.
      { destruct (Split_not_nil _ _ ES). }
      split.
      * intros [= <- ->]. destruct (IH p) as [IH1 _].
        destruct (IH1 eq_refl) as [-> ?]. auto.
      * intros [<- Hc]. destruct (IH s) as [_ IH2].
        specialize (IH2 (conj eq_refl Hc)). congruence.
Qed.

(** Exactly two parts: the text is [a], one separator, [b]. *)
Lemma Split_two (s a b : string) (sep : ascii) :
  Strings.Split s sep = [a; b] <->
  s = (a +:+ String sep b)%string
  /\ Strings.Contains a sep = false /\ Strings.Contains b sep = false.
Proof.
  revert a; induction s as [|c s IH]; intros a; simpl.
  - split; [discriminate|]. intros [H _]. destruct a; discriminate.
  - destruct (Ascii.eqb c sep) eqn:E.
    + apply Ascii.eqb_eq in E as ->. split.
      * intros [= <- H]. apply Split_one in H as [-> H]. auto.
      * intros (H & Ha & Hb). destruct a as [|c' a]; simpl in *.
        -- injection H as ->. f_equal. apply Split_one; auto.
        -- injection H as <- _. rewrite Ascii.eqb_refl in Ha. discriminate.
    + destruct (Strings.Split s sep) as [|p ps] eqn:ES.
      { destruct (Split_not_nil _ _ ES). }
      split.
      * intros [= <- ->]. destruct (IH p) as [IH1 _].
        destruct (IH1 eq_refl) as (-> & Hp & Hb). simpl. rewrite E. auto.
      * intros (H & Ha & Hb). destruct a as [|c' a]; simpl in *.
        -- injection H as -> _. rewrite Ascii.eqb_refl in E. discriminate.
        -- injection H as <- ->. rewrite E in Ha.
           destruct (IH a) as [_ IH2].
           specialize (IH2 (conj eq_refl (conj Ha Hb))). congruence.
Qed.

Lemma Atoi_is_int (s : string) (n : Z) :
  Strconv.Atoi s = Some n -> minInt <= n <= maxInt.
Proof.
  unfold Strconv.Atoi.
  destruct (match bytes_of s with
            | [] => (false, bytes_of s)
            | c :: r => if Ascii.eqb c "-" then (true, r)
                        else if Ascii.eqb c "+" then (false, r)
                        else (false, bytes_of s)
            end) as [neg ds].
  destruct ds as [|d ds]; [discriminate|].
  destruct (Strconv.digits 0 (d :: ds)) as [m|]; [|discriminate].
  destruct (is_int (if neg then - m else m)) eqn:E; [|discriminate].
  intros [= <-]. unfold is_int in E. lia.
Qed.

(** C3. A rule text with a ['-'] matches [port] exactly when it is two
    parts around one ['-'] that, trimmed, parse as integers [low] and
    [high] with [low <= port <= high]; a text without ['-'] matches exactly
    when, trimmed, it parses as [port].  Any other text matches no port,
    and [isPortInRange] answers on every text. *)
Theorem isPortInRange_spec (port : Z) (rangeSpec : string) :
  (Strings.Contains rangeSpec "-" = true ->
   (isPortInRange port rangeSpec = true <->
    exists a b low high,
      rangeSpec = (a +:+ "-" +:+ b)%string
      /\ Strings.Contains a "-" = false /\ Strings.Contains b "-" = false
      /\ Strings.Split rangeSpec "-" = [a; b]
      /\ Strconv.Atoi (Strings.TrimSpace a) = Some low
      /\ Strconv.Atoi (Strings.TrimSpace b) = Some high
      /\ low <= port <= high))
  /\ (Strings.Contains rangeSpec "-" = false ->
      (isPortInRange port rangeSpec = true <->
       Strconv.Atoi (Strings.TrimSpace rangeSpec) = Some port))
  /\ (isPortInRange port rangeSpec = true \/ isPortInRange port rangeSpec = false).
Proof.
  split; [|split].
  - intros Hc. unfold isPortInRange. rewrite Hc. split.
    + destruct (Strings.Split rangeSpec "-") as [|a [|b [|c l]]] eqn:ES; try discriminate.
      destruct (Strconv.Atoi (Strings.TrimSpace a)) as [low|] eqn:Ea; [|discriminate].
      destruct (Strconv.Atoi (Strings.TrimSpace b)) as [high|] eqn:Eb; [|discriminate].
      intros H. apply andb_true_iff in H as [H1 H2].
      pose proof ES as ES'. apply Split_two in ES' as (Hs & Ha & Hb).
      exists a, b, low, high. repeat split; auto; lia.
    + intros (a & b & low & high & _ & _ & _ & ES & Ea & Eb & Hl).
      rewrite ES, Ea, Eb. apply andb_true_iff. lia.
  - intros Hc. unfold isPortInRange. rewrite Hc.
    destruct (Strconv.Atoi (Strings.TrimSpace rangeSpec)) as [n|].
    + split; [intros H; f_equal; lia | intros [= ->]; lia].
    + split; discriminate.
  - destruct (isPortInRange port rangeSpec); auto.
Qed.

(** The table of [TestPortRangeParsing]. *)
Example range_parsing_table :
  map (fun '(p, s) => isPortInRange p s)
      [(3005, "3000-3010"); (3000, "3000-3010"); (3010, "3000-3010");
       (2999, "3000-3010"); (3011, "3000-3010"); (8080, "8080");
       (8081, "8080"); (5000, "invalid-range"); (5000, "abc-def")]%string
  = [true; true; true; false; false; true; false; false; false].
Proof. reflexivity. Qed.

Example range_with_spaces :
  isPortInRange 3005 " 3000 - 3010 "%string = true
  /\ isPortInRange 5 "1-9-20"%string = false
  /\ isPortInRange 5 "9-1"%string = false
  /\ isPortInRange (-5) "-5"%string = false
  /\ isPortInRange 7 "+7"%string = true.
Proof. repeat split; reflexivity. Qed.

(** ** The file system calls *)

Lemma tmp_not_path (p : string) : (p +:+ ".tmp")%string <> p.
Proof. induction p as [|c p IH]; simpl; [discriminate | intros [= H]; auto]. Qed.

Lemma Contains_app_tmp (p : string) :
  Strings.Contains (p +:+ ".tmp") "/" = Strings.Contains p "/".
Proof.
  induction p as [|c p IH]; simpl; [reflexivity|].
  destruct (Ascii.eqb c "/"); auto.
Qed.

Lemma dropLast_app_tmp (p : string) :
  Filepath.dropLast (p +:+ ".tmp") = Filepath.dropLast p.
Proof.
  induction p as [|c p IH]; simpl; [reflexivity|].
  rewrite Contains_app_tmp, IH. reflexivity.
Qed.

(** The temporary file is in the directory of the target. *)
Lemma Dir_tmp (p : string) : Filepath.Dir (p +:+ ".tmp") = Filepath.Dir p.
Proof. unfold Filepath.Dir. rewrite dropLast_app_tmp. reflexivity. Qed.

Lemma isDir_same (w w' : Os.World) (name : string) :
  Os.dirs w' = Os.dirs w -> Os.isDir w' name = Os.isDir w name.
Proof. unfold Os.isDir. intros ->. reflexivity. Qed.

Lemma isDir_record (c : Os.call) (w : Os.World) (name : string) :
  Os.isDir (Os.record c w) name = Os.isDir w name.
Proof. reflexivity. Qed.

Lemma isDir_files (fs : gmap string Json.content) (t : list Os.call)
    (w : Os.World) (name : string) :
  Os.isDir (Os.mkWorld fs (Os.dirs w) t) name = Os.isDir w name.
Proof. reflexivity. Qed.

Lemma isDir_mono (w w' : Os.World) (name : string) :
  Os.dirs w ⊆ Os.dirs w' -> Os.isDir w name = true -> Os.isDir w' name = true.
Proof.
  unfold Os.isDir. intros Hs H.
  apply orb_true_iff in H as [H|H]; [rewrite H; reflexivity|].
  apply bool_decide_eq_true in H. apply orb_true_iff. right.
  apply bool_decide_eq_true. set_solver.
Qed.

Lemma mkdirs_spec (budget : option nat) (names : list string) (w : Os.World) :
  let w' := (Os.mkdirs budget names w).2 in
  Os.files w' = Os.files w /\ Os.trace w' = Os.trace w /\ Os.dirs w ⊆ Os.dirs w'.
Proof.
  revert budget w; induction names as [|name names IH]; intros budget w; simpl.
  - repeat split; set_solver.
  - destruct (Os.isDir w name); [apply IH|].
    destruct (Os.isFile w name); [simpl; repeat split; set_solver|].
    destruct budget as [[|k]|]; simpl.
    + repeat split; set_solver.
    + destruct (IH (Some k) (Os.mkWorld (Os.files w) ({[name]} ∪ Os.dirs w) (Os.trace w)))
        as (H1 & H2 & H3); simpl in *. repeat split; auto.
      etrans; [apply union_subseteq_r|exact H3].
    + destruct (IH None (Os.mkWorld (Os.files w) ({[name]} ∪ Os.dirs w) (Os.trace w)))
        as (H1 & H2 & H3); simpl in *. repeat split; auto.
      etrans; [apply union_subseteq_r|exact H3].
Qed.

(** Where [mkdirs] succeeds, every name it was given is a directory. *)
Lemma mkdirs_ok (budget : option nat) (names : list string) (w w' : Os.World) :
  Os.mkdirs budget names w = (None, w') ->
  forall name, name ∈ names -> Os.isDir w' name = true.
Proof.
  revert budget w; induction names as [|n names IH]; intros budget w H name Hin.
  - inversion Hin.
  - simpl in H. destruct (Os.isDir w n) eqn:Ed.
    + apply elem_of_cons in Hin as [->|Hin]; [|eapply IH; eauto].
      eapply isDir_mono; [|exact Ed].
      pose proof (mkdirs_spec budget names w) as (_ & _ & Hs). rewrite H in Hs. exact Hs.
    + destruct (Os.isFile w n); [discriminate|].
      assert (Hn : forall b w1, Os.mkdirs b names
                (Os.mkWorld (Os.files w) ({[n]} ∪ Os.dirs w) (Os.trace w)) = (None, w1) ->
                w1 = w' -> Os.isDir w' name = true).
      { intros b w1 Hb ->. apply elem_of_cons in Hin as [->|Hin]; [|eapply IH; eauto].
        pose proof (mkdirs_spec b names
          (Os.mkWorld (Os.files w) ({[n]} ∪ Os.dirs w) (Os.trace w))) as (_ & _ & Hs).
        rewrite Hb in Hs. simpl in Hs. unfold Os.isDir.
        apply orb_true_iff. right. apply bool_decide_eq_true. set_solver. }
      destruct budget as [[|k]|]; [discriminate| |]; eapply Hn; eauto.
Qed.

Lemma MkdirAll_spec (f : Os.Faults) (name : string) (w : Os.World) :
  let w' := (Os.MkdirAll f name w).2 in
  Os.files w' = Os.files w
  /\ Os.trace w' = Os.trace w ++ [Os.CallMkdirAll name]
  /\ Os.dirs w ⊆ Os.dirs w'.
Proof.
  unfold Os.MkdirAll.
  pose proof (mkdirs_spec (Os.mkdirFault f) (Os.ancestors name)
                (Os.record (Os.CallMkdirAll name) w)) as H.
  destruct (Os.mkdirs _ _ _) as [err w2]. simpl in H.
  destruct (Os.mkdirFault f), err; simpl; exact H.
Qed.

(** After a successful [MkdirAll] the directories on the way exist. *)
Lemma MkdirAll_ancestors (f : Os.Faults) (name : string) (w w' : Os.World) :
  Os.MkdirAll f name w = (None, w') ->
  forall d, d ∈ Os.ancestors name -> Os.isDir w' d = true.
Proof.
  unfold Os.MkdirAll.
  destruct (Os.mkdirs _ _ _) as [err w2] eqn:E.
  intros H. assert (err = None /\ w2 = w') as [-> ->].
  { destruct (Os.mkdirFault f), err; inversion H; auto. }
  eapply mkdirs_ok. exact E.
Qed.

(** After a successful [MkdirAll] the directory exists. *)
Lemma MkdirAll_ok (f : Os.Faults) (name : string) (w w' : Os.World) :
  Os.MkdirAll f name w = (None, w') -> Os.isDir w' name = true.
Proof.
  intros H. pose proof (MkdirAll_ancestors f name w w' H) as Ha.
  unfold Os.ancestors in Ha.
  destruct (String.eqb name "." || String.eqb name "/") eqn:Er.
  - unfold Os.isDir. rewrite Er. reflexivity.
  - apply Ha. apply elem_of_app. right. apply list_elem_of_singleton. reflexivity.
Qed.

(** ** Persistence *)

(** What [Save] does, call by call. *)
Lemma Save_cases (f : Os.Faults) (r : Registry) (w : Os.World) :
  let target := path r in
  let tmpFile := (path r +:+ ".tmp")%string in
  let dir := Filepath.Dir target in
  let jsonData := Json.MarshalIndent (mkRegistryData (assignments r) (blockedPorts r)) in
  Filepath.Dir tmpFile = dir
  /\ (forall name, name <> target -> name <> tmpFile ->
      Os.files (Save f r w).2 !! name = Os.files w !! name)
  /\ match Save f r w with
     | (None, w') =>
         Os.files w' !! target = Some jsonData
         /\ Os.files w' !! tmpFile = None
         /\ (forall d, d ∈ Os.ancestors dir -> Os.isDir w' d = true)
         /\ Os.isDir w' dir = true
         /\ Os.trace w' = Os.trace w ++
              [Os.CallMkdirAll dir; Os.CallWriteFile tmpFile jsonData;
               Os.CallRename tmpFile target]
     | (Some err, w') =>
         Os.files w' !! target = Os.files w !! target
         /\ ((exists e, err = ErrCreateDirectory e
                /\ Os.trace w' = Os.trace w ++ [Os.CallMkdirAll dir])
             \/ (exists e, err = ErrWriteTemporary e
                   /\ Os.trace w' = Os.trace w ++
                        [Os.CallMkdirAll dir; Os.CallWriteFile tmpFile jsonData])
             \/ (exists e, err = ErrSave e
                   /\ Os.trace w' = Os.trace w ++
                        [Os.CallMkdirAll dir; Os.CallWriteFile tmpFile jsonData;
                         Os.CallRename tmpFile target; Os.CallRemove tmpFile]
                   /\ (Os.removeFault f = false -> Os.files w' !! tmpFile = None)))
     end.
Proof.
  intros target tmpFile dir jsonData.
  assert (Hne : tmpFile <> target) by apply tmp_not_path.
  assert (Hdir : Filepath.Dir tmpFile = dir) by apply Dir_tmp.
  assert (Hok : forall w1, Os.MkdirAll f dir w = (None, w1) -> Os.isDir w1 dir = true)
    by (intros w1; apply MkdirAll_ok).
  assert (Hanc : forall w1, Os.MkdirAll f dir w = (None, w1) ->
                 forall d, d ∈ Os.ancestors dir -> Os.isDir w1 d = true)
    by (intros w1; apply MkdirAll_ancestors).
  assert (Hdt : Filepath.Dir target = dir) by reflexivity.
  split; [exact Hdir|].
  unfold Save.
  change (path r +:+ ".tmp")%string with tmpFile.
  change (path r) with target.
  change (Filepath.Dir target) with dir.
  change (Json.MarshalIndent _) with jsonData.
  clearbody jsonData dir tmpFile target.
  pose proof (MkdirAll_spec f dir w) as (Hf1 & Ht1 & Hd1).
  destruct (Os.MkdirAll f dir w) as [[e1|] w1] eqn:E1; simpl in Hf1, Ht1, Hd1.
  { simpl. rewrite Hf1. split; [auto|]. split; [auto|]. left. eauto. }
  specialize (Hok _ eq_refl). specialize (Hanc _ eq_refl).
  clear E1. rename Hok into E1.
  unfold Os.WriteFile. rewrite Hdir.
  destruct (Os.writeFault_ f) as [| |raw]; simpl.
  - (* the write goes through, if the file system lets it *)
    rewrite isDir_record, E1. simpl. rewrite isDir_record.
    destruct (Os.isDir w1 tmpFile) eqn:Etmp; simpl.
    { rewrite Hf1, Ht1, <- app_assoc. split; [auto|]. split; [auto|]. right. left. eauto. }
    unfold Os.Rename; simpl. rewrite Hdt.
    destruct (Os.renameFault f); simpl.
    + (* the rename fails *)
      unfold Os.Remove; simpl. rewrite Ht1. repeat rewrite <- app_assoc. simpl.
      destruct (Os.removeFault f); simpl.
      * rewrite Hf1. split; [intros; by rewrite lookup_insert_ne|].
        split; [by rewrite lookup_insert_ne|]. right. right. eexists.
        split; [reflexivity|]. split; [trace_eq|discriminate].
      * rewrite lookup_insert_eq. simpl. rewrite Hf1.
        split; [intros; by rewrite lookup_delete_ne, lookup_insert_ne|].
        split; [by rewrite lookup_delete_ne, lookup_insert_ne|]. right. right. eexists.
        split; [reflexivity|]. split; [trace_eq|]. intros _. apply lookup_delete_eq.
    + rewrite lookup_insert_eq.
      rewrite isDir_record, isDir_files, E1. simpl.
      rewrite isDir_record, isDir_files.
      destruct (Os.isDir w1 target) eqn:Etarget; simpl.
      * (* a directory has the name of the target *)
        unfold Os.Remove; simpl. rewrite Ht1. repeat rewrite <- app_assoc. simpl.
        destruct (Os.removeFault f); simpl.
        -- rewrite Hf1. split; [intros; by rewrite lookup_insert_ne|].
           split; [by rewrite lookup_insert_ne|]. right. right. eexists.
           split; [reflexivity|]. split; [trace_eq|discriminate].
        -- rewrite lookup_insert_eq. simpl. rewrite Hf1.
           split; [intros; by rewrite lookup_delete_ne, lookup_insert_ne|].
           split; [by rewrite lookup_delete_ne, lookup_insert_ne|]. right. right. eexists.
           split; [reflexivity|]. split; [trace_eq|]. intros _. apply lookup_delete_eq.
      * rewrite Hf1, Ht1. repeat rewrite <- app_assoc. simpl.
        split; [intros; by rewrite lookup_insert_ne, lookup_delete_ne, lookup_insert_ne|].
        split; [apply lookup_insert_eq|].
        split; [by rewrite lookup_insert_ne, lookup_delete_eq|].
        split; [intros d Hd; rewrite isDir_files; apply Hanc; exact Hd|].
        split; [|trace_eq].
        rewrite isDir_files. exact E1.
  - rewrite Hf1, Ht1, <- app_assoc. split; [auto|]. split; [auto|]. right. left. eauto.
  - rewrite Hf1, Ht1, <- app_assoc. split; [intros; by rewrite lookup_insert_ne|].
    split; [by rewrite lookup_insert_ne|]. right. left. eauto.
Qed.

(** The errors of [Save] are failures of the file system. *)
Lemma Save_IOError (f : Os.Faults) (r : Registry) (w : Os.World) (err : error) :
  (Save f r w).1 = Some err -> kindOf err = IOError.
Proof.
  pose proof (Save_cases f r w) as (_ & _ & H).
  destruct (Save f r w) as [[e|] w']; simpl; [|discriminate].
  intros [= ->]. destruct H as (_ & [(e' & -> & _)|[(e' & -> & _)|(e' & -> & _)]]);
    reflexivity.
Qed.

(** ** Paths and the directories made *)

(** The elements of a path weigh their length and a separator each. *)
Lemma weight_cons (e : string) (l : list string) :
  list_sum ((fun e => S (String.length e)) <$> e :: l)
  = (S (String.length e) + list_sum ((fun e => S (String.length e)) <$> l))%nat.
Proof. reflexivity. Qed.

Lemma weight_nil : list_sum ((fun e => S (String.length e)) <$> []) = 0%nat.
Proof. reflexivity. Qed.

Lemma Split_weight (s : string) (sep : ascii) :
  list_sum ((fun e => S (String.length e)) <$> Strings.Split s sep) = S (String.length s).
Proof.
  induction s as [|c s IH]; [reflexivity|]. cbn [Strings.Split].
  destruct (Ascii.eqb c sep).
  - rewrite weight_cons, IH. reflexivity.
  - destruct (Strings.Split s sep) as [|p ps]; rewrite ?weight_cons in *;
      cbn [String.length] in *; [discriminate | lia].
Qed.

Lemma Split_app_sep (s : string) (sep : ascii) :
  Strings.Split (s +:+ String sep EmptyString) sep = Strings.Split s sep ++ [EmptyString].
Proof.
  induction s as [|c s IH]; simpl.
  - rewrite Ascii.eqb_refl. reflexivity.
  - destruct (Ascii.eqb c sep); [rewrite IH; reflexivity|].
    rewrite IH. destruct (Strings.Split s sep) eqn:E; [destruct (Split_not_nil _ _ E) | reflexivity].
Qed.

Lemma cleanStep_weight (rooted : bool) (stack : list string) (elem : string) :
  (list_sum ((fun e => S (String.length e)) <$> Filepath.cleanStep rooted stack elem)
   <= list_sum ((fun e => S (String.length e)) <$> stack) + S (String.length elem))%nat.
Proof.
  unfold Filepath.cleanStep.
  destruct (String.eqb elem EmptyString || String.eqb elem "."); [lia|].
  destruct (String.eqb elem "..").
  - destruct stack as [|top rest]; [destruct rooted; rewrite ?weight_cons; lia|].
    destruct (String.eqb top ".."); rewrite ?weight_cons; lia.
  - rewrite weight_cons. lia.
Qed.

Lemma clean_weight (rooted : bool) (elems stack : list string) :
  (list_sum ((fun e => S (String.length e)) <$> fold_left (Filepath.cleanStep rooted) elems stack)
   <= list_sum ((fun e => S (String.length e)) <$> stack)
      + list_sum ((fun e => S (String.length e)) <$> elems))%nat.
Proof.
  revert stack; induction elems as [|e elems IH]; intros stack; cbn [fold_left].
  - lia.
  - etrans; [apply IH|]. pose proof (cleanStep_weight rooted stack e).
    rewrite weight_cons. lia.
Qed.

Lemma length_append (a b : string) :
  String.length (a +:+ b) = (String.length a + String.length b)%nat.
Proof. induction a as [|c a IH]; simpl; [reflexivity | rewrite IH; reflexivity]. Qed.

Lemma join_weight (elems : list string) :
  elems <> [] ->
  S (String.length (Filepath.join elems)) = list_sum ((fun e => S (String.length e)) <$> elems).
Proof.
  induction elems as [|e [|e' es] IH]; [congruence | intros _; rewrite weight_cons; simpl; lia |]. intros _.
  change (Filepath.join (e :: e' :: es)) with (e +:+ "/" +:+ Filepath.join (e' :: es))%string.
  rewrite !length_append. rewrite (weight_cons e).
  specialize (IH ltac:(discriminate)). cbn [String.length]. lia.
Qed.

Lemma weight_rev (l : list string) :
  list_sum ((fun e => S (String.length e)) <$> rev l)
  = list_sum ((fun e => S (String.length e)) <$> l).
Proof.
  induction l as [|e l IH]; [reflexivity|]. cbn [rev].
  rewrite fmap_app, list_sum_app, IH, !weight_cons, weight_nil. lia.
Qed.

(** The path without its last element ends in a separator. *)
Lemma dropLast_sep (p : string) :
  Strings.Contains p "/" = true ->
  exists s, Filepath.dropLast p = (s +:+ "/")%string
            /\ (String.length s < String.length p)%nat.
Proof.
  induction p as [|c p IH]; [discriminate|]. cbn.
  destruct (Strings.Contains p "/") eqn:Ec.
  - intros _. destruct (IH eq_refl) as (s & -> & Hs). exists (String c s). cbn. split; [reflexivity | lia].
  - destruct (Ascii.eqb_spec c "/") as [->|]; [|discriminate].
    intros _. exists EmptyString. cbn. split; [reflexivity | lia].
Qed.

Lemma dropLast_plain (p : string) :
  Strings.Contains p "/" = false -> Filepath.dropLast p = EmptyString.
Proof.
  destruct p as [|c p]; [reflexivity|]. cbn.
  destruct (Ascii.eqb c "/"); [discriminate|]. intros ->. reflexivity.
Qed.

(** [Clean] of a path that ends in a separator is the root, or [.], or
    shorter than the path without that separator is long. *)
Lemma Clean_sep (s : string) :
  Filepath.Clean (s +:+ "/") = "/"%string
  \/ Filepath.Clean (s +:+ "/") = "."%string
  \/ (String.length (Filepath.Clean (s +:+ "/")) <= String.length s)%nat.
Proof.
  destruct s as [|c s].
  { left. reflexivity. }
  assert (E : (String c s +:+ "/")%string = String c (s +:+ "/")) by reflexivity.
  rewrite E. unfold Filepath.Clean. rewrite <- E. clear E.
  rewrite Split_app_sep, fold_left_app. cbn [fold_left].
  set (stack0 := fold_left _ (Strings.Split (String c s) "/") []).
  assert (Hstep : forall rooted st, Filepath.cleanStep rooted st EmptyString = st) by reflexivity.
  rewrite Hstep.
  destruct (Ascii.eqb_spec c "/") as [->|Hc].
  - (* rooted: the first element is empty too *)
    subst stack0. cbn [Strings.Split]. rewrite Ascii.eqb_refl. cbn [fold_left].
    rewrite Hstep.
    pose proof (clean_weight true (Strings.Split s "/") []) as Hw.
    rewrite Split_weight in Hw. rewrite weight_nil in Hw.
    destruct (fold_left (Filepath.cleanStep true) (Strings.Split s "/") []) as [|e st] eqn:Est.
    + left. reflexivity.
    + right. right. rewrite length_append. cbn [String.length].
      pose proof (join_weight (rev (e :: st))) as Hj.
      rewrite weight_rev in Hj.
      assert (Hne : rev (e :: st) <> []).
      { cbn. intros H. apply app_eq_nil in H as [_ H]. discriminate. }
      specialize (Hj Hne). lia.
  - pose proof (clean_weight false (Strings.Split (String c s) "/") []) as Hw.
    rewrite Split_weight in Hw. rewrite weight_nil in Hw. fold stack0 in Hw.
    destruct stack0 as [|e st] eqn:Est.
    + right. left. reflexivity.
    + pose proof (join_weight (rev (e :: st))) as Hj.
      rewrite weight_rev in Hj.
      assert (Hne : rev (e :: st) <> []).
      { cbn. intros H. apply app_eq_nil in H as [_ H]. discriminate. }
      specialize (Hj Hne).
      destruct (String.eqb (Filepath.join (rev (e :: st))) EmptyString); [right; left; reflexivity|].
      right. right. cbn [String.length] in *. lia.
Qed.

Lemma parents_length (before rest d : string) :
  d ∈ Os.parents before rest ->
  (String.length d < String.length before + String.length rest)%nat.
Proof.
  revert before; induction rest as [|c rest IH]; intros before; cbn [Os.parents].
  - intros H. inversion H.
  - rewrite elem_of_app. intros [H|H].
    + destruct (Ascii.eqb c "/" && negb (String.eqb before EmptyString)); [|inversion H].
      apply list_elem_of_singleton in H as ->. cbn. lia.
    + apply IH in H. rewrite length_append in H. cbn in *. lia.
Qed.

Lemma ancestors_length (name d : string) :
  d ∈ Os.ancestors name -> (String.length d <= String.length name)%nat.
Proof.
  unfold Os.ancestors.
  destruct (String.eqb name "." || String.eqb name "/"); [intros H; inversion H|].
  rewrite elem_of_app. intros [H|H].
  - apply parents_length in H. cbn in H. lia.
  - apply list_elem_of_singleton in H as ->. lia.
Qed.

(** Neither the target nor the temporary file is one of the directories
    that [Save] makes. *)
Lemma Dir_short (p : string) :
  Os.ancestors (Filepath.Dir p) = []
  \/ (String.length (Filepath.Dir p) < String.length p)%nat.
Proof.
  unfold Filepath.Dir. destruct (Strings.Contains p "/") eqn:Ec.
  - destruct (dropLast_sep p Ec) as (s & -> & Hs).
    destruct (Clean_sep s) as [->|[->|H]]; [left; reflexivity | left; reflexivity | right; lia].
  - rewrite (dropLast_plain p Ec). left. reflexivity.
Qed.

Lemma target_not_ancestor (p : string) : p ∉ Os.ancestors (Filepath.Dir p).
Proof.
  intros H. destruct (Dir_short p) as [E|E].
  - rewrite E in H. inversion H.
  - apply ancestors_length in H. lia.
Qed.

Lemma tmp_not_ancestor (p : string) : (p +:+ ".tmp")%string ∉ Os.ancestors (Filepath.Dir p).
Proof.
  intros H. destruct (Dir_short p) as [E|E].
  - rewrite E in H. inversion H.
  - apply ancestors_length in H. rewrite length_append in H. cbn in H. lia.
Qed.

(** ** The calls of [Save] *)

(** [MkdirAll] makes directories of the names it is given only. *)
Lemma mkdirs_dirs (budget : option nat) (names : list string) (w : Os.World) (x : string) :
  x ∈ Os.dirs (Os.mkdirs budget names w).2 -> x ∈ Os.dirs w \/ x ∈ names.
Proof.
  revert budget w; induction names as [|name names IH]; intros budget w; cbn [Os.mkdirs].
  - auto.
  - destruct (Os.isDir w name).
    { intros H. apply IH in H as [H|H]; [auto | right; apply list_elem_of_further, H]. }
    destruct (Os.isFile w name); [auto|].
    destruct budget as [[|k]|]; [auto| |]; intros H; apply IH in H as [H|H];
      cbn [Os.dirs] in H;
      try (right; apply list_elem_of_further, H);
      apply elem_of_union in H as [H|H]; auto;
      apply elem_of_singleton in H as ->; right; apply list_elem_of_here.
Qed.

Lemma isDir_made (f : Os.Faults) (name x : string) (w : Os.World) :
  Os.isDir (Os.MkdirAll f name w).2 x = true ->
  Os.isDir w x = true \/ x ∈ Os.ancestors name.
Proof.
  unfold Os.MkdirAll.
  pose proof (mkdirs_dirs (Os.mkdirFault f) (Os.ancestors name)
                (Os.record (Os.CallMkdirAll name) w) x) as H.
  destruct (Os.mkdirs _ _ _) as [err w2]. cbn [snd Os.dirs Os.record] in H.
  assert (Hw2 : Os.isDir w2 x = true -> Os.isDir w x = true \/ x ∈ Os.ancestors name).
  { unfold Os.isDir. rewrite !orb_true_iff, !bool_decide_eq_true. tauto. }
  destruct (Os.mkdirFault f), err; exact Hw2.
Qed.

(** Without a failure of the environment, the directories are made
    unless a regular file has the name of one of them. *)
Lemma mkdirs_nil (names : list string) (w : Os.World) :
  (Os.mkdirs None names w).1 = None <->
  (forall d, d ∈ names -> Os.isFile w d = true -> Os.isDir w d = true).
Proof.
  revert w; induction names as [|name names IH]; intros w; cbn [Os.mkdirs].
  - split; [intros _ d H; inversion H | reflexivity].
  - destruct (Os.isDir w name) eqn:Ed.
    { rewrite IH. split; intros H d Hd.
      - apply elem_of_cons in Hd as [->|Hd]; [auto | apply H, Hd].
      - apply H. apply list_elem_of_further, Hd. }
    destruct (Os.isFile w name) eqn:Ef.
    { split; [discriminate|]. intros H.
      specialize (H name (list_elem_of_here _ _) Ef). congruence. }
    rewrite IH. unfold Os.isFile, Os.isDir in *. cbn [Os.files Os.dirs].
    split; intros H d Hd Hfile.
    + apply elem_of_cons in Hd as [->|Hd]; [rewrite Hfile in Ef; discriminate|].
      specialize (H d Hd Hfile).
      rewrite !orb_true_iff, !bool_decide_eq_true in *.
      destruct H as [H|H]; [auto|]. apply elem_of_union in H as [H|H]; [|auto].
      apply elem_of_singleton in H as ->. rewrite Hfile in Ef. discriminate.
    + specialize (H d (list_elem_of_further _ _ _ Hd) Hfile).
      rewrite !orb_true_iff, !bool_decide_eq_true in *.
      destruct H as [H|H]; [auto|]. right. apply elem_of_union. auto.
Qed.

Lemma MkdirAll_nil (f : Os.Faults) (name : string) (w : Os.World) :
  (Os.MkdirAll f name w).1 = None <->
  Os.mkdirFault f = None
  /\ (forall d, d ∈ Os.ancestors name -> Os.isFile w d = true -> Os.isDir w d = true).
Proof.
  unfold Os.MkdirAll.
  destruct (Os.mkdirFault f) as [k|].
  - destruct (Os.mkdirs _ _ _) as [[e|] w2]; cbn; split; try discriminate; intros [? _]; discriminate.
  - pose proof (mkdirs_nil (Os.ancestors name) (Os.record (Os.CallMkdirAll name) w)) as H.
    destruct (Os.mkdirs None _ _) as [err w2]. cbn [fst] in *.
    rewrite H. split; [intros H'; split; [reflexivity | exact H'] | intros [_ H']; exact H'].
Qed.

(** [WriteFile] creates the file where its directory exists and no
    directory has its name. *)
Lemma WriteFile_nil (f : Os.Faults) (name : string) (data : Json.content) (w : Os.World) :
  ((Os.WriteFile f name data w).1 = None <->
   Os.writeFault_ f = Os.WriteThrough
   /\ Os.isDir w (Filepath.Dir name) = true /\ Os.isDir w name = false)
  /\ ((Os.WriteFile f name data w).1 = None ->
      Os.files (Os.WriteFile f name data w).2 = <[name := data]> (Os.files w)
      /\ Os.dirs (Os.WriteFile f name data w).2 = Os.dirs w).
Proof.
  unfold Os.WriteFile. destruct (Os.writeFault_ f).
  - rewrite !isDir_record.
    destruct (Os.isDir w (Filepath.Dir name)); cbn [negb];
      [|split; [split; [discriminate | intros (_ & ? & _); discriminate] | discriminate]].
    destruct (Os.isDir w name); cbn;
      [split; [split; [discriminate | intros (_ & _ & ?); discriminate] | discriminate]|].
    split; [tauto | auto].
  - cbn. split; [split; [discriminate | intros [? _]; discriminate] | discriminate].
  - cbn. split; [split; [discriminate | intros [? _]; discriminate] | discriminate].
Qed.

(** [Rename] replaces the new name where the old one is a file, the
    directory of the new one exists and no directory has its name; when
    it fails no file changes. *)
Lemma Rename_nil (f : Os.Faults) (oldname newname : string) (w : Os.World) :
  ((Os.Rename f oldname newname w).1 = None <->
   Os.renameFault f = false
   /\ Os.isFile w oldname = true
   /\ Os.isDir w (Filepath.Dir newname) = true /\ Os.isDir w newname = false)
  /\ ((Os.Rename f oldname newname w).1 <> None ->
      Os.files (Os.Rename f oldname newname w).2 = Os.files w
      /\ Os.dirs (Os.Rename f oldname newname w).2 = Os.dirs w).
Proof.
  unfold Os.Rename, Os.isFile. destruct (Os.renameFault f).
  { cbn. split; [split; [discriminate | intros [? _]; discriminate] | auto]. }
  cbn [Os.files Os.record]. destruct (Os.files w !! oldname) as [data|].
  2: { cbn. split; [split; [discriminate | intros (_ & ? & _); discriminate] | auto]. }
  rewrite !isDir_record.
  destruct (Os.isDir w (Filepath.Dir newname)); cbn [negb];
    [|cbn; split; [split; [discriminate | intros (_ & _ & ? & _); discriminate] | auto]].
  destruct (Os.isDir w newname); cbn;
    [split; [split; [discriminate | intros (_ & _ & _ & ?); discriminate] | auto]|].
  split; [tauto | congruence].
Qed.

(** [Save] goes through its calls in order, each after the success of the
    one before, and returns the first error. *)
Lemma Save_steps (f : Os.Faults) (r : Registry) (w : Os.World) :
  let jsonData := Json.MarshalIndent (mkRegistryData (assignments r) (blockedPorts r)) in
  let made := Os.MkdirAll f (Filepath.Dir (path r)) w in
  let written := Os.WriteFile f (path r +:+ ".tmp") jsonData made.2 in
  let renamed := Os.Rename f (path r +:+ ".tmp") (path r) written.2 in
  let removed := Os.Remove f (path r +:+ ".tmp") renamed.2 in
  Save f r w
  = match made.1, written.1, renamed.1 with
    | Some e, _, _ => (Some (ErrCreateDirectory e), made.2)
    | None, Some e, _ => (Some (ErrWriteTemporary e), written.2)
    | None, None, Some e => (Some (ErrSave e), removed.2)
    | None, None, None => (None, renamed.2)
    end.
Proof.
  cbv zeta. unfold Save.
  destruct (Os.MkdirAll f (Filepath.Dir (path r)) w) as [[e1|] w1]; cbn [fst snd]; [reflexivity|].
  destruct (Os.WriteFile f _ _ w1) as [[e2|] w2]; cbn [fst snd]; [reflexivity|].
  destruct (Os.Rename f _ _ w2) as [[e3|] w3]; cbn [fst snd]; [|reflexivity].
  destruct (Os.Remove f _ w3) as [e4 w4]. reflexivity.
Qed.

(** When the rename and the removal both fail, the temporary file stays
    with the whole serialization in it. *)
Lemma temporary_file_left_counterexample :
  exists w',
    Save (Os.mkFaults None Os.WriteThrough true true false)
      (mkRegistry homeFile [web] []) emptyDisk
    = (Some (ErrSave Os.EIO), w')
    /\ Os.trace w'
       = [Os.CallMkdirAll "/home/dev"; 
          Os.CallWriteFile "/home/dev/.portreg.json.tmp"
            (Json.MarshalIndent (mkRegistryData [web] []));
          Os.CallRename "/home/dev/.portreg.json.tmp" homeFile;
          Os.CallRemove "/home/dev/.portreg.json.tmp"]
    /\ Os.files w' !! "/home/dev/.portreg.json.tmp"%string
       = Some (Json.MarshalIndent (mkRegistryData [web] []))
    /\ Os.files w' !! homeFile = None.
Proof.
  eexists. split; [vm_compute; reflexivity|]. repeat split.
Qed.

(** C2, amended. [Save] makes the directory of the target with the
    directories above it, then writes the whole serialization to the
    temporary file, which is in that directory, then renames it over the
    target: each call is made after the one before has succeeded, and the
    first error is returned.  [Save] returns nil exactly when the
    environment fails no call, no regular file has the name of a
    directory to make and no directory has the name of the target or of
    the temporary file; the target then holds the new serialization and
    the temporary file is gone.  When [Save] returns an error the target
    holds what it held before.  When the rename fails [Save] calls
    [os.Remove] on the temporary file and returns the error of the
    rename: the temporary file is gone if that removal succeeds, and
    stays, with the whole serialization, if it fails.  No other file
    changes. *)
Theorem Save_atomic (f : Os.Faults) (r : Registry) (w : Os.World) :
  let target := path r in
  let tmpFile := (path r +:+ ".tmp")%string in
  let dir := Filepath.Dir target in
  let jsonData := Json.MarshalIndent (mkRegistryData (assignments r) (blockedPorts r)) in
  let made := Os.MkdirAll f dir w in
  let written := Os.WriteFile f tmpFile jsonData made.2 in
  let renamed := Os.Rename f tmpFile target written.2 in
  let w' := (Save f r w).2 in
  (* the temporary file is in the directory of the target *)
  Filepath.Dir tmpFile = dir
  (* the target is replaced as a whole, or is as before *)
  /\ (Os.files w' !! target = Some jsonData \/ Os.files w' !! target = Os.files w !! target)
  /\ (forall name, name <> target -> name <> tmpFile ->
      Os.files w' !! name = Os.files w !! name)
  (* when [Save] returns nil *)
  /\ ((Save f r w).1 = None <->
      Os.mkdirFault f = None /\ Os.writeFault_ f = Os.WriteThrough
      /\ Os.renameFault f = false
      /\ (forall d, d ∈ Os.ancestors dir -> Os.isFile w d = true -> Os.isDir w d = true)
      /\ Os.isDir w tmpFile = false /\ Os.isDir w target = false)
  /\ ((Save f r w).1 = None ->
      Os.files w' !! target = Some jsonData
      /\ Os.files w' !! tmpFile = None
      /\ (forall d, d ∈ Os.ancestors dir -> Os.isDir w' d = true)
      /\ Os.isDir w' dir = true
      /\ Os.trace w' = Os.trace w ++
           [Os.CallMkdirAll dir; Os.CallWriteFile tmpFile jsonData;
            Os.CallRename tmpFile target])
  (* an error leaves the target as it was *)
  /\ (forall err, (Save f r w).1 = Some err ->
      kindOf err = IOError /\ Os.files w' !! target = Os.files w !! target)
  (* the directory comes first *)
  /\ (forall e, made.1 = Some e ->
      Save f r w = (Some (ErrCreateDirectory e), made.2)
      /\ Os.files w' = Os.files w
      /\ Os.trace w' = Os.trace w ++ [Os.CallMkdirAll dir])
  /\ (made.1 = None ->
      (forall d, d ∈ Os.ancestors dir -> Os.isDir made.2 d = true)
      /\ Os.isDir made.2 dir = true
      (* then the temporary file is written *)
      /\ (forall e, written.1 = Some e ->
          Save f r w = (Some (ErrWriteTemporary e), written.2)
          /\ Os.trace w' = Os.trace w ++
               [Os.CallMkdirAll dir; Os.CallWriteFile tmpFile jsonData])
      /\ (written.1 = None ->
          Os.files written.2 !! tmpFile = Some jsonData
          /\ Os.files written.2 !! target = Os.files w !! target
          (* then it is renamed; a failed rename *)
          /\ (forall e, renamed.1 = Some e ->
              (Save f r w).1 = Some (ErrSave e)
              /\ Os.trace w' = Os.trace w ++
                   [Os.CallMkdirAll dir; Os.CallWriteFile tmpFile jsonData;
                    Os.CallRename tmpFile target; Os.CallRemove tmpFile]
              /\ Os.files w' !! tmpFile
                 = (if Os.removeFault f then Some jsonData else None))
          /\ (renamed.1 = None -> Save f r w = (None, renamed.2)))).
Proof.
  intros target tmpFile dir jsonData made written renamed w'.
  subst target tmpFile dir jsonData made written renamed w'.
  pose proof (Save_cases f r w) as (Hd & Ho & Hc).
  pose proof (Save_IOError f r w) as Hk.
  pose proof (Save_steps f r w) as Hs.
  pose proof (MkdirAll_nil f (Filepath.Dir (path r)) w) as Hmade.
  pose proof (MkdirAll_spec f (Filepath.Dir (path r)) w) as (Hmf & Hmt & Hmd).
  pose proof (fun w1 => MkdirAll_ancestors f (Filepath.Dir (path r)) w w1) as Hanc.
  pose proof (fun w1 => MkdirAll_ok f (Filepath.Dir (path r)) w w1) as Hok.
  pose proof (fun x => isDir_made f (Filepath.Dir (path r)) x w) as Hnew.
  pose proof (WriteFile_nil f (path r +:+ ".tmp")
                (Json.MarshalIndent (mkRegistryData (assignments r) (blockedPorts r)))
                (Os.MkdirAll f (Filepath.Dir (path r)) w).2) as [Hwr Hwf].
  pose proof (Rename_nil f (path r +:+ ".tmp") (path r)
                (Os.WriteFile f (path r +:+ ".tmp")
                   (Json.MarshalIndent (mkRegistryData (assignments r) (blockedPorts r)))
                   (Os.MkdirAll f (Filepath.Dir (path r)) w).2).2) as [Hrn Hrf].
  pose proof (tmp_not_ancestor (path r)) as Htmp.
  pose proof (target_not_ancestor (path r)) as Htarget.
  pose proof (tmp_not_path (path r)) as Hne.
  cbv zeta in *.
  set (jsonData := Json.MarshalIndent (mkRegistryData (assignments r) (blockedPorts r))) in *.
  set (dir := Filepath.Dir (path r)) in *.
  set (tmpFile := (path r +:+ ".tmp")%string) in *.
  set (target := path r) in *.
  set (made := Os.MkdirAll f dir w) in *.
  set (written := Os.WriteFile f tmpFile jsonData made.2) in *.
  set (renamed := Os.Rename f tmpFile target written.2) in *.
  rewrite Hd in Hwr.
  assert (Hmade2 : made.1 = None ->
            (forall d, d ∈ Os.ancestors dir -> Os.isDir made.2 d = true)
            /\ Os.isDir made.2 dir = true).
  { intros E. split; [apply Hanc | apply Hok]; rewrite <- E; apply surjective_pairing. }
  assert (Hup : forall x, Os.isDir w x = true -> Os.isDir made.2 x = true)
    by (intros x; apply isDir_mono; exact Hmd).
  assert (Hwd : written.1 = None -> forall x, Os.isDir written.2 x = Os.isDir made.2 x).
  { intros E x. unfold Os.isDir. destruct (Hwf E) as [_ ->]. reflexivity. }
  clear Hanc Hok.
  split; [exact Hd|]. split.
  { destruct (Save f r w) as [[e|] w1]; [right | left]; apply Hc. }
  split; [exact Ho|]. split.
  { (* nil exactly when nothing fails and nothing is in the way *)
    split.
    - intros Hnil. rewrite Hs in Hnil.
      destruct made.1 as [e1|] eqn:E1; [discriminate|].
      destruct written.1 as [e2|] eqn:E2; [discriminate|].
      destruct renamed.1 as [e3|] eqn:E3; [discriminate|].
      destruct (proj1 Hmade eq_refl) as [Hf1 Hway].
      destruct (proj1 Hwr eq_refl) as (Hf2 & _ & Htmpdir).
      destruct (proj1 Hrn eq_refl) as (Hf3 & _ & _ & Htargetdir).
      rewrite (Hwd eq_refl) in Htargetdir.
      repeat (split; [assumption|]). split.
      + destruct (Os.isDir w tmpFile) eqn:E; [|reflexivity].
        rewrite (Hup _ E) in Htmpdir. discriminate.
      + destruct (Os.isDir w target) eqn:E; [|reflexivity].
        rewrite (Hup _ E) in Htargetdir. discriminate.
    - intros (Hf1 & Hf2 & Hf3 & Hway & Htmpdir & Htargetdir).
      assert (E1 : made.1 = None) by (apply Hmade; auto).
      destruct (Hmade2 E1) as [_ Hdir].
      assert (E2 : written.1 = None).
      { apply Hwr. split; [exact Hf2|]. split; [exact Hdir|].
        destruct (Os.isDir made.2 tmpFile) eqn:E; [|reflexivity].
        destruct (Hnew _ E) as [H|H]; [congruence | contradiction]. }
      assert (E3 : renamed.1 = None).
      { apply Hrn. split; [exact Hf3|]. split; [|split].
        - unfold Os.isFile. destruct (Hwf E2) as [-> _]. rewrite lookup_insert_eq. reflexivity.
        - rewrite (Hwd E2). exact Hdir.
        - rewrite (Hwd E2). destruct (Os.isDir made.2 target) eqn:E; [|reflexivity].
          destruct (Hnew _ E) as [H|H]; [congruence | contradiction]. }
      rewrite Hs, E1, E2, E3. reflexivity. }
  split.
  { destruct (Save f r w) as [[e|] w1]; cbn [fst snd]; [discriminate|].
    intros _. exact Hc. }
  split.
  { intros err Herr. split; [apply Hk; exact Herr|].
    destruct (Save f r w) as [[e|] w1]; [apply Hc | discriminate]. }
  split.
  { intros e E1. rewrite Hs, E1. cbn [snd]. auto. }
  intros E1. destruct (Hmade2 E1) as [Hanc Hdir].
  split; [exact Hanc|]. split; [exact Hdir|]. split.
  { intros e E2. rewrite Hs, E1, E2. split; [reflexivity|].
    rewrite Hs, E1, E2 in Hc. cbn [snd].
    destruct Hc as (_ & [(e' & [=] & _)|[(e' & _ & Htr)|(e' & [=] & _)]]). exact Htr. }
  intros E2. destruct (Hwf E2) as [Hfiles _].
  split; [rewrite Hfiles; apply lookup_insert_eq|].
  split; [rewrite Hfiles, lookup_insert_ne by exact Hne; rewrite Hmf; reflexivity|].
  split; [|intros E3; rewrite Hs, E1, E2, E3; reflexivity].
  intros e E3. rewrite Hs, E1, E2, E3. cbn [fst snd].
  split; [reflexivity|].
  rewrite Hs, E1, E2, E3 in Hc.
  destruct Hc as (_ & [(e' & [=] & _)|[(e' & [=] & _)|(e' & _ & Htr & Hrm)]]).
  split; [exact Htr|].
  destruct (Os.removeFault f) eqn:Erm; [|apply Hrm; reflexivity].
  unfold Os.Remove. rewrite Erm. cbn [snd Os.files Os.record].
  destruct Hrf as [-> _]; [rewrite E3; discriminate|].
  rewrite Hfiles. apply lookup_insert_eq.
Qed.

(** ** Assignment operations *)

(** The loop finds the first assignment of [port]: none before it has
    the port. *)
Lemma assignedLoop_Some (asgs : list Assignment) (port : Z) (a : Assignment) :
  assignedLoop asgs port = Some a <->
  exists before after,
    asgs = before ++ a :: after /\ Port a = port /\ port ∉ (Port <$> before).
Proof.
  induction asgs as [|x asgs IH]; simpl.
  - split; [discriminate|]. intros (b & t & H & _). destruct b; discriminate.
  - destruct (Z.eqb_spec (Port x) port) as [E|E].
    + split.
      * intros [= <-]. exists [], asgs. repeat split; auto. apply not_elem_of_nil.
      * intros ([|y b] & t & H & Hp & Hn); simpl in H.
        -- congruence.
        -- injection H as <- _. exfalso. apply Hn. simpl. rewrite E. apply list_elem_of_here.
    + rewrite IH. split.
      * intros (b & t & -> & Hp & Hn). exists (x :: b), t. repeat split; auto.
        simpl. intros Hin. apply elem_of_cons in Hin as [?|?]; [congruence|auto].
      * intros ([|y b] & t & H & Hp & Hn); simpl in H.
        -- congruence.
        -- injection H as <- ->. exists b, t. repeat split; auto.
           intros Hin. apply Hn. simpl. apply list_elem_of_further. exact Hin.
Qed.

Lemma assignedLoop_None (asgs : list Assignment) (port : Z) :
  assignedLoop asgs port = None <-> port ∉ (Port <$> asgs).
Proof.
  induction asgs as [|x asgs IH]; simpl.
  - split; [intros _; apply not_elem_of_nil | auto].
  - destruct (Z.eqb_spec (Port x) port) as [E|E].
    + split; [discriminate|]. intros H. exfalso. apply H. rewrite E. apply list_elem_of_here.
    + rewrite IH. split.
      * intros H Hin. apply elem_of_cons in Hin as [?|?]; [congruence|auto].
      * intros H Hin. apply H. apply list_elem_of_further. exact Hin.
Qed.

(** A port is blocked when some rule of the collection matches it. *)
Lemma blockedLoop_true (bps : list BlockedPort) (port : Z) :
  blockedLoop bps port = true <->
  exists bp, bp ∈ bps /\ isPortInRange port (Ports bp) = true.
Proof.
  induction bps as [|x bps IH]; simpl.
  - split; [discriminate|]. intros (bp & H & _). inversion H.
  - destruct (isPortInRange port (Ports x)) eqn:E.
    + split; [|reflexivity]. intros _. exists x. split; [apply list_elem_of_here|exact E].
    + rewrite IH. split.
      * intros (bp & H & Hm). exists bp. split; [apply list_elem_of_further|]; auto.
      * intros (bp & H & Hm). apply elem_of_cons in H as [->|H]; [congruence|eauto].
Qed.

Lemma IsPortAvailable_true (r : Registry) (port : Z) :
  IsPortAvailable r port = true <->
  (port ∉ ports r) /\ isPortBlocked r port = false.
Proof.
  unfold IsPortAvailable, ports.
  destruct (assignedLoop (assignments r) port) eqn:E.
  - split; [discriminate|]. intros [H _]. apply assignedLoop_None in H. congruence.
  - apply assignedLoop_None in E. rewrite negb_true_iff. tauto.
Qed.

(** C6. [AssignPort] fails with [ErrPortAlreadyAssigned], carrying the
    description of the first existing assignment of the port, whenever
    an assignment has the port, blocked or not; otherwise with
    [ErrPortBlocked] whenever a blocked-port rule matches the port;
    otherwise it appends the assignment at the end of the collection
    and performs [Save].  The failures leave registry and files alone. *)
Theorem AssignPort_spec (f : Os.Faults) (port : Z) (description path_ : string)
    (r : Registry) (w : Os.World) :
  (port ∈ ports r ->
   exists before a after,
     assignments r = before ++ a :: after
     /\ Port a = port /\ (port ∉ (Port <$> before))
     /\ AssignPort f port description path_ r w
        = (Some (ErrPortAlreadyAssigned port (Description a)), r, w))
  /\ (port ∉ ports r ->
      (exists bp, bp ∈ blockedPorts r /\ isPortInRange port (Ports bp) = true) ->
      AssignPort f port description path_ r w = (Some (ErrPortBlocked port), r, w))
  /\ (port ∉ ports r ->
      (forall bp, bp ∈ blockedPorts r -> isPortInRange port (Ports bp) = false) ->
      let r' := mkRegistry (path r)
                  (assignments r ++ [mkAssignment port description path_])
                  (blockedPorts r) in
      AssignPort f port description path_ r w = ((Save f r' w).1, r', (Save f r' w).2)).
Proof.
  unfold AssignPort, ports. split; [|split].
  - intros Hin. destruct (assignedLoop (assignments r) port) as [a|] eqn:E.
    + apply assignedLoop_Some in E as (b & t & H1 & H2 & H3).
      exists b, a, t. auto.
    + apply assignedLoop_None in E. contradiction.
  - intros Hn Hb. apply assignedLoop_None in Hn as ->.
    apply blockedLoop_true in Hb. unfold isPortBlocked. rewrite Hb. reflexivity.
  - intros Hn Hb. cbv zeta. apply assignedLoop_None in Hn as ->.
    destruct (isPortBlocked r port) eqn:E.
    + apply blockedLoop_true in E as (bp & Hin & Hm). rewrite (Hb bp Hin) in Hm. discriminate.
    + destruct (Save f _ w); reflexivity.
Qed.

(** The loop of [UnassignPort]: [found] tells whether the port was met,
    [newAssignments] gathers the others in order. *)
Lemma unassign_loop (port : Z) (asgs acc : list Assignment) (found : bool) :
  fold_left (unassignStep port) asgs (found, acc)
  = (found || existsb (fun a => Port a =? port) asgs,
     acc ++ List.filter (fun a => negb (Port a =? port)) asgs).
Proof.
  revert acc found; induction asgs as [|a asgs IH]; intros acc found; simpl.
  - rewrite orb_false_r, app_nil_r. reflexivity.
  - unfold unassignStep at 2. simpl. destruct (Port a =? port); simpl.
    + rewrite IH. rewrite orb_true_r. reflexivity.
    + rewrite IH, <- app_assoc. reflexivity.
Qed.

Lemma existsb_port (asgs : list Assignment) (port : Z) :
  existsb (fun a => Port a =? port) asgs = true <-> port ∈ (Port <$> asgs).
Proof.
  rewrite existsb_exists, list_elem_of_fmap. split.
  - intros (a & Hin & E). exists a. split; [lia | apply list_elem_of_In; exact Hin].
  - intros (a & E & Hin). exists a. split; [apply list_elem_of_In; exact Hin | lia].
Qed.

Lemma filter_sublist {A : Type} (p : A -> bool) (l : list A) :
  sublist (List.filter p l) l.
Proof.
  induction l as [|x l IH]; simpl; [constructor|].
  destruct (p x); [apply sublist_skip | apply sublist_cons]; exact IH.
Qed.

(** C9. [UnassignPort] fails with [ErrPortNotAssigned] and leaves the
    registry and the files as they are when no assignment has the port;
    otherwise it takes out the assignments of the port, keeps the others
    in their order, and performs [Save]. *)
Theorem UnassignPort_spec (f : Os.Faults) (port : Z) (r : Registry) (w : Os.World) :
  (port ∉ ports r ->
   UnassignPort f port r w = (Some (ErrPortNotAssigned port), r, w))
  /\ (port ∈ ports r ->
      exists kept,
        let r' := mkRegistry (path r) kept (blockedPorts r) in
        UnassignPort f port r w = ((Save f r' w).1, r', (Save f r' w).2)
        /\ sublist kept (assignments r)
        /\ (forall a, a ∈ kept <-> a ∈ assignments r /\ Port a <> port)
        /\ (port ∉ ports r')
        /\ kept = List.filter (fun a => negb (Port a =? port)) (assignments r)).
Proof.
  unfold UnassignPort, ports. rewrite unassign_loop. simpl. split.
  - intros Hn. destruct (existsb _ (assignments r)) eqn:E.
    + apply existsb_port in E. contradiction.
    + reflexivity.
  - intros Hin. apply existsb_port in Hin as ->. simpl.
    eexists. split; [|split; [|split; [|split; [|reflexivity]]]].
    + destruct (Save f _ w); reflexivity.
    + apply filter_sublist.
    + intros a. rewrite list_elem_of_In, filter_In, <- list_elem_of_In.
      rewrite negb_true_iff, Z.eqb_neq. tauto.
    + simpl. rewrite list_elem_of_fmap. intros (a & E & Ha).
      apply list_elem_of_In, filter_In in Ha as [_ Ha].
      apply negb_true_iff, Z.eqb_neq in Ha. congruence.
Qed.

(** ** Failure of the final [Save] *)

(** A [Save] that fails leaves the mutation in memory: the appended
    assignment stays after [AssignPort], the removed one stays out after
    [UnassignPort], and available ports are judged on that state. *)
Lemma no_rollback_counterexample :
  (exists err r' w',
     AssignPort renameFails 8000 "web" "/srv/web" (mkRegistry homeFile [] []) emptyDisk
     = (Some err, r', w')
     /\ assignments r' <> []
     /\ IsPortAvailable r' 8000 = false
     /\ Os.files w' !! homeFile = None)
  /\ (exists err r' w',
       UnassignPort writeFails 8000 (mkRegistry homeFile [web; api] []) emptyDisk
       = (Some err, r', w')
       /\ assignments r' <> [web; api]
       /\ IsPortAvailable r' 8000 = true
       /\ Os.files w' !! homeFile = None).
Proof.
  split.
  - exists (ErrSave Os.EIO). eexists. eexists. split; [vm_compute; reflexivity|].
    split; [discriminate|split; reflexivity].
  - exists (ErrWriteTemporary Os.EIO). eexists. eexists. split; [vm_compute; reflexivity|].
    split; [discriminate|split; reflexivity].
Qed.

(** C1, amended. When the [Save] at the end of [AssignPort] or of
    [UnassignPort] fails, the operation returns the error of [Save], the
    registry file holds what it held before, and the collection in
    memory keeps the mutation: nothing is rolled back. *)
Theorem Save_failure_keeps_mutation (f : Os.Faults) (port : Z)
    (description path_ : string) (r : Registry) (w : Os.World) :
  (forall err,
     (port ∉ ports r) -> isPortBlocked r port = false ->
     (Save f (mkRegistry (path r)
                (assignments r ++ [mkAssignment port description path_])
                (blockedPorts r)) w).1 = Some err ->
     exists r' w',
       AssignPort f port description path_ r w = (Some err, r', w')
       /\ assignments r' = assignments r ++ [mkAssignment port description path_]
       /\ kindOf err = IOError
       /\ Os.files w' !! path r = Os.files w !! path r)
  /\ (forall err,
       port ∈ ports r ->
       (Save f (mkRegistry (path r)
                  (List.filter (fun a => negb (Port a =? port)) (assignments r))
                  (blockedPorts r)) w).1 = Some err ->
       exists r' w',
         UnassignPort f port r w = (Some err, r', w')
         /\ assignments r' = List.filter (fun a => negb (Port a =? port)) (assignments r)
         /\ kindOf err = IOError
         /\ Os.files w' !! path r = Os.files w !! path r).
Proof.
  split.
  - intros err Hn Hb Hs. unfold AssignPort.
    apply assignedLoop_None in Hn as ->. rewrite Hb.
    pose proof (Save_IOError _ _ _ _ Hs) as Hk.
    pose proof (Save_cases f (mkRegistry (path r)
      (assignments r ++ [mkAssignment port description path_]) (blockedPorts r)) w)
      as (_ & _ & H).
    destruct (Save f _ w) as [e w'] eqn:E. simpl in Hs. subst e.
    eexists. exists w'. split; [reflexivity|]. simpl in *. tauto.
  - intros err Hin Hs. unfold UnassignPort. rewrite unassign_loop. simpl.
    apply existsb_port in Hin as ->. simpl.
    pose proof (Save_IOError _ _ _ _ Hs) as Hk.
    pose proof (Save_cases f (mkRegistry (path r)
      (List.filter (fun a => negb (Port a =? port)) (assignments r)) (blockedPorts r)) w)
      as (_ & _ & H).
    destruct (Save f _ w) as [e w'] eqn:E. simpl in Hs. subst e.
    eexists. exists w'. split; [reflexivity|]. simpl in *. tauto.
Qed.

Lemma Save_failure_keeps_mutation_witness :
  (exists r' w',
     AssignPort renameFails 8000 "web" "/srv/web" (mkRegistry homeFile [] []) emptyDisk
     = (Some (ErrSave Os.EIO), r', w')
     /\ assignments r' = [] ++ [web]
     /\ kindOf (ErrSave Os.EIO) = IOError
     /\ Os.files w' !! homeFile = Os.files emptyDisk !! homeFile)
  /\ (exists r' w',
       UnassignPort writeFails 8000 (mkRegistry homeFile [web; api] []) emptyDisk
       = (Some (ErrWriteTemporary Os.EIO), r', w')
       /\ assignments r' = [api]
       /\ kindOf (ErrWriteTemporary Os.EIO) = IOError
       /\ Os.files w' !! homeFile = Os.files emptyDisk !! homeFile).
Proof.
  split.
  - apply (proj1 (Save_failure_keeps_mutation renameFails 8000 "web" "/srv/web"
                    (mkRegistry homeFile [] []) emptyDisk)).
    + apply not_elem_of_nil.
    + reflexivity.
    + vm_compute. reflexivity.
  - apply (proj2 (Save_failure_keeps_mutation writeFails 8000 EmptyString EmptyString
                    (mkRegistry homeFile [web; api] []) emptyDisk)).
    + apply list_elem_of_here.
    + vm_compute. reflexivity.
Defined.

(** ** Automatic assignment *)

(** The scan answers the first available port of the [n] ports from
    [port] on, and [-1] when none of them is available. *)
Lemma scanPorts_spec (r : Registry) (n : nat) (port : Z) :
  (scanPorts r n port = -1
   /\ forall q, port <= q < port + Z.of_nat n -> IsPortAvailable r q = false)
  \/ (port <= scanPorts r n port < port + Z.of_nat n
      /\ IsPortAvailable r (scanPorts r n port) = true
      /\ forall q, port <= q < scanPorts r n port -> IsPortAvailable r q = false).
Proof.
  revert port; induction n as [|n IH]; intros port.
  - left. split; [reflexivity|]. intros q Hq. lia.
  - cbn [scanPorts]. destruct (IsPortAvailable r port) eqn:E.
    + right. split; [lia|]. split; [exact E|]. intros q Hq. lia.
    + destruct (IH (port + 1)) as [[H1 H2]|(H1 & H2 & H3)].
      * left. split; [exact H1|]. intros q Hq.
        destruct (Z.eq_dec q port) as [->|Hne]; [exact E|]. apply H2. lia.
      * right. split; [lia|]. split; [exact H2|]. intros q Hq.
        destruct (Z.eq_dec q port) as [->|Hne]; [exact E|]. apply H3. lia.
Qed.

Lemma findNextAvailablePort_spec (r : Registry) :
  (findNextAvailablePort r = -1
   /\ forall q, startPort <= q <= maxPort -> IsPortAvailable r q = false)
  \/ (startPort <= findNextAvailablePort r <= maxPort
      /\ IsPortAvailable r (findNextAvailablePort r) = true
      /\ forall q, startPort <= q < findNextAvailablePort r -> IsPortAvailable r q = false).
Proof.
  unfold findNextAvailablePort.
  assert (Hn : Z.of_nat (Z.to_nat (maxPort - startPort + 1)) = maxPort - startPort + 1).
  { apply Z2Nat.id. unfold maxPort, startPort. lia. }
  generalize dependent (Z.to_nat (maxPort - startPort + 1)). intros n Hn.
  destruct (scanPorts_spec r n startPort) as [[H1 H2]|(H1 & H2 & H3)].
  - left. split; [exact H1|]. intros q Hq. apply H2. lia.
  - right. split; [lia|]. split; [exact H2|exact H3].
Qed.

Lemma IsPortAvailable_false (r : Registry) (port : Z) :
  IsPortAvailable r port = false <->
  port ∈ ports r
  \/ exists bp, bp ∈ blockedPorts r /\ isPortInRange port (Ports bp) = true.
Proof.
  unfold IsPortAvailable, ports, isPortBlocked.
  destruct (assignedLoop (assignments r) port) eqn:E.
  - split; [|reflexivity]. intros _. left.
    apply assignedLoop_Some in E as (b & t & -> & <- & _).
    rewrite fmap_app, fmap_cons. apply elem_of_app. right. apply list_elem_of_here.
  - apply assignedLoop_None in E. rewrite negb_false_iff, blockedLoop_true. tauto.
Qed.

(** C4. [AssignNextAvailable] takes the first port from 3100 to 65535
    that is neither assigned nor matched by a blocked-port rule, assigns
    it through [AssignPort] and returns it when that succeeds (the error
    of its [Save] otherwise); it fails with [ErrNoPortsAvailable], and
    changes nothing, exactly when every port from 3100 to 65535 is
    assigned or blocked. *)
Theorem AssignNextAvailable_spec (f : Os.Faults) (description path_ : string)
    (r : Registry) (w : Os.World) :
  let unavailable q :=
    q ∈ ports r
    \/ exists bp, bp ∈ blockedPorts r /\ isPortInRange q (Ports bp) = true in
  let res := AssignNextAvailable f description path_ r w in
  (res.1.1.2 = Some ErrNoPortsAvailable <-> forall q, 3100 <= q <= 65535 -> unavailable q)
  /\ (((forall q, 3100 <= q <= 65535 -> unavailable q)
       /\ res = ((0, Some ErrNoPortsAvailable), r, w))
      \/ exists q,
           3100 <= q <= 65535 /\ ~ unavailable q
           /\ (forall q', 3100 <= q' < q -> unavailable q')
           /\ let r' := mkRegistry (path r)
                          (assignments r ++ [mkAssignment q description path_])
                          (blockedPorts r) in
              AssignPort f q description path_ r w = ((Save f r' w).1, r', (Save f r' w).2)
              /\ (((Save f r' w).1 = None /\ res = ((q, None), r', (Save f r' w).2))
                  \/ exists err, (Save f r' w).1 = Some err /\ kindOf err = IOError
                                 /\ res = ((0, Some err), r', (Save f r' w).2))).
Proof.
  intros unavailable res.
  assert (Hu : forall q, IsPortAvailable r q = false <-> unavailable q)
    by (intros q; apply IsPortAvailable_false).
  assert (Hmain :
    ((forall q, 3100 <= q <= 65535 -> unavailable q)
       /\ res = ((0, Some ErrNoPortsAvailable), r, w))
      \/ exists q,
           3100 <= q <= 65535 /\ ~ unavailable q
           /\ (forall q', 3100 <= q' < q -> unavailable q')
           /\ let r' := mkRegistry (path r)
                          (assignments r ++ [mkAssignment q description path_])
                          (blockedPorts r) in
              AssignPort f q description path_ r w = ((Save f r' w).1, r', (Save f r' w).2)
              /\ (((Save f r' w).1 = None /\ res = ((q, None), r', (Save f r' w).2))
                  \/ exists err, (Save f r' w).1 = Some err /\ kindOf err = IOError
                                 /\ res = ((0, Some err), r', (Save f r' w).2))).
  { subst res. unfold AssignNextAvailable.
    destruct (findNextAvailablePort_spec r) as [[H1 H2]|(H1 & H2 & H3)].
    - left. rewrite H1. simpl. split; [|reflexivity].
      intros q Hq. apply Hu, H2. exact Hq.
    - right. set (q := findNextAvailablePort r) in *.
      unfold startPort, maxPort in *. exists q.
      split; [exact H1|]. split; [rewrite <- Hu; congruence|].
      split; [intros q' Hq'; apply Hu, H3; exact Hq'|].
      destruct (q =? -1) eqn:Eq; [lia|].
      apply IsPortAvailable_true in H2 as [Hn Hb]. cbv zeta.
      assert (Ha : AssignPort f q description path_ r w
                   = ((Save f (mkRegistry (path r)
                         (assignments r ++ [mkAssignment q description path_])
                         (blockedPorts r)) w).1,
                      mkRegistry (path r)
                         (assignments r ++ [mkAssignment q description path_])
                         (blockedPorts r),
                      (Save f (mkRegistry (path r)
                         (assignments r ++ [mkAssignment q description path_])
                         (blockedPorts r)) w).2)).
      { unfold AssignPort. apply assignedLoop_None in Hn as ->. rewrite Hb.
        destruct (Save f _ w); reflexivity. }
      split; [exact Ha|]. rewrite Ha.
      pose proof (Save_IOError f (mkRegistry (path r)
                         (assignments r ++ [mkAssignment q description path_])
                         (blockedPorts r)) w) as Hk.
      destruct (Save f _ w) as [[err|] w']; simpl in *.
      + right. exists err. auto.
      + left. auto. }
  split; [|exact Hmain].
  destruct Hmain as [[Hall ->]|(q & Hq & Hnu & _ & _ & [[_ ->]|(err & _ & Hk & ->)])]; simpl.
  - tauto.
  - split; [discriminate|]. intros Hall. destruct (Hnu (Hall q Hq)).
  - split; [intros [= ->]; discriminate|]. intros Hall. destruct (Hnu (Hall q Hq)).
Qed.

(** The cases of [TestAssignNextAvailable]: 3100 on an empty registry;
    3106 after 3100 and 3101 with the range 3102-3105 blocked. *)
Example AssignNextAvailable_tests :
  (AssignNextAvailable Os.noFaults "test" EmptyString (mkRegistry homeFile [] []) emptyDisk).1.1
  = (3100, None)
  /\ (AssignNextAvailable Os.noFaults "test" EmptyString
        (mkRegistry homeFile [mkAssignment 3100 EmptyString EmptyString; mkAssignment 3101 EmptyString EmptyString]
           [mkBlockedPort "3102-3105" EmptyString]) emptyDisk).1.1
     = (3106, None).
Proof. split; vm_compute; reflexivity. Qed.

Example AssignNextAvailable_exhausted :
  (AssignNextAvailable Os.noFaults "test" EmptyString
     (mkRegistry homeFile [] [mkBlockedPort "1024-65535" "everything"]) emptyDisk).1.1
  = (0, Some ErrNoPortsAvailable).
Proof. vm_compute. reflexivity. Qed.

(** ** Initialization *)

Lemma isPortInRange_single (port n : Z) (rangeSpec : string) :
  Strings.Contains rangeSpec "-" = false ->
  Strconv.Atoi (Strings.TrimSpace rangeSpec) = Some n ->
  isPortInRange port rangeSpec = (port =? n).
Proof. unfold isPortInRange. intros -> ->. reflexivity. Qed.

(** The default rules block the five ports, and no other. *)
Lemma defaultBlockedPorts_block (port : Z) :
  blockedLoop defaultBlockedPorts port = true <->
  port ∈ [3306; 5432; 6379; 8080; 27017].
Proof.
  unfold defaultBlockedPorts. cbn [blockedLoop Ports].
  rewrite (isPortInRange_single port 3306 "3306" eq_refl eq_refl).
  rewrite (isPortInRange_single port 5432 "5432" eq_refl eq_refl).
  rewrite (isPortInRange_single port 6379 "6379" eq_refl eq_refl).
  rewrite (isPortInRange_single port 8080 "8080" eq_refl eq_refl).
  rewrite (isPortInRange_single port 27017 "27017" eq_refl eq_refl).
  rewrite !elem_of_cons, elem_of_nil.
  destruct (Z.eqb_spec port 3306); [tauto|].
  destruct (Z.eqb_spec port 5432); [tauto|].
  destruct (Z.eqb_spec port 6379); [tauto|].
  destruct (Z.eqb_spec port 8080); [tauto|].
  destruct (Z.eqb_spec port 27017); [tauto|].
  split; [discriminate | tauto].
Qed.

(** C8. [Init] fails with the already-exists error whenever something
    exists at the path of the registry, a file in particular, and then
    changes neither the registry nor any file; otherwise it sets the
    blocked ports to the five default rules, for 3306, 5432, 6379, 8080
    and 27017, each with a description, empties the assignments, and
    performs [Save]. *)
Theorem Init_spec (f : Os.Faults) (r : Registry) (w : Os.World) :
  let found := (Os.Stat (path r) w).1 in
  let w1 := (Os.Stat (path r) w).2 in
  (is_Some (Os.files w !! path r) -> found = true)
  /\ Os.files w1 = Os.files w /\ Os.dirs w1 = Os.dirs w
  /\ (found = true ->
      Init f r w = (Some (ErrAlreadyExists (path r)), r, w1)
      /\ kindOf (ErrAlreadyExists (path r)) = AlreadyInitialized)
  /\ (found = false ->
      let r' := mkRegistry (path r) [] defaultBlockedPorts in
      Init f r w = ((Save f r' w1).1, r', (Save f r' w1).2))
  /\ defaultBlockedPorts =
       [ mkBlockedPort "3306" "MySQL default port";
         mkBlockedPort "5432" "PostgreSQL default port";
         mkBlockedPort "6379" "Redis default port";
         mkBlockedPort "8080" "Common HTTP alternative port";
         mkBlockedPort "27017" "MongoDB default port" ]
  /\ Forall (fun bp => BlockedDescription bp <> EmptyString) defaultBlockedPorts
  /\ (forall port, blockedLoop defaultBlockedPorts port = true <->
                   port ∈ [3306; 5432; 6379; 8080; 27017]).
Proof.
  intros found w1. subst found w1. unfold Init, Os.Stat. simpl.
  split.
  { intros [c Hc]. unfold Os.isFile. rewrite Hc. reflexivity. }
  split; [reflexivity|]. split; [reflexivity|].
  split.
  { intros ->. split; reflexivity. }
  split.
  { intros ->. destruct (Save f _ _); reflexivity. }
  split; [reflexivity|].
  split; [|apply defaultBlockedPorts_block].
  repeat constructor; discriminate.
Qed.

(** [Init] twice on an empty disk: the second call fails and the file of
    the first is as it was. *)
Example Init_twice :
  let '(err1, r1, w1) := Init Os.noFaults (mkRegistry homeFile [web] []) emptyDisk in
  let '(err2, r2, w2) := Init Os.noFaults r1 w1 in
  err1 = None
  /\ err2 = Some (ErrAlreadyExists homeFile)
  /\ Os.files w2 = Os.files w1
  /\ Os.files w1 !! homeFile
     = Some (Json.MarshalIndent (mkRegistryData [] defaultBlockedPorts)).
Proof. vm_compute. repeat split; reflexivity. Qed.

(** ** Ports of the assignments *)

(** A non-positive port is assigned like any other, and a file that
    lists a port twice is loaded as it is. *)
Lemma ports_invariant_counterexample :
  (exists r w, reachable r w /\ ~ Forall (fun p => 0 < p) (ports r))
  /\ (exists r w, reachable r w /\ ~ NoDup (ports r)).
Proof.
  split.
  - eexists. eexists. split.
    + apply (reach_run Os.noFaults (OpAssignPort 0 "zero" EmptyString)
               (mkRegistry homeFile [] []) (Os.record (Os.CallStat homeFile) emptyDisk)).
      apply (reach_New Os.noFaults homeFile emptyDisk). reflexivity.
    + vm_compute. intros H. inversion H as [|? ? Hp]. discriminate Hp.
  - eexists. eexists. split.
    + apply (reach_New Os.noFaults homeFile editedDisk). vm_compute. reflexivity.
    + simpl. intros H. apply NoDup_cons in H as [H _]. apply H. apply list_elem_of_here.
Qed.

(** What an operation makes of the assignments. *)
Lemma run_assignments (f : Os.Faults) (o : operation) (r : Registry) (w : Os.World) :
  let r' := (run f o r w).1 in
  assignments r' = assignments r
  \/ assignments r' = []
  \/ (exists port d p,
        (o = OpAssignPort port d p \/ 3100 <= port)
        /\ (port ∉ ports r)
        /\ assignments r' = assignments r ++ [mkAssignment port d p])
  \/ (exists port,
        assignments r' = List.filter (fun a => negb (Port a =? port)) (assignments r)).
Proof.
  destruct o as [|port d p|d p|port|]; simpl.
  - unfold Init. destruct (Os.Stat (path r) w) as [[|] w1]; [auto|].
    destruct (Save f _ w1). simpl. auto.
  - unfold AssignPort. destruct (assignedLoop (assignments r) port) eqn:E; [auto|].
    destruct (isPortBlocked r port); [auto|]. destruct (Save f _ w). simpl.
    right. right. left. exists port, d, p. apply assignedLoop_None in E. auto.
  - unfold AssignNextAvailable.
    destruct (findNextAvailablePort_spec r) as [[H1 H2]|(H1 & H2 & H3)].
    + rewrite H1. simpl. auto.
    + unfold startPort in H1. destruct (findNextAvailablePort r =? -1) eqn:Eq; [lia|].
      apply IsPortAvailable_true in H2 as [Hn Hb].
      unfold AssignPort. pose proof Hn as Hn'. apply assignedLoop_None in Hn' as ->.
      rewrite Hb. destruct (Save f _ w) as [[e|] w']; simpl;
        right; right; left; exists (findNextAvailablePort r), d, p;
        (split; [right; lia|auto]).
  - unfold UnassignPort. rewrite unassign_loop. simpl.
    destruct (existsb _ (assignments r)); simpl; [|auto].
    destruct (Save f _ w). simpl. right. right. right. exists port. reflexivity.
  - auto.
Qed.

Lemma filter_ports_sublist (p : Assignment -> bool) (asgs : list Assignment) :
  sublist (Port <$> List.filter p asgs) (Port <$> asgs).
Proof.
  induction asgs as [|a asgs IH]; simpl; [constructor|].
  destruct (p a); simpl; [apply sublist_skip | apply sublist_cons]; exact IH.
Qed.

Lemma run_invariant (f : Os.Faults) (o : operation) (r : Registry) (w : Os.World) :
  positiveArg o ->
  NoDup (ports r) /\ Forall (fun p => 0 < p) (ports r) ->
  NoDup (ports (run f o r w).1) /\ Forall (fun p => 0 < p) (ports (run f o r w).1).
Proof.
  intros Ho [Hd Hp]. unfold ports in *.
  destruct (run_assignments f o r w)
    as [H|[H|[(port & d & p & Hport & Hn & H)|(port & H)]]]; rewrite H.
  - auto.
  - split; constructor.
  - rewrite fmap_app. simpl. split.
    + apply NoDup_app. split; [exact Hd|]. split; [|apply NoDup_singleton].
      intros x Hx Hx'. apply list_elem_of_singleton in Hx'. subst x. exact (Hn Hx).
    + apply Forall_app. split; [exact Hp|]. constructor; [|constructor].
      destruct Hport as [->|Hport]; [exact Ho|lia].
  - split.
    + eapply sublist_NoDup; [exact Hd|apply filter_ports_sublist].
    + apply Forall_forall. intros x Hx. rewrite Forall_forall in Hp. apply Hp.
      eapply elem_of_sublist; [exact Hx|apply filter_ports_sublist].
Qed.

(** C5, amended. From a registry whose ports are positive and pairwise
    distinct, the empty one that [New] builds where no file exists in
    particular, [Init], [AssignPort] with a positive port,
    [AssignNextAvailable], [UnassignPort] and [Save] lead only to
    registries whose ports are positive and pairwise distinct. *)
Theorem ports_invariant (r0 r : Registry) (w0 w : Os.World) :
  NoDup (ports r0) -> Forall (fun p => 0 < p) (ports r0) ->
  reachable_from r0 w0 r w ->
  NoDup (ports r) /\ Forall (fun p => 0 < p) (ports r).
Proof.
  intros Hd Hp Hr. induction Hr as [|f o r w Hr IH Ho].
  - auto.
  - apply run_invariant; auto.
Qed.

(** The commands ask [AssignPort] for positive ports only. *)
Lemma operationOf_positive (c : command) : positiveArg (operationOf c).
Proof.
  destruct c as [|assignPort d p|port]; simpl; [exact I| |exact I].
  destruct (assignPort >? 0) eqn:E; simpl; [lia|exact I].
Qed.

(** So a command keeps the ports positive and pairwise distinct. *)
Lemma command_invariant (f : Os.Faults) (c : command) (r : Registry) (w : Os.World) :
  NoDup (ports r) /\ Forall (fun p => 0 < p) (ports r) ->
  NoDup (ports (run f (operationOf c) r w).1)
  /\ Forall (fun p => 0 < p) (ports (run f (operationOf c) r w).1).
Proof. apply run_invariant, operationOf_positive. Qed.

(** Where nothing exists at the path, [New] starts from no assignment. *)
Lemma New_absent (f : Os.Faults) (p : string) (w : Os.World) :
  (Os.Stat p w).1 = false ->
  New f p w = (inr (mkRegistry p [] []), (Os.Stat p w).2).
Proof. unfold New. destruct (Os.Stat p w) as [found w1]. simpl. intros ->. reflexivity. Qed.

Lemma ports_invariant_witness :
  NoDup (ports afterApi.1) /\ Forall (fun p => 0 < p) (ports afterApi.1).
Proof.
  apply (ports_invariant (mkRegistry homeFile [] []) afterApi.1 emptyDisk afterApi.2).
  - apply NoDup_nil. exact I.
  - constructor.
  - apply from_run; [|exact I]. apply from_run; [apply from_start|].
    simpl. lia.
Defined.

(** ** Round trip through the file *)

(** Valid UTF-8 is left as it is by the coercion of the encoder. *)
Lemma toValid_valid (n : nat) (l : list ascii) :
  (length l <= n)%nat -> Utf8.valid l = true -> Utf8.toValid l = l.
Proof.
  revert l; induction n as [|n IH]; intros l Hn Hv.
  - destruct l; [reflexivity | simpl in Hn; lia].
  - destruct l as [|c0 l1]; [reflexivity|].
    cbn -[Utf8.width] in *.
    destruct (Utf8.width (c0 :: l1)) as [|[|[|[|[|k]]]]].
    + discriminate.
    + f_equal. apply IH; [lia | exact Hv].
    + destruct l1 as [|c1 l2]; [discriminate|].
      do 2 f_equal. apply IH; [simpl in Hn; lia | exact Hv].
    + destruct l1 as [|c1 [|c2 l3]]; try discriminate.
      do 3 f_equal. apply IH; [simpl in Hn; lia | exact Hv].
    + destruct l1 as [|c1 [|c2 [|c3 l4]]]; try discriminate.
      do 4 f_equal. apply IH; [simpl in Hn; lia | exact Hv].
    + discriminate.
Qed.

Lemma ToValidUTF8_valid (s : string) :
  Utf8.ValidString s = true -> Utf8.ToValidUTF8 s = s.
Proof.
  unfold Utf8.ValidString, Utf8.ToValidUTF8, string_of, bytes_of. intros H.
  rewrite (toValid_valid (length (list_ascii_of_string s))); [|lia|exact H].
  apply string_of_list_ascii_of_string.
Qed.

(** Decoding what was encoded gives the struct back, its texts coerced. *)
Lemma decodeAssignment_marshal (a : Assignment) :
  is_int (Port a) = true ->
  Json.decodeAssignment (Json.marshalAssignment a)
  = Some (mkAssignment (Port a) (Utf8.ToValidUTF8 (Description a))
                       (Utf8.ToValidUTF8 (Path a))).
Proof.
  destruct a as [port d p]. cbn [Port Description Path]. intros Hi.
  unfold Json.decodeAssignment, Json.marshalAssignment, Json.omitempty, Json.marshalString.
  cbn [Port Description Path].
  destruct (String.eqb_spec d EmptyString), (String.eqb_spec p EmptyString); subst;
    cbn [app Json.decodeAssignmentMembers];
    change (Json.selects "port" "port") with true;
    change (Json.selects "description" "port") with false;
    change (Json.selects "description" "description") with true;
    change (Json.selects "path" "port") with false;
    change (Json.selects "path" "description") with false;
    change (Json.selects "path" "path") with true;
    cbn [Json.decodeInt Json.decodeString mbind option_bind Port Description Path];
    rewrite Hi; reflexivity.
Qed.

Lemma decodeBlockedPort_marshal (b : BlockedPort) :
  Json.decodeBlockedPort (Json.marshalBlockedPort b)
  = Some (mkBlockedPort (Utf8.ToValidUTF8 (Ports b))
                        (Utf8.ToValidUTF8 (BlockedDescription b))).
Proof.
  destruct b as [p d]. cbn [Ports BlockedDescription].
  unfold Json.decodeBlockedPort, Json.marshalBlockedPort, Json.omitempty, Json.marshalString.
  cbn [Ports BlockedDescription].
  destruct (String.eqb_spec d EmptyString); subst;
    cbn [app Json.decodeBlockedPortMembers];
    change (Json.selects "ports" "ports") with true;
    change (Json.selects "description" "ports") with false;
    change (Json.selects "description" "description") with true;
    reflexivity.
Qed.

Lemma Unmarshal_MarshalIndent (d : registryData) :
  Forall (fun a => is_int (Port a) = true) (Assignments d) ->
  Json.Unmarshal (Json.MarshalIndent d)
  = inr (mkRegistryData
           ((fun a => mkAssignment (Port a) (Utf8.ToValidUTF8 (Description a))
                                   (Utf8.ToValidUTF8 (Path a))) <$> Assignments d)
           ((fun b => mkBlockedPort (Utf8.ToValidUTF8 (Ports b))
                                    (Utf8.ToValidUTF8 (BlockedDescription b)))
              <$> BlockedPorts d)).
Proof.
  intros Hi. unfold Json.Unmarshal, Json.MarshalIndent, Json.marshalData, Json.decodeData.
  cbn [Json.decodeDataMembers].
  change (Json.selects "assignments" "assignments") with true.
  change (Json.selects "blockedPorts" "assignments") with false.
  change (Json.selects "blockedPorts" "blockedPorts") with true.
  cbn [Json.decodeAssignments Json.decodeBlockedPorts].
  assert (Ha : mapM Json.decodeAssignment (Json.marshalAssignment <$> Assignments d)
               = Some ((fun a => mkAssignment (Port a) (Utf8.ToValidUTF8 (Description a))
                                   (Utf8.ToValidUTF8 (Path a))) <$> Assignments d)).
  { induction Hi as [|a l Ha Hl IH]; [reflexivity|].
    cbn [fmap list_fmap mapM]. rewrite (decodeAssignment_marshal a Ha).
    cbn [mbind option_bind]. fold (@fmap list _ _ _ Json.marshalAssignment l).
    rewrite IH. reflexivity. }
  assert (Hb : mapM Json.decodeBlockedPort (Json.marshalBlockedPort <$> BlockedPorts d)
               = Some ((fun b => mkBlockedPort (Utf8.ToValidUTF8 (Ports b))
                                    (Utf8.ToValidUTF8 (BlockedDescription b)))
                         <$> BlockedPorts d)).
  { induction (BlockedPorts d) as [|b l IH]; [reflexivity|].
    cbn [fmap list_fmap mapM]. rewrite (decodeBlockedPort_marshal b).
    cbn [mbind option_bind]. fold (@fmap list _ _ _ Json.marshalBlockedPort l).
    rewrite IH. reflexivity. }
  rewrite Ha, Hb. reflexivity.
Qed.

Lemma fmap_coerce_assignments (l : list Assignment) :
  Forall (fun a => Utf8.ValidString (Description a) = true
                   /\ Utf8.ValidString (Path a) = true) l ->
  (fun a => mkAssignment (Port a) (Utf8.ToValidUTF8 (Description a))
                         (Utf8.ToValidUTF8 (Path a))) <$> l = l.
Proof.
  induction 1 as [|[port d p] l [Hd Hp] Hl IH]; [reflexivity|].
  cbn [fmap list_fmap Port Description Path] in *.
  rewrite (ToValidUTF8_valid d Hd), (ToValidUTF8_valid p Hp). f_equal. exact IH.
Qed.

Lemma fmap_coerce_blockedPorts (l : list BlockedPort) :
  Forall (fun b => Utf8.ValidString (Ports b) = true
                   /\ Utf8.ValidString (BlockedDescription b) = true) l ->
  (fun b => mkBlockedPort (Utf8.ToValidUTF8 (Ports b))
                          (Utf8.ToValidUTF8 (BlockedDescription b))) <$> l = l.
Proof.
  induction 1 as [|[p d] l [Hp Hd] Hl IH]; [reflexivity|].
  cbn [fmap list_fmap Ports BlockedDescription] in *.
  rewrite (ToValidUTF8_valid d Hd), (ToValidUTF8_valid p Hp). f_equal. exact IH.
Qed.

(** [New] over a regular file that can be read: what [load] decodes. *)
Lemma New_existing (f : Os.Faults) (p : string) (w : Os.World) (c : Json.content) :
  Os.files w !! p = Some c -> Os.readFault f = false ->
  New f p w
  = (match Json.Unmarshal c with
     | inl err => inl (ErrLoad (ErrUnmarshal err))
     | inr d => inr (mkRegistry p (Assignments d) (BlockedPorts d))
     end,
     Os.record (Os.CallReadFile p) (Os.record (Os.CallStat p) w)).
Proof.
  intros Hc Hr. unfold New, Os.Stat, load, Os.ReadFile, Os.isFile.
  rewrite Hc. cbn. rewrite Hr, Hc. destruct (Json.Unmarshal c); reflexivity.
Qed.

(** A description that is not valid UTF-8 comes back changed. *)
Lemma roundtrip_counterexample :
  (Save Os.noFaults latin1Registry emptyDisk).1 = None
  /\ exists r' w',
       New Os.noFaults (path latin1Registry) (Save Os.noFaults latin1Registry emptyDisk).2
       = (inr r', w')
       /\ assignments r' <> assignments latin1Registry.
Proof.
  split; [vm_compute; reflexivity|].
  eexists. eexists. split; [vm_compute; reflexivity|].
  vm_compute. discriminate.
Qed.

(** C7, amended. A [Save] that succeeds followed by [New] over the same
    path, the file being readable, gives back the assignments and the
    blocked ports in their order with every text coerced to valid UTF-8;
    so for a registry whose descriptions, paths and rule texts are valid
    UTF-8 it gives the saved collections back: the same values in the
    same order.  The ports are Go [int]s. *)
Theorem Save_New_roundtrip (f f' : Os.Faults) (r : Registry) (w : Os.World) :
  intPorts r ->
  (Save f r w).1 = None -> Os.readFault f' = false ->
  exists r' w',
    New f' (path r) (Save f r w).2 = (inr r', w')
    /\ path r' = path r
    /\ assignments r'
       = (fun a => mkAssignment (Port a) (Utf8.ToValidUTF8 (Description a))
                                (Utf8.ToValidUTF8 (Path a))) <$> assignments r
    /\ blockedPorts r'
       = (fun b => mkBlockedPort (Utf8.ToValidUTF8 (Ports b))
                                 (Utf8.ToValidUTF8 (BlockedDescription b)))
           <$> blockedPorts r
    /\ (validText r ->
        assignments r' = assignments r /\ blockedPorts r' = blockedPorts r).
Proof.
  intros Hi Hs Hr.
  pose proof (Save_cases f r w) as (_ & _ & H).
  destruct (Save f r w) as [err w1]. simpl in Hs. subst err.
  destruct H as (Hfile & _). cbn [snd].
  rewrite (New_existing f' (path r) w1 _ Hfile Hr).
  rewrite (Unmarshal_MarshalIndent (mkRegistryData (assignments r) (blockedPorts r)) Hi).
  cbn [Assignments BlockedPorts].
  eexists. eexists. split; [reflexivity|]. cbn [path assignments blockedPorts].
  split; [reflexivity|]. split; [reflexivity|]. split; [reflexivity|].
  intros [Hva Hvb].
  rewrite (fmap_coerce_assignments _ Hva), (fmap_coerce_blockedPorts _ Hvb). auto.
Qed.

Lemma Save_New_roundtrip_witness :
  exists r' w',
    New Os.noFaults (path testRegistry) (Save Os.noFaults testRegistry emptyDisk).2
    = (inr r', w')
    /\ assignments r' = assignments testRegistry
    /\ blockedPorts r' = blockedPorts testRegistry.
Proof.
  destruct (Save_New_roundtrip Os.noFaults Os.noFaults testRegistry emptyDisk)
    as (r' & w' & HNew & _ & _ & _ & Hvalid).
  - repeat constructor.
  - vm_compute. reflexivity.
  - reflexivity.
  - exists r', w'. split; [exact HNew|]. apply Hvalid. split; repeat constructor.
Defined.

(** ** Loading a document *)

(** A key selects at most one of two field names that fold differently. *)
Lemma selects_other (key n1 n2 : string) :
  Json.foldName n1 <> Json.foldName n2 ->
  Json.selects key n1 = true -> Json.selects key n2 = false.
Proof.
  unfold Json.selects. intros Hne H1. apply String.eqb_eq in H1.
  apply String.eqb_neq. congruence.
Qed.

Lemma bind_is_Some {X T : Type} (dec : option X) (k : X -> option T) (P : Prop) :
  (forall x, is_Some (k x) <-> P) -> (is_Some (dec ≫= k) <-> is_Some dec /\ P).
Proof.
  intros Hk. destruct dec as [x|]; simpl.
  - rewrite Hk. split; [intros H; split; [eauto | exact H] | tauto].
  - split; [intros [? ?]; discriminate | intros [[? ?] _]; discriminate].
Qed.

Lemma forall_members_cons {V : Type} (Q : string -> V -> Prop)
    (key0 : string) (v0 : V) (ms : list (string * V)) :
  (forall key x, (key, x) ∈ (key0, v0) :: ms -> Q key x)
  <-> Q key0 v0 /\ (forall key x, (key, x) ∈ ms -> Q key x).
Proof.
  split.
  - intros H. split; [apply H; apply list_elem_of_here|].
    intros key x Hin. apply H. apply list_elem_of_further. exact Hin.
  - intros [H0 H] key x Hin. apply elem_of_cons in Hin as [[= -> ->]|Hin]; auto.
Qed.

Lemma decodeInt_is_Some (cur : Z) (v : Json.value) :
  is_Some (Json.decodeInt cur v) <-> fitsInt v.
Proof.
  unfold fitsInt.
  destruct v as [|b|[z|lit]|s|elems|ms]; simpl;
    try (split; [intros [? ?]; discriminate
                | intros [?|(? & ? & _)]; discriminate]).
  - split; eauto.
  - destruct (is_int z) eqn:E; unfold is_int in E.
    + split; [|eauto]. intros _. right. exists z. split; [reflexivity|lia].
    + split; [intros [? ?]; discriminate|].
      intros [?|(z' & [= <-] & Hz)]; [discriminate|]. lia.
Qed.

Lemma decodeString_is_Some (cur : string) (v : Json.value) :
  is_Some (Json.decodeString cur v) <-> fitsString v.
Proof.
  unfold fitsString.
  destruct v as [|b|n|s|elems|ms]; simpl;
    try (split; [intros [? ?]; discriminate
                | intros [?|(? & ?)]; discriminate]);
    split; eauto.
Qed.

Lemma decodeAssignmentMembers_is_Some (cur : Assignment) (ms : list (string * Json.value)) :
  is_Some (Json.decodeAssignmentMembers cur ms) <->
  forall key x, (key, x) ∈ ms ->
    (Json.selects key "port" = true -> fitsInt x)
    /\ (Json.selects key "description" = true -> fitsString x)
    /\ (Json.selects key "path" = true -> fitsString x).
Proof.
  revert cur; induction ms as [|[k v] ms IH]; intros cur.
  - split; [intros _ key x H; inversion H | intros _; simpl; eauto].
  - rewrite forall_members_cons. cbn [Json.decodeAssignmentMembers].
    destruct (Json.selects k "port") eqn:E1;
      [|destruct (Json.selects k "description") eqn:E2;
        [|destruct (Json.selects k "path") eqn:E3]].
    + rewrite (bind_is_Some _ _ _ (fun p => IH _)), decodeInt_is_Some.
      rewrite (selects_other k "port" "description" ltac:(fold_differs) E1).
      rewrite (selects_other k "port" "path" ltac:(fold_differs) E1).
      intuition discriminate.
    + rewrite (bind_is_Some _ _ _ (fun p => IH _)), decodeString_is_Some.
      rewrite (selects_other k "description" "path" ltac:(fold_differs) E2).
      intuition discriminate.
    + rewrite (bind_is_Some _ _ _ (fun p => IH _)), decodeString_is_Some.
      intuition discriminate.
    + rewrite IH. intuition discriminate.
Qed.

Lemma decodeBlockedPortMembers_is_Some (cur : BlockedPort) (ms : list (string * Json.value)) :
  is_Some (Json.decodeBlockedPortMembers cur ms) <->
  forall key x, (key, x) ∈ ms ->
    (Json.selects key "ports" = true -> fitsString x)
    /\ (Json.selects key "description" = true -> fitsString x).
Proof.
  revert cur; induction ms as [|[k v] ms IH]; intros cur.
  - split; [intros _ key x H; inversion H | intros _; simpl; eauto].
  - rewrite forall_members_cons. cbn [Json.decodeBlockedPortMembers].
    destruct (Json.selects k "ports") eqn:E1;
      [|destruct (Json.selects k "description") eqn:E2].
    + rewrite (bind_is_Some _ _ _ (fun p => IH _)), decodeString_is_Some.
      rewrite (selects_other k "ports" "description" ltac:(fold_differs) E1).
      intuition discriminate.
    + rewrite (bind_is_Some _ _ _ (fun p => IH _)), decodeString_is_Some.
      intuition discriminate.
    + rewrite IH. intuition discriminate.
Qed.

Lemma decodeAssignment_is_Some (v : Json.value) :
  is_Some (Json.decodeAssignment v) <-> fitsAssignment v.
Proof.
  unfold fitsAssignment.
  destruct v as [|b|n|s|elems|ms]; simpl;
    try (split; [intros [? ?]; discriminate
                | intros [?|(? & ? & _)]; discriminate]).
  - split; eauto.
  - rewrite decodeAssignmentMembers_is_Some. split.
    + intros H. right. exists ms. auto.
    + intros [?|(ms' & [= <-] & H)]; [discriminate|exact H].
Qed.

Lemma decodeBlockedPort_is_Some (v : Json.value) :
  is_Some (Json.decodeBlockedPort v) <-> fitsBlockedPort v.
Proof.
  unfold fitsBlockedPort.
  destruct v as [|b|n|s|elems|ms]; simpl;
    try (split; [intros [? ?]; discriminate
                | intros [?|(? & ? & _)]; discriminate]).
  - split; eauto.
  - rewrite decodeBlockedPortMembers_is_Some. split.
    + intros H. right. exists ms. auto.
    + intros [?|(ms' & [= <-] & H)]; [discriminate|exact H].
Qed.

Lemma mapM_is_Some_Forall {A B : Type} (dec : A -> option B) (fits : A -> Prop)
    (l : list A) :
  (forall x, is_Some (dec x) <-> fits x) ->
  (is_Some (mapM dec l) <-> Forall fits l).
Proof.
  intros H. rewrite mapM_is_Some.
  split; intros HF; (eapply Forall_impl; [exact HF|]); intros x; apply H.
Qed.

Lemma decodeAssignments_is_Some (v : Json.value) :
  is_Some (Json.decodeAssignments v) <-> fitsSlice fitsAssignment v.
Proof.
  unfold fitsSlice.
  destruct v as [|b|n|s|elems|ms]; simpl;
    try (split; [intros [? ?]; discriminate
                | intros [?|(? & ? & _)]; discriminate]).
  - split; eauto.
  - rewrite (mapM_is_Some_Forall _ _ _ decodeAssignment_is_Some). split.
    + intros H. right. exists elems. auto.
    + intros [?|(l & [= <-] & H)]; [discriminate|exact H].
Qed.

Lemma decodeBlockedPorts_is_Some (v : Json.value) :
  is_Some (Json.decodeBlockedPorts v) <-> fitsSlice fitsBlockedPort v.
Proof.
  unfold fitsSlice.
  destruct v as [|b|n|s|elems|ms]; simpl;
    try (split; [intros [? ?]; discriminate
                | intros [?|(? & ? & _)]; discriminate]).
  - split; eauto.
  - rewrite (mapM_is_Some_Forall _ _ _ decodeBlockedPort_is_Some). split.
    + intros H. right. exists elems. auto.
    + intros [?|(l & [= <-] & H)]; [discriminate|exact H].
Qed.

Lemma decodeDataMembers_is_Some (cur : registryData) (ms : list (string * Json.value)) :
  is_Some (Json.decodeDataMembers cur ms) <->
  forall key x, (key, x) ∈ ms ->
    (Json.selects key "assignments" = true -> fitsSlice fitsAssignment x)
    /\ (Json.selects key "blockedPorts" = true -> fitsSlice fitsBlockedPort x).
Proof.
  revert cur; induction ms as [|[k v] ms IH]; intros cur.
  - split; [intros _ key x H; inversion H | intros _; simpl; eauto].
  - rewrite forall_members_cons. cbn [Json.decodeDataMembers].
    destruct (Json.selects k "assignments") eqn:E1;
      [|destruct (Json.selects k "blockedPorts") eqn:E2].
    + rewrite (bind_is_Some _ _ _ (fun p => IH _)), decodeAssignments_is_Some.
      rewrite (selects_other k "assignments" "blockedPorts" ltac:(fold_differs) E1).
      intuition discriminate.
    + rewrite (bind_is_Some _ _ _ (fun p => IH _)), decodeBlockedPorts_is_Some.
      intuition discriminate.
    + rewrite IH. intuition discriminate.
Qed.

(** The decoder accepts exactly the values that fit the schema. *)
Lemma decodeData_is_Some (cur : registryData) (v : Json.value) :
  is_Some (Json.decodeData cur v) <-> fitsData v.
Proof.
  unfold fitsData.
  destruct v as [|b|n|s|elems|ms]; simpl;
    try (split; [intros [? ?]; discriminate
                | intros [?|(? & ? & _)]; discriminate]).
  - split; eauto.
  - rewrite decodeDataMembers_is_Some. split.
    + intros H. right. exists ms. auto.
    + intros [?|(ms' & [= <-] & H)]; [discriminate|exact H].
Qed.

(** A field that no member selects keeps the value it had. *)
Lemma decodeDataMembers_lacks (cur d : registryData) (ms : list (string * Json.value)) :
  Json.decodeDataMembers cur ms = Some d ->
  ((forall key x, (key, x) ∈ ms -> Json.selects key "assignments" = false) ->
   Assignments d = Assignments cur)
  /\ ((forall key x, (key, x) ∈ ms -> Json.selects key "blockedPorts" = false) ->
      BlockedPorts d = BlockedPorts cur).
Proof.
  revert cur; induction ms as [|[k v] ms IH]; intros cur; cbn [Json.decodeDataMembers].
  - intros [= <-]. auto.
  - rewrite !forall_members_cons.
    destruct (Json.selects k "assignments") eqn:E1;
      [|destruct (Json.selects k "blockedPorts") eqn:E2].
    + destruct (Json.decodeAssignments v) as [a|]; [|discriminate].
      cbn [mbind option_bind]. intros H. apply IH in H as [H1 H2]. cbn in *.
      split; [intros [? _]; discriminate | intros [_ Hl]; auto].
    + destruct (Json.decodeBlockedPorts v) as [b|]; [|discriminate].
      cbn [mbind option_bind]. intros H. apply IH in H as [H1 H2]. cbn in *.
      split; [intros [_ Hl]; auto | intros [? _]; discriminate].
    + intros H. apply IH in H as [H1 H2]. split; intros [_ Hl]; auto.
Qed.

Lemma Unmarshal_fits (v : Json.value) :
  fitsData v ->
  exists d, Json.Unmarshal (Json.Document v) = inr d
    /\ (lacks "assignments" v -> Assignments d = [])
    /\ (lacks "blockedPorts" v -> BlockedPorts d = []).
Proof.
  intros Hfit. apply (decodeData_is_Some (mkRegistryData [] [])) in Hfit as [d Hd].
  exists d. unfold Json.Unmarshal. rewrite Hd. split; [reflexivity|].
  destruct v as [|b|n|s|elems|ms]; try discriminate.
  - injection Hd as <-. auto.
  - cbn [Json.decodeData] in Hd. apply decodeDataMembers_lacks in Hd as [H1 H2].
    split; intros [?|(ms' & [= <-] & Hl)]; try discriminate; auto.
Qed.

(** A document without either field fits the schema. *)
Lemma lacks_fits (v : Json.value) :
  lacks "assignments" v -> lacks "blockedPorts" v -> fitsData v.
Proof.
  intros [->|(ms & -> & Ha)] Hb; [left; reflexivity|].
  destruct Hb as [?|(ms' & [= <-] & Hb)]; [discriminate|].
  right. exists ms. split; [reflexivity|]. intros key x Hin.
  rewrite (Ha key x Hin), (Hb key x Hin). split; discriminate.
Qed.

Lemma Unmarshal_misfit (v : Json.value) :
  ~ fitsData v -> Json.Unmarshal (Json.Document v) = inl Json.UnmarshalTypeError.
Proof.
  intros Hn. unfold Json.Unmarshal.
  destruct (Json.decodeData (mkRegistryData [] []) v) as [d|] eqn:E; [|reflexivity].
  destruct Hn. apply (decodeData_is_Some (mkRegistryData [] [])). eauto.
Qed.

(** C10. Over a readable file, [New] succeeds on a JSON document without
    the fields [assignments] and [blockedPorts], the document [{}] in
    particular, and on every document that fits the schema: a field that
    no member names loads as the empty collection.  It fails, and then
    with a parse error, exactly when the content is no JSON text or a
    value is of another type than the place it is decoded into: the
    value of a member that names a field, or the document, which is to
    be an object or [null]. *)
Theorem New_lenient (f : Os.Faults) (p : string) (w : Os.World) (c : Json.content) :
  Os.files w !! p = Some c -> Os.readFault f = false ->
  (c = Json.Document (Json.JObject []) -> (New f p w).1 = inr (mkRegistry p [] []))
  /\ (forall v, c = Json.Document v ->
      lacks "assignments" v -> lacks "blockedPorts" v ->
      (New f p w).1 = inr (mkRegistry p [] []))
  /\ (forall v, c = Json.Document v -> fitsData v ->
      exists r, (New f p w).1 = inr r /\ path r = p
        /\ (lacks "assignments" v -> assignments r = [])
        /\ (lacks "blockedPorts" v -> blockedPorts r = []))
  /\ (forall err, (New f p w).1 = inl err ->
      kindOf err = ParseError
      /\ ((exists raw, c = Json.Malformed raw)
          \/ exists v, c = Json.Document v /\ ~ fitsData v))
  /\ ((exists raw, c = Json.Malformed raw) -> exists err, (New f p w).1 = inl err)
  /\ (forall v, c = Json.Document v -> ~ fitsData v -> exists err, (New f p w).1 = inl err).
Proof.
  intros Hc Hr. rewrite (New_existing f p w c Hc Hr). cbn [fst].
  split; [|split; [|split; [|split; [|split]]]].
  - intros ->. reflexivity.
  - intros v -> Ha Hb.
    destruct (Unmarshal_fits v (lacks_fits v Ha Hb)) as (d & -> & H1 & H2).
    rewrite (H1 Ha), (H2 Hb). reflexivity.
  - intros v -> Hfit. destruct (Unmarshal_fits v Hfit) as (d & -> & H1 & H2).
    eexists. split; [reflexivity|]. cbn. auto.
  - intros err Herr. destruct c as [v|raw].
    + destruct (Json.Unmarshal (Json.Document v)) as [e|d] eqn:E; [|discriminate].
      injection Herr as <-. split; [reflexivity|]. right. exists v. split; [reflexivity|].
      intros Hfit. destruct (Unmarshal_fits v Hfit) as (d & Hd & _). congruence.
    + cbn in Herr. injection Herr as <-. split; [reflexivity|]. left. eauto.
  - intros [raw ->]. cbn. eauto.
  - intros v -> Hn. rewrite (Unmarshal_misfit v Hn). eauto.
Qed.

Lemma New_lenient_witness :
  (New Os.noFaults homeFile emptyObjectDisk).1 = inr (mkRegistry homeFile [] []).
Proof.
  apply (proj1 (New_lenient Os.noFaults homeFile emptyObjectDisk
                  (Json.Document (Json.JObject [])) eq_refl eq_refl)).
  reflexivity.
Defined.

(** A member of the wrong type is a parse error; an absent one is not. *)
Example New_documents :
  let disk v := Os.mkWorld {[ homeFile := Json.Document v ]} ∅ [] in
  (New Os.noFaults homeFile (disk (Json.JObject [("assignments"%string, Json.JNumber (Json.Int 5))]))).1
  = inl (ErrLoad (ErrUnmarshal Json.UnmarshalTypeError))
  /\ (New Os.noFaults homeFile
        (disk (Json.JObject [("Assignments"%string, Json.JArray
           [Json.JObject [("port"%string, Json.JNumber (Json.Real "3100.5"))]])]))).1
     = inl (ErrLoad (ErrUnmarshal Json.UnmarshalTypeError))
  /\ (New Os.noFaults homeFile
        (disk (Json.JObject [("blockedPorts"%string, Json.JArray
           [Json.JObject [("ports"%string, Json.JString "9000-9010");
                          ("note"%string, Json.JBool true)]])]))).1
     = inr (mkRegistry homeFile [] [mkBlockedPort "9000-9010" EmptyString])
  /\ (New Os.noFaults homeFile
        (Os.mkWorld {[ homeFile := Json.Malformed "{" ]} ∅ [])).1
     = inl (ErrLoad (ErrUnmarshal Json.SyntaxError)).
Proof. repeat split; vm_compute; reflexivity. Qed.

(** ** The tests of the package *)

(** [TestAssignPort]: an available port is assigned; the second
    assignment of a port fails with the description of the first; a port
    in a blocked range fails. *)
Example AssignPort_tests :
  (let '(err, r, _) := AssignPort Os.noFaults 8000 "test project" "/path/to/project"
                         (mkRegistry homeFile [] []) emptyDisk in
   (err, assignments r))
  = (None, [mkAssignment 8000 "test project" "/path/to/project"])
  /\ (AssignPort Os.noFaults 8000 "project2" EmptyString
        (mkRegistry homeFile [mkAssignment 8000 "project1" EmptyString] []) emptyDisk).1.1
     = Some (ErrPortAlreadyAssigned 8000 "project1")
  /\ (AssignPort Os.noFaults 3005 "project" EmptyString
        (mkRegistry homeFile [] [mkBlockedPort "3000-3010" EmptyString]) emptyDisk).1.1
     = Some (ErrPortBlocked 3005)
  /\ (AssignPort Os.noFaults 3005 "project" EmptyString
        (mkRegistry homeFile [mkAssignment 3005 "first" EmptyString]
           [mkBlockedPort "3000-3010" EmptyString]) emptyDisk).1.1
     = Some (ErrPortAlreadyAssigned 3005 "first").
Proof. repeat split; vm_compute; reflexivity. Qed.

(** [TestUnassignPort]. *)
Example UnassignPort_tests :
  (let '(err, r, _) := UnassignPort Os.noFaults 8000
                         (mkRegistry homeFile
                            [mkAssignment 8000 "project1" EmptyString; mkAssignment 8001 "project2" EmptyString]
                            []) emptyDisk in
   (err, assignments r))
  = (None, [mkAssignment 8001 "project2" EmptyString])
  /\ (UnassignPort Os.noFaults 8000 (mkRegistry homeFile [] []) emptyDisk).1.1
     = Some (ErrPortNotAssigned 8000).
Proof. repeat split; vm_compute; reflexivity. Qed.

(** [TestIsPortAvailable]. *)
Example IsPortAvailable_table :
  map (IsPortAvailable
         (mkRegistry homeFile [mkAssignment 8000 EmptyString EmptyString] [mkBlockedPort "9000-9010" EmptyString]))
      [7999; 8000; 9005; 9011]
  = [true; false; false; true].
Proof. reflexivity. Qed.

(** [TestSaveAndLoad], "handles missing directory": the directory of the
    target is made, with the one above it. *)
Example Save_missing_directory :
  let r := mkRegistry "/var/registry/dev/test.json" [mkAssignment 8000 EmptyString EmptyString] [] in
  let w := Os.mkWorld ∅ {[ "/var"%string ]} [] in
  (Save Os.noFaults r w).1 = None
  /\ Os.isDir (Save Os.noFaults r w).2 "/var/registry/dev" = true
  /\ Os.isDir (Save Os.noFaults r w).2 "/var/registry" = true
  /\ Os.isDir w "/var/registry" = false
  /\ Os.isFile (Save Os.noFaults r w).2 "/var/registry/dev/test.json" = true.
Proof. repeat split; vm_compute; reflexivity. Qed.

(** A torn write of the temporary file and a failed rename both leave the
    file of an earlier [Save] as it was. *)
Example Save_failures :
  let w1 := (Save Os.noFaults testRegistry emptyDisk).2 in
  let r := mkRegistry homeFile [] [] in
  (Save writeFails r w1).1 = Some (ErrWriteTemporary Os.EIO)
  /\ Os.files (Save writeFails r w1).2 !! homeFile = Os.files w1 !! homeFile
  /\ (Save renameFails r w1).1 = Some (ErrSave Os.EIO)
  /\ Os.files (Save renameFails r w1).2 = Os.files w1
  /\ (Save mkdirFails r w1).1 = Some (ErrCreateDirectory Os.EIO)
  /\ Os.files (Save mkdirFails r w1).2 = Os.files w1.
Proof. repeat split; vm_compute; reflexivity. Qed.

(** * Further properties of the registry *)

(** ** Availability and assignment *)

Lemma assignedLoop_app (l1 l2 : list Assignment) (port : Z) :
  assignedLoop (l1 ++ l2) port
  = match assignedLoop l1 port with
    | Some a => Some a
    | None => assignedLoop l2 port
    end.
Proof.
  induction l1 as [|a l1 IH]; simpl; [reflexivity|].
  destruct (Port a =? port); [reflexivity | exact IH].
Qed.

Lemma assignedLoop_filter (l : list Assignment) (port q : Z) :
  assignedLoop (List.filter (fun a => negb (Port a =? port)) l) q
  = if q =? port then None else assignedLoop l q.
Proof.
  induction l as [|a l IH]; simpl; [destruct (q =? port); reflexivity|].
  destruct (Z.eqb_spec (Port a) port) as [E|E]; simpl.
  - rewrite IH. destruct (Z.eqb_spec q port) as [E'|E']; [reflexivity|].
    destruct (Z.eqb_spec (Port a) q); [congruence | reflexivity].
  - destruct (Z.eqb_spec (Port a) q) as [E1|E1].
    + destruct (Z.eqb_spec q port); [congruence | reflexivity].
    + exact IH.
Qed.

(** What a nil error of [AssignPort] tells. *)
Lemma AssignPort_nil (f : Os.Faults) (port : Z) (description path_ : string)
    (r : Registry) (w : Os.World) :
  (AssignPort f port description path_ r w).1.1 = None ->
  let r' := mkRegistry (path r)
              (assignments r ++ [mkAssignment port description path_])
              (blockedPorts r) in
  assignedLoop (assignments r) port = None
  /\ isPortBlocked r port = false
  /\ (Save f r' w).1 = None
  /\ AssignPort f port description path_ r w = (None, r', (Save f r' w).2).
Proof.
  unfold AssignPort.
  destruct (assignedLoop (assignments r) port) eqn:Ea; [discriminate|].
  destruct (isPortBlocked r port) eqn:Eb; [discriminate|].
  destruct (Save f _ w) as [err w'] eqn:Es. simpl. intros ->. auto.
Qed.

(** X1. [IsPortAvailable] is the condition under which [AssignPort]
    goes on to append and save: on an available port the outcome is that
    of [Save] on the extended registry, on any other port [AssignPort]
    fails as already assigned or blocked and touches nothing. *)
Theorem IsPortAvailable_guards_AssignPort (f : Os.Faults) (port : Z)
    (description path_ : string) (r : Registry) (w : Os.World) :
  (IsPortAvailable r port = true ->
   let r' := mkRegistry (path r)
               (assignments r ++ [mkAssignment port description path_])
               (blockedPorts r) in
   AssignPort f port description path_ r w = ((Save f r' w).1, r', (Save f r' w).2))
  /\ (IsPortAvailable r port = false ->
      exists err,
        AssignPort f port description path_ r w = (Some err, r, w)
        /\ (kindOf err = PortAlreadyAssigned \/ kindOf err = PortBlocked))
  /\ (forall err, (AssignPort f port description path_ r w).1.1 = Some err ->
      kindOf err = PortAlreadyAssigned \/ kindOf err = PortBlocked ->
      IsPortAvailable r port = false).
Proof.
  unfold IsPortAvailable, AssignPort. split; [|split].
  - destruct (assignedLoop (assignments r) port); [discriminate|].
    rewrite negb_true_iff. intros ->. cbv zeta. destruct (Save f _ w); reflexivity.
  - destruct (assignedLoop (assignments r) port) as [a|].
    + intros _. eexists. split; [reflexivity|]. left. reflexivity.
    + rewrite negb_false_iff. intros ->. eexists. split; [reflexivity|]. right. reflexivity.
  - destruct (assignedLoop (assignments r) port) as [a|]; [reflexivity|].
    destruct (isPortBlocked r port); [reflexivity|].
    pose proof (Save_IOError f (mkRegistry (path r)
      (assignments r ++ [mkAssignment port description path_]) (blockedPorts r)) w) as Hk.
    destruct (Save f _ w) as [e w']. simpl in *. intros err ->.
    specialize (Hk err eq_refl). rewrite Hk. intros [?|?]; discriminate.
Qed.

(** X2. After an [AssignPort] that returns nil the port was free before,
    [ListAssignments] ends with the new assignment, the port is no longer
    available while every other port is as available as before, a second
    [AssignPort] of the port fails with the description just given, and
    the registry file holds the new state. *)
Theorem AssignPort_then (f : Os.Faults) (port : Z) (description path_ : string)
    (r : Registry) (w : Os.World) :
  (AssignPort f port description path_ r w).1.1 = None ->
  let r' := (AssignPort f port description path_ r w).1.2 in
  let w' := (AssignPort f port description path_ r w).2 in
  (port ∉ ports r)
  /\ ListAssignments r' = ListAssignments r ++ [mkAssignment port description path_]
  /\ IsPortAvailable r' port = false
  /\ (forall q, q <> port -> IsPortAvailable r' q = IsPortAvailable r q)
  /\ (forall f2 d2 p2 w2,
        AssignPort f2 port d2 p2 r' w2
        = (Some (ErrPortAlreadyAssigned port description), r', w2))
  /\ Os.files w' !! path r
     = Some (Json.MarshalIndent (mkRegistryData (assignments r') (blockedPorts r'))).
Proof.
  intros H. destruct (AssignPort_nil _ _ _ _ _ _ H) as (Ha & Hb & Hs & ->).
  cbn [fst snd]. unfold ListAssignments. cbn [assignments blockedPorts path].
  assert (Hloop : forall q, assignedLoop
            (assignments r ++ [mkAssignment port description path_]) q
            = if q =? port then
                match assignedLoop (assignments r) q with
                | Some a => Some a
                | None => Some (mkAssignment port description path_)
                end
              else assignedLoop (assignments r) q).
  { intros q. rewrite assignedLoop_app. simpl. rewrite (Z.eqb_sym port q).
    destruct (assignedLoop (assignments r) q), (q =? port); reflexivity. }
  split; [apply assignedLoop_None; exact Ha|]. split; [reflexivity|].
  split; [|split; [|split]].
  - unfold IsPortAvailable. cbn [assignments]. rewrite Hloop, Z.eqb_refl, Ha. reflexivity.
  - intros q Hq. unfold IsPortAvailable, isPortBlocked. cbn [assignments blockedPorts].
    rewrite Hloop. apply Z.eqb_neq in Hq. rewrite Hq. reflexivity.
  - intros f2 d2 p2 w2. unfold AssignPort. cbn [assignments].
    rewrite Hloop, Z.eqb_refl, Ha. reflexivity.
  - pose proof (Save_cases f (mkRegistry (path r)
      (assignments r ++ [mkAssignment port description path_]) (blockedPorts r)) w)
      as (_ & _ & Hc).
    destruct (Save f _ w) as [e w1]. simpl in Hs. subst e. cbn [snd].
    destruct Hc as (Hfile & _). exact Hfile.
Qed.

Lemma AssignPort_then_witness :
  ListAssignments (AssignPort Os.noFaults 8001 "api" EmptyString
                     (mkRegistry homeFile [web] []) emptyDisk).1.2
  = ListAssignments (mkRegistry homeFile [web] []) ++ [mkAssignment 8001 "api" EmptyString].
Proof.
  apply (AssignPort_then Os.noFaults 8001 "api" EmptyString
           (mkRegistry homeFile [web] []) emptyDisk).
  vm_compute. reflexivity.
Defined.

Lemma filter_port_absent (l : list Assignment) (port : Z) :
  assignedLoop l port = None ->
  List.filter (fun a => negb (Port a =? port)) l = l.
Proof.
  induction l as [|a l IH]; simpl; [reflexivity|].
  destruct (Port a =? port); [discriminate|]. simpl. intros H. f_equal. exact (IH H).
Qed.

(** X3. [UnassignPort] undoes [AssignPort]: after an [AssignPort] that
    returned nil, [UnassignPort] of the same port finds it, gives the
    assignments back as they were before, in the same order, and saves
    that registry. *)
Theorem AssignPort_UnassignPort (f f2 : Os.Faults) (port : Z)
    (description path_ : string) (r r1 : Registry) (w w1 : Os.World) :
  AssignPort f port description path_ r w = (None, r1, w1) ->
  UnassignPort f2 port r1 w1 = ((Save f2 r w1).1, r, (Save f2 r w1).2)
  /\ ((Save f2 r w1).1 = None ->
      Os.files (Save f2 r w1).2 !! path r
      = Some (Json.MarshalIndent (mkRegistryData (assignments r) (blockedPorts r)))).
Proof.
  intros H.
  assert (Hnil : (AssignPort f port description path_ r w).1.1 = None) by (rewrite H; reflexivity).
  destruct (AssignPort_nil _ _ _ _ _ _ Hnil) as (Ha & Hb & Hs & Heq).
  rewrite Heq in H. injection H as <- <-.
  split.
  - unfold UnassignPort. rewrite unassign_loop. cbn [assignments path blockedPorts].
    rewrite existsb_app, List.filter_app. simpl. rewrite Z.eqb_refl, orb_true_r. simpl.
    rewrite app_nil_r, (filter_port_absent _ _ Ha).
    destruct r as [p asgs bps]. cbn [path assignments blockedPorts].
    destruct (Save f2 _ _); reflexivity.
  - intros Hs2. pose proof (Save_cases f2 r (Save f
      (mkRegistry (path r) (assignments r ++ [mkAssignment port description path_])
         (blockedPorts r)) w).2) as (_ & _ & Hc).
    destruct (Save f2 r _) as [e w2]. simpl in Hs2. subst e. cbn [snd].
    destruct Hc as (Hfile & _). exact Hfile.
Qed.

Lemma AssignPort_UnassignPort_witness :
  UnassignPort Os.noFaults 8001 (mkRegistry homeFile [web; api] [])
    (Save Os.noFaults (mkRegistry homeFile [web; api] []) emptyDisk).2
  = ((Save Os.noFaults (mkRegistry homeFile [web] [])
        (Save Os.noFaults (mkRegistry homeFile [web; api] []) emptyDisk).2).1,
     mkRegistry homeFile [web] [],
     (Save Os.noFaults (mkRegistry homeFile [web] [])
        (Save Os.noFaults (mkRegistry homeFile [web; api] []) emptyDisk).2).2).
Proof.
  apply (AssignPort_UnassignPort Os.noFaults Os.noFaults 8001 "api" EmptyString
           (mkRegistry homeFile [web] []) _ emptyDisk _).
  vm_compute. reflexivity.
Defined.

(** X4. After [UnassignPort] of an assigned port, whether its [Save]
    succeeds or not, no assignment has the port, the port is available
    unless a rule blocks it, every other port is as available as before,
    the collection is shorter, and a second [UnassignPort] of the port
    fails with [ErrPortNotAssigned]. *)
Theorem UnassignPort_then (f : Os.Faults) (port : Z) (r : Registry) (w : Os.World) :
  port ∈ ports r ->
  let r' := (UnassignPort f port r w).1.2 in
  (port ∉ ports r')
  /\ IsPortAvailable r' port = negb (isPortBlocked r port)
  /\ (forall q, q <> port -> IsPortAvailable r' q = IsPortAvailable r q)
  /\ (length (ListAssignments r') < length (ListAssignments r))%nat
  /\ (forall f2 w2,
        UnassignPort f2 port r' w2 = (Some (ErrPortNotAssigned port), r', w2)).
Proof.
  intros Hin. unfold UnassignPort. rewrite unassign_loop. simpl.
  pose proof Hin as Hex. apply existsb_port in Hex. rewrite Hex. simpl.
  destruct (Save f _ w) as [e w1]. cbn [fst snd].
  set (kept := List.filter (fun a => negb (Port a =? port)) (assignments r)).
  assert (Hk : assignedLoop kept port = None).
  { subst kept. rewrite assignedLoop_filter, Z.eqb_refl. reflexivity. }
  split; [apply assignedLoop_None; exact Hk|]. split; [|split; [|split]].
  - unfold IsPortAvailable. cbn [assignments]. rewrite Hk. reflexivity.
  - intros q Hq. unfold IsPortAvailable, isPortBlocked. cbn [assignments blockedPorts].
    subst kept. rewrite assignedLoop_filter. apply Z.eqb_neq in Hq. rewrite Hq. reflexivity.
  - unfold ListAssignments. cbn [assignments]. subst kept.
    clear - Hex. induction (assignments r) as [|a l IH]; simpl in *; [discriminate|].
    destruct (Port a =? port); simpl in *.
    + pose proof (List.filter_length_le (fun a => negb (Port a =? port)) l). lia.
    + specialize (IH Hex). lia.
  - intros f2 w2. rewrite unassign_loop. cbn [assignments]. simpl.
    destruct (existsb (fun a => Port a =? port) kept) eqn:E; [|reflexivity].
    apply existsb_port, assignedLoop_None in E; [destruct E | exact Hk].
Qed.

Lemma UnassignPort_then_witness :
  IsPortAvailable (UnassignPort renameFails 8000
                     (mkRegistry homeFile [web; api] []) emptyDisk).1.2 8000
  = negb (isPortBlocked (mkRegistry homeFile [web; api] []) 8000).
Proof.
  apply (UnassignPort_then renameFails 8000 (mkRegistry homeFile [web; api] []) emptyDisk).
  apply list_elem_of_here.
Defined.

(** X5. Whether a port is blocked depends on the set of rules only, not
    on their order or repetition; rules that are added never unblock a
    port, and a registry without rules blocks nothing. *)
Theorem isPortBlocked_rules (r r' : Registry) (port : Z) :
  ((forall bp, bp ∈ blockedPorts r <-> bp ∈ blockedPorts r') ->
   isPortBlocked r port = isPortBlocked r' port)
  /\ ((forall bp, bp ∈ blockedPorts r -> bp ∈ blockedPorts r') ->
      isPortBlocked r port = true -> isPortBlocked r' port = true)
  /\ (blockedPorts r = [] -> isPortBlocked r port = false)
  /\ (isPortBlocked r port = true <->
      exists bp, bp ∈ blockedPorts r /\ isPortInRange port (Ports bp) = true).
Proof.
  unfold isPortBlocked.
  assert (Hmono : forall l l' : list BlockedPort,
             (forall bp, bp ∈ l -> bp ∈ l') ->
             blockedLoop l port = true -> blockedLoop l' port = true).
  { intros l l' Hsub H. apply blockedLoop_true in H as (bp & Hin & Hm).
    apply blockedLoop_true. exists bp. auto. }
  split; [|split; [|split]].
  - intros Hset.
    destruct (blockedLoop (blockedPorts r) port) eqn:E1,
             (blockedLoop (blockedPorts r') port) eqn:E2; try reflexivity.
    + rewrite (Hmono (blockedPorts r) (blockedPorts r')) in E2; [discriminate| |exact E1].
      intros bp. apply Hset.
    + rewrite (Hmono (blockedPorts r') (blockedPorts r)) in E1; [discriminate| |exact E2].
      intros bp. apply Hset.
  - apply Hmono.
  - intros ->. reflexivity.
  - apply blockedLoop_true.
Qed.

(** ** Consecutive automatic assignments *)

Lemma IsPortAvailable_snoc (p : string) (l : list Assignment) (a : Assignment)
    (bps : list BlockedPort) (q : Z) :
  IsPortAvailable (mkRegistry p (l ++ [a]) bps) q
  = if q =? Port a then false else IsPortAvailable (mkRegistry p l bps) q.
Proof.
  unfold IsPortAvailable, isPortBlocked. cbn [assignments blockedPorts].
  rewrite assignedLoop_app. simpl. rewrite (Z.eqb_sym (Port a) q).
  destruct (assignedLoop l q), (q =? Port a); reflexivity.
Qed.

(** What a nil error of [AssignNextAvailable] tells. *)
Lemma AssignNextAvailable_nil (f : Os.Faults) (description path_ : string)
    (r r1 : Registry) (w w1 : Os.World) (q : Z) :
  AssignNextAvailable f description path_ r w = ((q, None), r1, w1) ->
  3100 <= q <= 65535
  /\ IsPortAvailable r q = true
  /\ (forall q', 3100 <= q' < q -> IsPortAvailable r q' = false)
  /\ r1 = mkRegistry (path r) (assignments r ++ [mkAssignment q description path_])
            (blockedPorts r).
Proof.
  unfold AssignNextAvailable.
  destruct (findNextAvailablePort_spec r) as [[H1 H2]|(H1 & H2 & H3)].
  - rewrite H1. simpl. discriminate.
  - unfold startPort, maxPort in *.
    destruct (findNextAvailablePort r =? -1) eqn:Eq; [lia|].
    destruct (AssignPort f (findNextAvailablePort r) description path_ r w)
      as [[[err|] r'] w'] eqn:Ea; [discriminate|].
    intros [= <- <- <-].
    assert (Hnil : (AssignPort f (findNextAvailablePort r) description path_ r w).1.1 = None)
      by (rewrite Ea; reflexivity).
    destruct (AssignPort_nil _ _ _ _ _ _ Hnil) as (_ & _ & _ & Heq).
    rewrite Heq in Ea. injection Ea as <- _. auto.
Qed.

(** X6. Two [AssignNextAvailable] in a row that both return nil give
    increasing ports of 3100..65535: the second is the first port above
    the first that was available before, and [ListAssignments] ends with
    the two assignments in the order of the calls. *)
Theorem AssignNextAvailable_twice (f f2 : Os.Faults) (d d2 p p2 : string)
    (r r1 r2 : Registry) (w w1 w1' w2 : Os.World) (q1 q2 : Z) :
  AssignNextAvailable f d p r w = ((q1, None), r1, w1) ->
  AssignNextAvailable f2 d2 p2 r1 w1' = ((q2, None), r2, w2) ->
  3100 <= q1 /\ q1 < q2 /\ q2 <= 65535
  /\ IsPortAvailable r q2 = true
  /\ (forall q, q1 < q < q2 -> IsPortAvailable r q = false)
  /\ ListAssignments r2
     = ListAssignments r ++ [mkAssignment q1 d p; mkAssignment q2 d2 p2].
Proof.
  intros H1 H2.
  apply AssignNextAvailable_nil in H1 as (Hq1 & Ha1 & Hf1 & ->).
  apply AssignNextAvailable_nil in H2 as (Hq2 & Ha2 & Hf2 & ->).
  cbn [path assignments blockedPorts] in *.
  assert (Hsn : forall q, IsPortAvailable
            (mkRegistry (path r) (assignments r ++ [mkAssignment q1 d p]) (blockedPorts r)) q
            = if q =? q1 then false else IsPortAvailable r q).
  { intros q. rewrite IsPortAvailable_snoc. destruct r; reflexivity. }
  rewrite Hsn in Ha2. destruct (Z.eqb_spec q2 q1) as [E|E]; [discriminate|].
  assert (Hlt : q1 < q2).
  { destruct (Z.lt_ge_cases q2 q1) as [Hlt|Hge]; [|lia].
    rewrite (Hf1 q2) in Ha2; [discriminate | lia]. }
  split; [lia|]. split; [exact Hlt|]. split; [lia|]. split; [exact Ha2|].
  split.
  - intros q Hq. specialize (Hf2 q ltac:(lia)). rewrite Hsn in Hf2.
    destruct (Z.eqb_spec q q1); [lia | exact Hf2].
  - unfold ListAssignments. cbn [assignments]. rewrite <- app_assoc. reflexivity.
Qed.

Lemma AssignNextAvailable_twice_witness :
  3100 <= 3100 /\ 3100 < 3106 /\ 3106 <= 65535
  /\ IsPortAvailable gapRegistry 3106 = true
  /\ (forall q, 3100 < q < 3106 -> IsPortAvailable gapRegistry q = false)
  /\ ListAssignments secondAuto.1.2
     = ListAssignments gapRegistry
       ++ [mkAssignment 3100 "a" "/a"; mkAssignment 3106 "b" "/b"].
Proof.
  apply (AssignNextAvailable_twice Os.noFaults Os.noFaults "a" "b" "/a" "/b"
           gapRegistry firstAuto.1.2 secondAuto.1.2
           emptyDisk firstAuto.2 firstAuto.2 secondAuto.2 3100 3106).
  - vm_compute. reflexivity.
  - vm_compute. reflexivity.
Defined.

(** ** Saving again, and reading *)

Lemma mkdirs_all_dirs (budget : option nat) (names : list string) (w : Os.World) :
  (forall d, d ∈ names -> Os.isDir w d = true) ->
  Os.mkdirs budget names w = (None, w).
Proof.
  induction names as [|name names IH]; intros H; simpl; [reflexivity|].
  rewrite (H name (list_elem_of_here _ _)). apply IH.
  intros d Hd. apply H. apply list_elem_of_further. exact Hd.
Qed.

(** What a nil error of [Save] tells about the file system it leaves. *)
Lemma Save_nil (f : Os.Faults) (r : Registry) (w w' : Os.World) :
  Save f r w = (None, w') ->
  Os.isDir w' (path r +:+ ".tmp") = false /\ Os.isDir w' (path r) = false.
Proof.
  unfold Save.
  destruct (Os.MkdirAll f (Filepath.Dir (path r)) w) as [[e1|] w1]; [discriminate|].
  unfold Os.WriteFile.
  destruct (Os.writeFault_ f); [|discriminate|discriminate].
  destruct (negb (Os.isDir (Os.record _ w1) (Filepath.Dir (path r +:+ ".tmp"))));
    [discriminate|].
  rewrite isDir_record.
  destruct (Os.isDir w1 (path r +:+ ".tmp")) eqn:Etmp; [discriminate|].
  unfold Os.Rename. cbn [fst snd].
  destruct (Os.renameFault f); [no_nil|].
  destruct (Os.files _ !! (path r +:+ ".tmp")%string); [|no_nil].
  destruct (negb _); [no_nil|].
  repeat (rewrite isDir_record || rewrite isDir_files).
  destruct (Os.isDir w1 (path r)) eqn:Et; [no_nil|].
  intros [= <-]. repeat (rewrite isDir_record || rewrite isDir_files). auto.
Qed.

(** X7. Saving again changes nothing: after a [Save] that returned nil,
    a further [Save] of the same registry in an environment without
    failures returns nil and leaves every file and every directory as it
    is; under any environment the registry file keeps its content. *)
Theorem Save_again (f : Os.Faults) (r : Registry) (w w1 : Os.World) :
  Save f r w = (None, w1) ->
  (exists w2, Save Os.noFaults r w1 = (None, w2)
              /\ Os.files w2 = Os.files w1 /\ Os.dirs w2 = Os.dirs w1)
  /\ (forall f2, Os.files (Save f2 r w1).2 !! path r = Os.files w1 !! path r).
Proof.
  intros H.
  pose proof (Save_nil f r w w1 H) as (Htmp & Htarget).
  pose proof (Save_cases f r w) as (Hdt & _ & Hc). rewrite H in Hc.
  destruct Hc as (Hfile & Hnotmp & Hanc & Hdir & _).
  split.
  - unfold Save, Os.MkdirAll. cbn [Os.mkdirFault Os.noFaults].
    rewrite mkdirs_all_dirs by (intros d Hd; rewrite isDir_record; apply Hanc; exact Hd).
    unfold Os.WriteFile. cbn [Os.writeFault_ Os.noFaults].
    repeat (rewrite isDir_record || rewrite isDir_files). rewrite Hdt, Hdir, Htmp. cbn [negb].
    unfold Os.Rename. cbn [Os.renameFault Os.noFaults Os.files Os.record Os.dirs Os.trace].
    rewrite lookup_insert_eq.
    repeat (rewrite isDir_record || rewrite isDir_files). rewrite Hdir, Htarget. cbn [negb].
    eexists. split; [reflexivity|]. cbn [Os.files Os.dirs]. split; [|reflexivity].
    apply map_eq. intros name.
    destruct (decide (name = path r)) as [->|Hn1].
    + rewrite lookup_insert_eq. symmetry. exact Hfile.
    + rewrite lookup_insert_ne by congruence.
      destruct (decide (name = (path r +:+ ".tmp")%string)) as [->|Hn2].
      * rewrite lookup_delete_eq. symmetry. exact Hnotmp.
      * rewrite lookup_delete_ne, lookup_insert_ne by congruence. reflexivity.
  - intros f2. pose proof (Save_cases f2 r w1) as (_ & _ & Hc).
    destruct (Save f2 r w1) as [[e|] w2]; cbn [snd].
    + destruct Hc as (Hsame & _). exact Hsame.
    + destruct Hc as (Hnew & _). rewrite Hnew, Hfile. reflexivity.
Qed.

Lemma Save_again_witness :
  exists w2, Save Os.noFaults testRegistry (Save Os.noFaults testRegistry emptyDisk).2
             = (None, w2)
             /\ Os.files w2 = Os.files (Save Os.noFaults testRegistry emptyDisk).2
             /\ Os.dirs w2 = Os.dirs (Save Os.noFaults testRegistry emptyDisk).2.
Proof.
  apply (Save_again Os.noFaults testRegistry emptyDisk).
  vm_compute. reflexivity.
Defined.

(** X8. [New] only reads: it leaves every file and directory as it is,
    calling [os.Stat] and, where something exists at the path,
    [os.ReadFile]; where nothing exists it returns the empty registry
    whatever the environment; a registry it returns has the path asked
    for, and an error it returns is a read or a parse error of [load]. *)
Theorem New_reads_only (f : Os.Faults) (p : string) (w : Os.World) :
  let found := (Os.Stat p w).1 in
  Os.files (New f p w).2 = Os.files w
  /\ Os.dirs (New f p w).2 = Os.dirs w
  /\ Os.trace (New f p w).2
     = Os.trace w ++ (if found then [Os.CallStat p; Os.CallReadFile p] else [Os.CallStat p])
  /\ (found = false -> (New f p w).1 = inr (mkRegistry p [] []))
  /\ (forall r, (New f p w).1 = inr r -> path r = p)
  /\ (forall err, (New f p w).1 = inl err ->
      found = true
      /\ ((exists e, err = ErrLoad (ErrRead e)) \/ (exists e, err = ErrLoad (ErrUnmarshal e)))
      /\ (kindOf err = IOError \/ kindOf err = ParseError)).
Proof.
  assert (Hfin : forall (found : bool) (res : error + Registry) (calls : list Os.call),
    (found = false -> res = inr (mkRegistry p [] [])) ->
    (forall r, res = inr r -> path r = p) ->
    (forall err, res = inl err ->
       found = true
       /\ ((exists e, err = ErrLoad (ErrRead e)) \/ (exists e, err = ErrLoad (ErrUnmarshal e)))
       /\ (kindOf err = IOError \/ kindOf err = ParseError)) ->
    Os.files w = Os.files w /\ Os.dirs w = Os.dirs w
    /\ Os.trace w ++ calls = Os.trace w ++ calls
    /\ (found = false -> res = inr (mkRegistry p [] []))
    /\ (forall r, res = inr r -> path r = p)
    /\ (forall err, res = inl err ->
       found = true
       /\ ((exists e, err = ErrLoad (ErrRead e)) \/ (exists e, err = ErrLoad (ErrUnmarshal e)))
       /\ (kindOf err = IOError \/ kindOf err = ParseError))) by (intros; tauto).
  unfold New, Os.Stat. cbn [fst snd].
  destruct (Os.isFile w p || Os.isDir w p) eqn:Efound.
  - unfold load, Os.ReadFile.
    destruct (Os.readFault f).
    { cbn. rewrite <- List.app_assoc. apply Hfin; [discriminate|discriminate|].
      intros err [= <-]. eauto 6. }
    cbn [path Os.files Os.record]. destruct (Os.files w !! p) as [data|].
    + destruct (Json.Unmarshal data) as [e|d]; cbn; rewrite <- List.app_assoc; apply Hfin;
        try discriminate.
      * intros err [= <-]. eauto 6.
      * intros r [= <-]. reflexivity.
    + cbn. rewrite <- List.app_assoc. apply Hfin; [discriminate|discriminate|].
      intros err [= <-]. eauto 6.
  - cbn. apply Hfin; [reflexivity| |discriminate]. intros r [= <-]. reflexivity.
Qed.

(** ** After [Init] *)

Lemma defaultBlockedPorts_valid :
  Forall (fun b => Utf8.ValidString (Ports b) = true
                   /\ Utf8.ValidString (BlockedDescription b) = true)
         defaultBlockedPorts.
Proof. repeat constructor. Qed.

(** X9. After an [Init] that returned nil the registry has no
    assignment and the five default rules; a further [Init] on the same
    path, from any registry, fails as already existing and leaves the
    files alone; [New] on the path loads that registry back; the ports
    the registry refuses are the five defaults, and the next available
    port is 3100. *)
Theorem Init_then (f : Os.Faults) (r r' : Registry) (w w' : Os.World) :
  Init f r w = (None, r', w') ->
  r' = mkRegistry (path r) [] defaultBlockedPorts
  /\ (forall f2 r2, path r2 = path r ->
      (Init f2 r2 w').1 = (Some (ErrAlreadyExists (path r)), r2)
      /\ Os.files (Init f2 r2 w').2 = Os.files w')
  /\ (forall f2, Os.readFault f2 = false -> (New f2 (path r) w').1 = inr r')
  /\ (forall q, IsPortAvailable r' q = false <-> q ∈ [3306; 5432; 6379; 8080; 27017])
  /\ findNextAvailablePort r' = 3100.
Proof.
  unfold Init. destruct (Os.Stat (path r) w) as [[|] w0]; [discriminate|].
  pose proof (Save_cases f (mkRegistry (path r) [] defaultBlockedPorts) w0) as (_ & _ & Hc).
  cbn [path assignments blockedPorts] in *.
  destruct (Save f _ w0) as [[e|] w1]; [discriminate|].
  intros [= <- <-]. destruct Hc as (Hfile & _).
  split; [reflexivity|]. split; [|split; [|split]].
  - intros f2 r2 Hp. unfold Os.Stat, Os.isFile. rewrite Hp, Hfile. cbn. auto.
  - intros f2 Hr. rewrite (New_existing f2 (path r) w1 _ Hfile Hr). cbn [fst].
    rewrite (Unmarshal_MarshalIndent (mkRegistryData [] defaultBlockedPorts)
               (List.Forall_nil _)).
    cbn [Assignments BlockedPorts].
    rewrite (fmap_coerce_blockedPorts _ defaultBlockedPorts_valid). reflexivity.
  - intros q. unfold IsPortAvailable, isPortBlocked. cbn [assignments blockedPorts assignedLoop].
    rewrite negb_false_iff. apply defaultBlockedPorts_block.
  - vm_compute. reflexivity.
Qed.

Lemma Init_then_witness :
  (New Os.noFaults homeFile (Init Os.noFaults (mkRegistry homeFile [web] []) emptyDisk).2).1
  = inr (mkRegistry homeFile [] defaultBlockedPorts).
Proof.
  destruct (Init_then Os.noFaults (mkRegistry homeFile [web] [])
              (mkRegistry homeFile [] defaultBlockedPorts) emptyDisk
              (Init Os.noFaults (mkRegistry homeFile [web] []) emptyDisk).2)
    as (_ & _ & HNew & _).
  - vm_compute. reflexivity.
  - apply HNew. reflexivity.
Defined.

(** ** Stability of the file *)

Lemma width_replacement (l : list ascii) :
  Utf8.width (Utf8.replacement ++ l) = 3%nat.
Proof. reflexivity. Qed.

(** The coercion gives valid UTF-8. *)
Lemma valid_toValid (n : nat) (l : list ascii) :
  (length l <= n)%nat -> Utf8.valid (Utf8.toValid l) = true.
Proof.
  revert l; induction n as [|n IH]; intros l Hn.
  - destruct l; [reflexivity | simpl in Hn; lia].
  - destruct l as [|c0 l1]; [reflexivity|].
    assert (Hrep : Utf8.valid (Utf8.replacement ++ Utf8.toValid l1) = true).
    { change (Utf8.valid (Utf8.toValid l1) = true). apply IH. simpl in Hn. lia. }
    cbn -[Utf8.width Utf8.replacement Utf8.valid].
    destruct (Utf8.width (c0 :: l1)) as [|[|[|[|[|k]]]]] eqn:W; try exact Hrep.
    + (* one byte *)
      assert (H0 : (byteval c0 <? 128) = true).
      { unfold Utf8.width in W. destruct (byteval c0 <? 128); [reflexivity|].
        destruct l1 as [|c1 [|c2 [|c3 l4]]]; try discriminate;
          repeat (match type of W with context [if ?b then _ else _] => destruct b end;
                  try discriminate). }
      cbn -[Utf8.toValid]. rewrite H0. apply IH. simpl in Hn. lia.
    + destruct l1 as [|c1 l2]; [exact Hrep|].
      assert (H0 : (byteval c0 <? 128) = false /\ Utf8.enc2 c0 c1 = true).
      { unfold Utf8.width in W. destruct (byteval c0 <? 128); [discriminate|].
        destruct (Utf8.enc2 c0 c1); [auto|].
        destruct l2 as [|c2 [|c3 l4]]; try discriminate;
          repeat (match type of W with context [if ?b then _ else _] => destruct b end;
                  try discriminate). }
      destruct H0 as [H0 H1]. cbn -[Utf8.toValid]. rewrite H0, H1.
      apply IH. simpl in Hn. lia.
    + destruct l1 as [|c1 [|c2 l3]]; try exact Hrep.
      assert (H0 : (byteval c0 <? 128) = false /\ Utf8.enc2 c0 c1 = false
                   /\ Utf8.enc3 c0 c1 c2 = true).
      { unfold Utf8.width in W. destruct (byteval c0 <? 128); [discriminate|].
        destruct (Utf8.enc2 c0 c1); [discriminate|].
        destruct (Utf8.enc3 c0 c1 c2); [auto|].
        destruct l3 as [|c3 l4]; try discriminate;
          repeat (match type of W with context [if ?b then _ else _] => destruct b end;
                  try discriminate). }
      destruct H0 as (H0 & H1 & H2). cbn -[Utf8.toValid]. rewrite H0, H1, H2.
      apply IH. simpl in Hn. lia.
    + destruct l1 as [|c1 [|c2 [|c3 l4]]]; try exact Hrep.
      assert (H0 : (byteval c0 <? 128) = false /\ Utf8.enc2 c0 c1 = false
                   /\ Utf8.enc3 c0 c1 c2 = false /\ Utf8.enc4 c0 c1 c2 c3 = true).
      { unfold Utf8.width in W. destruct (byteval c0 <? 128); [discriminate|].
        destruct (Utf8.enc2 c0 c1); [discriminate|].
        destruct (Utf8.enc3 c0 c1 c2); [discriminate|].
        destruct (Utf8.enc4 c0 c1 c2 c3); [auto|discriminate]. }
      destruct H0 as (H0 & H1 & H2 & H3). cbn -[Utf8.toValid]. rewrite H0, H1, H2, H3.
      apply IH. simpl in Hn. lia.
Qed.

Lemma ValidString_ToValidUTF8 (s : string) :
  Utf8.ValidString (Utf8.ToValidUTF8 s) = true.
Proof.
  unfold Utf8.ValidString, Utf8.ToValidUTF8, string_of, bytes_of.
  rewrite list_ascii_of_string_of_list_ascii.
  apply (valid_toValid (length (list_ascii_of_string s))). lia.
Qed.

Lemma ToValidUTF8_empty (s : string) :
  String.eqb (Utf8.ToValidUTF8 s) EmptyString = String.eqb s EmptyString.
Proof.
  destruct s as [|c s]; [reflexivity|].
  unfold Utf8.ToValidUTF8, string_of, bytes_of. cbn -[Utf8.width Utf8.replacement].
  destruct (Utf8.width _) as [|[|[|[|[|k]]]]];
    destruct (list_ascii_of_string s) as [|c1 [|c2 [|c3 l4]]]; reflexivity.
Qed.

Lemma omitempty_coerced (name s : string) :
  Json.omitempty name (Utf8.ToValidUTF8 s) = Json.omitempty name s.
Proof.
  unfold Json.omitempty, Json.marshalString. rewrite ToValidUTF8_empty.
  destruct (String.eqb s EmptyString); [reflexivity|].
  rewrite (ToValidUTF8_valid _ (ValidString_ToValidUTF8 s)). reflexivity.
Qed.

Lemma marshalAssignment_coerced (a : Assignment) :
  Json.marshalAssignment
    (mkAssignment (Port a) (Utf8.ToValidUTF8 (Description a)) (Utf8.ToValidUTF8 (Path a)))
  = Json.marshalAssignment a.
Proof.
  unfold Json.marshalAssignment. cbn [Port Description Path].
  rewrite !omitempty_coerced. reflexivity.
Qed.

Lemma marshalBlockedPort_coerced (b : BlockedPort) :
  Json.marshalBlockedPort
    (mkBlockedPort (Utf8.ToValidUTF8 (Ports b)) (Utf8.ToValidUTF8 (BlockedDescription b)))
  = Json.marshalBlockedPort b.
Proof.
  unfold Json.marshalBlockedPort, Json.marshalString. cbn [Ports BlockedDescription].
  rewrite omitempty_coerced, (ToValidUTF8_valid _ (ValidString_ToValidUTF8 (Ports b))).
  reflexivity.
Qed.

(** X10. What [New] loads after a [Save] is stable: its texts are valid
    UTF-8, so it is loaded back unchanged from then on, and saving it
    does exactly what saving the original registry does, on every file
    system and under every environment: the same calls with the same
    content. *)
Theorem Save_New_stable (f f2 : Os.Faults) (r : Registry) (w w1 : Os.World) :
  intPorts r -> Save f r w = (None, w1) -> Os.readFault f2 = false ->
  exists r1 w2,
    New f2 (path r) w1 = (inr r1, w2)
    /\ path r1 = path r
    /\ validText r1 /\ intPorts r1
    /\ Json.MarshalIndent (mkRegistryData (assignments r1) (blockedPorts r1))
       = Json.MarshalIndent (mkRegistryData (assignments r) (blockedPorts r))
    /\ (forall f3 w3, Save f3 r1 w3 = Save f3 r w3).
Proof.
  intros Hi Hs Hr.
  pose proof (Save_cases f r w) as (_ & _ & Hc). rewrite Hs in Hc.
  destruct Hc as (Hfile & _).
  rewrite (New_existing f2 (path r) w1 _ Hfile Hr).
  rewrite (Unmarshal_MarshalIndent (mkRegistryData (assignments r) (blockedPorts r)) Hi).
  cbn [Assignments BlockedPorts].
  eexists. eexists. split; [reflexivity|]. cbn [path assignments blockedPorts].
  assert (Hm : Json.MarshalIndent
            (mkRegistryData
               ((fun a => mkAssignment (Port a) (Utf8.ToValidUTF8 (Description a))
                            (Utf8.ToValidUTF8 (Path a))) <$> assignments r)
               ((fun b => mkBlockedPort (Utf8.ToValidUTF8 (Ports b))
                            (Utf8.ToValidUTF8 (BlockedDescription b))) <$> blockedPorts r))
          = Json.MarshalIndent (mkRegistryData (assignments r) (blockedPorts r))).
  { unfold Json.MarshalIndent, Json.marshalData. cbn [Assignments BlockedPorts].
    rewrite <- !list_fmap_compose.
    rewrite (list_fmap_ext _ Json.marshalAssignment (assignments r))
      by (intros i a _; apply marshalAssignment_coerced).
    rewrite (list_fmap_ext _ Json.marshalBlockedPort (blockedPorts r))
      by (intros i b _; apply marshalBlockedPort_coerced).
    reflexivity. }
  split; [reflexivity|]. split; [|split; [|split]].
  - split; apply Forall_fmap, Forall_forall; intros x _; cbn;
      split; apply ValidString_ToValidUTF8.
  - unfold intPorts in *. cbn [assignments]. apply Forall_fmap.
    eapply Forall_impl; [exact Hi|]. intros a Ha. exact Ha.
  - exact Hm.
  - intros f3 w3. unfold Save. cbn [path assignments blockedPorts]. rewrite Hm. reflexivity.
Qed.

Lemma Save_New_stable_witness :
  exists r1 w2,
    New Os.noFaults (path latin1Registry) (Save Os.noFaults latin1Registry emptyDisk).2
    = (inr r1, w2)
    /\ validText r1
    /\ (forall f3 w3, Save f3 r1 w3 = Save f3 latin1Registry w3).
Proof.
  destruct (Save_New_stable Os.noFaults Os.noFaults latin1Registry emptyDisk
              (Save Os.noFaults latin1Registry emptyDisk).2)
    as (r1 & w2 & HNew & _ & Hv & _ & _ & Hsave).
  - repeat constructor.
  - vm_compute. reflexivity.
  - reflexivity.
  - exists r1, w2. auto.
Defined.

(** ** Shape of a rule *)

Lemma Contains_app_sep (a b : string) (sep : ascii) :
  Strings.Contains (a +:+ String sep b) sep = true.
Proof.
  induction a as [|c a IH]; simpl; [rewrite Ascii.eqb_refl; reflexivity|].
  destruct (Ascii.eqb c sep); [reflexivity | exact IH].
Qed.

(** X11. The ports a rule text matches form an interval of Go [int]s:
    between two matched ports every port is matched.  A text [s] without
    ['-'] matches the same ports as the range [s-s]. *)
Theorem isPortInRange_shape (rangeSpec : string) :
  (forall p1 p2 p,
     isPortInRange p1 rangeSpec = true -> isPortInRange p2 rangeSpec = true ->
     p1 <= p <= p2 -> isPortInRange p rangeSpec = true)
  /\ (forall p, isPortInRange p rangeSpec = true -> minInt <= p <= maxInt)
  /\ (Strings.Contains rangeSpec "-" = false ->
      forall p, isPortInRange p (rangeSpec +:+ "-" +:+ rangeSpec) = isPortInRange p rangeSpec).
Proof.
  split; [|split].
  - intros p1 p2 p. unfold isPortInRange.
    destruct (Strings.Contains rangeSpec "-").
    + destruct (Strings.Split rangeSpec "-") as [|a [|b [|c l]]]; try discriminate.
      destruct (Strconv.Atoi (Strings.TrimSpace a)) as [lo|]; [|discriminate].
      destruct (Strconv.Atoi (Strings.TrimSpace b)) as [hi|]; [|discriminate].
      rewrite !andb_true_iff, !Z.leb_le. lia.
    + destruct (Strconv.Atoi (Strings.TrimSpace rangeSpec)) as [n|]; [|discriminate].
      rewrite !Z.eqb_eq. lia.
  - intros p. unfold isPortInRange.
    destruct (Strings.Contains rangeSpec "-").
    + destruct (Strings.Split rangeSpec "-") as [|a [|b [|c l]]]; try discriminate.
      destruct (Strconv.Atoi (Strings.TrimSpace a)) as [lo|] eqn:Ea; [|discriminate].
      destruct (Strconv.Atoi (Strings.TrimSpace b)) as [hi|] eqn:Eb; [|discriminate].
      apply Atoi_is_int in Ea, Eb. rewrite !andb_true_iff, !Z.leb_le. lia.
    + destruct (Strconv.Atoi (Strings.TrimSpace rangeSpec)) as [n|] eqn:En; [|discriminate].
      apply Atoi_is_int in En. rewrite Z.eqb_eq. lia.
  - intros Hc p. unfold isPortInRange at 1.
    change (rangeSpec +:+ "-" +:+ rangeSpec)%string
      with (rangeSpec +:+ String "-" rangeSpec)%string.
    rewrite Contains_app_sep.
    rewrite (proj2 (Split_two _ rangeSpec rangeSpec "-") (conj eq_refl (conj Hc Hc))).
    unfold isPortInRange. rewrite Hc.
    destruct (Strconv.Atoi (Strings.TrimSpace rangeSpec)) as [n|]; [|reflexivity].
    destruct (Z.eqb_spec p n) as [->|Hne].
    + rewrite !Z.leb_refl. reflexivity.
    + destruct (Z.leb_spec n p), (Z.leb_spec p n); try reflexivity. lia.
Qed.
(** * The commands *)

Lemma MarshalIndent_coerced (asgs : list Assignment) (bps : list BlockedPort) :
  Json.MarshalIndent
    (mkRegistryData
       ((fun a => mkAssignment (Port a) (Utf8.ToValidUTF8 (Description a))
                    (Utf8.ToValidUTF8 (Path a))) <$> asgs)
       ((fun b => mkBlockedPort (Utf8.ToValidUTF8 (Ports b))
                    (Utf8.ToValidUTF8 (BlockedDescription b))) <$> bps))
  = Json.MarshalIndent (mkRegistryData asgs bps).
Proof.
  unfold Json.MarshalIndent, Json.marshalData. cbn [Assignments BlockedPorts].
  rewrite <- !list_fmap_compose.
  rewrite (list_fmap_ext _ Json.marshalAssignment asgs)
    by (intros i a _; apply marshalAssignment_coerced).
  rewrite (list_fmap_ext _ Json.marshalBlockedPort bps)
    by (intros i b _; apply marshalBlockedPort_coerced).
  reflexivity.
Qed.

Lemma assignedLoop_coerced (asgs : list Assignment) (port : Z) :
  assignedLoop
    ((fun a => mkAssignment (Port a) (Utf8.ToValidUTF8 (Description a))
                 (Utf8.ToValidUTF8 (Path a))) <$> asgs) port = None
  <-> assignedLoop asgs port = None.
Proof.
  rewrite !assignedLoop_None, <- list_fmap_compose.
  erewrite (list_fmap_ext _ Port asgs); [reflexivity|]. intros i a _. reflexivity.
Qed.

Lemma filter_coerced (asgs : list Assignment) (port : Z) :
  List.filter (fun a => negb (Port a =? port))
    ((fun a => mkAssignment (Port a) (Utf8.ToValidUTF8 (Description a))
                 (Utf8.ToValidUTF8 (Path a))) <$> asgs)
  = (fun a => mkAssignment (Port a) (Utf8.ToValidUTF8 (Description a))
                 (Utf8.ToValidUTF8 (Path a)))
      <$> List.filter (fun a => negb (Port a =? port)) asgs.
Proof.
  induction asgs as [|a l IH]; [reflexivity|].
  cbn [fmap list_fmap List.filter Port]. fold (@fmap list _ _ _
    (fun a => mkAssignment (Port a) (Utf8.ToValidUTF8 (Description a))
                 (Utf8.ToValidUTF8 (Path a))) l).
  destruct (negb (Port a =? port)); cbn [fmap list_fmap]; rewrite IH; reflexivity.
Qed.

(** What [json.Unmarshal] decodes into an [int] is an [int]. *)
Lemma decodeAssignmentMembers_int (ms : list (string * Json.value)) (cur a : Assignment) :
  is_int (Port cur) = true ->
  Json.decodeAssignmentMembers cur ms = Some a -> is_int (Port a) = true.
Proof.
  revert cur. induction ms as [|[key v] ms IH]; intros cur Hc; cbn [Json.decodeAssignmentMembers].
  - intros [= <-]. exact Hc.
  - destruct (Json.selects key "port").
    + destruct (Json.decodeInt (Port cur) v) as [p|] eqn:Ep; [|discriminate].
      cbn. apply IH. cbn.
      destruct v as [| |[z|]| | |]; try discriminate; cbn in Ep.
      * injection Ep as <-. exact Hc.
      * destruct (is_int z) eqn:Ez; [|discriminate]. injection Ep as <-. exact Ez.
    + destruct (Json.selects key "description").
      * destruct (Json.decodeString (Description cur) v); [|discriminate]. cbn. apply IH. exact Hc.
      * destruct (Json.selects key "path").
        -- destruct (Json.decodeString (Path cur) v); [|discriminate]. cbn. apply IH. exact Hc.
        -- apply IH. exact Hc.
Qed.

Lemma decodeAssignments_int (v : Json.value) (l : list Assignment) :
  Json.decodeAssignments v = Some l -> Forall (fun a => is_int (Port a) = true) l.
Proof.
  destruct v as [| | | |elems|]; try discriminate; cbn.
  - intros [= <-]. constructor.
  - rewrite mapM_Some. induction 1 as [|x y xs ys Hxy _ IH]; constructor; [|exact IH].
    destruct x as [| | | | |ms]; try discriminate; cbn in Hxy.
    + injection Hxy as <-. reflexivity.
    + eapply decodeAssignmentMembers_int; [|exact Hxy]. reflexivity.
Qed.

Lemma decodeDataMembers_int (ms : list (string * Json.value)) (cur d : registryData) :
  Forall (fun a => is_int (Port a) = true) (Assignments cur) ->
  Json.decodeDataMembers cur ms = Some d ->
  Forall (fun a => is_int (Port a) = true) (Assignments d).
Proof.
  revert cur. induction ms as [|[key v] ms IH]; intros cur Hc; cbn [Json.decodeDataMembers].
  - intros [= <-]. exact Hc.
  - destruct (Json.selects key "assignments").
    + destruct (Json.decodeAssignments v) as [l|] eqn:El; [|discriminate].
      cbn. apply IH. cbn. exact (decodeAssignments_int _ _ El).
    + destruct (Json.selects key "blockedPorts").
      * destruct (Json.decodeBlockedPorts v); [|discriminate]. cbn. apply IH. exact Hc.
      * apply IH. exact Hc.
Qed.

Lemma Unmarshal_int (c : Json.content) (d : registryData) :
  Json.Unmarshal c = inr d -> Forall (fun a => is_int (Port a) = true) (Assignments d).
Proof.
  destruct c as [v|raw]; [|discriminate]. unfold Json.Unmarshal.
  destruct (Json.decodeData (mkRegistryData [] []) v) as [d'|] eqn:Ed; [|discriminate].
  intros [= <-]. destruct v as [| | | | |ms]; try discriminate; cbn in Ed.
  - injection Ed as <-. constructor.
  - eapply decodeDataMembers_int; [|exact Ed]. constructor.
Qed.

(** [New] changes no file and no directory; the registry it returns has
    the path asked for and [int] ports. *)
Lemma New_world (f : Os.Faults) (p : string) (w : Os.World) :
  Os.files (New f p w).2 = Os.files w /\ Os.dirs (New f p w).2 = Os.dirs w.
Proof.
  unfold New, Os.Stat. cbn [fst snd].
  destruct (Os.isFile w p || Os.isDir w p); [|split; reflexivity].
  unfold load, Os.ReadFile. destruct (Os.readFault f); [split; reflexivity|].
  cbn [path Os.files Os.record].
  destruct (Os.files w !! p) as [c|]; [destruct (Json.Unmarshal c)|]; split; reflexivity.
Qed.

Lemma New_nil (f : Os.Faults) (p : string) (w w1 : Os.World) (r : Registry) :
  New f p w = (inr r, w1) ->
  path r = p /\ intPorts r /\ Os.files w1 = Os.files w /\ Os.dirs w1 = Os.dirs w.
Proof.
  intros H. pose proof (New_world f p w) as [Hf Hd]. rewrite H in Hf, Hd.
  cbn [snd] in Hf, Hd. split; [|split; [|split; assumption]].
  - revert H. unfold New, Os.Stat. cbn [fst snd].
    destruct (Os.isFile w p || Os.isDir w p); [|intros [= <- _]; reflexivity].
    unfold load, Os.ReadFile. destruct (Os.readFault f); [discriminate|].
    cbn [path Os.files Os.record].
    destruct (Os.files w !! p) as [c|]; [destruct (Json.Unmarshal c)|]; try discriminate.
    intros [= <- _]. reflexivity.
  - revert H. unfold New, Os.Stat. cbn [fst snd].
    destruct (Os.isFile w p || Os.isDir w p); [|intros [= <- _]; constructor].
    unfold load, Os.ReadFile. destruct (Os.readFault f); [discriminate|].
    cbn [path Os.files Os.record].
    destruct (Os.files w !! p) as [c|]; [destruct (Json.Unmarshal c) eqn:Eu|]; try discriminate.
    intros [= <- _]. exact (Unmarshal_int _ _ Eu).
Qed.

(** [Save] and the registry file: written on success, as it was on failure. *)
Lemma Save_file (f : Os.Faults) (r : Registry) (w : Os.World) :
  match Save f r w with
  | (None, w') =>
      Os.files w' !! path r
      = Some (Json.MarshalIndent (mkRegistryData (assignments r) (blockedPorts r)))
  | (Some err, w') => Os.files w' !! path r = Os.files w !! path r /\ kindOf err = IOError
  end.
Proof.
  pose proof (Save_cases f r w) as (_ & _ & H).
  pose proof (Save_IOError f r w) as Hk.
  destruct (Save f r w) as [[err|] w'].
  - split; [apply H | apply Hk; reflexivity].
  - apply H.
Qed.

Lemma UnassignPort_absent (f : Os.Faults) (port : Z) (r : Registry) (w : Os.World) :
  assignedLoop (assignments r) port = None ->
  UnassignPort f port r w = (Some (ErrPortNotAssigned port), r, w).
Proof.
  intros H. unfold UnassignPort. rewrite unassign_loop. cbn [orb app].
  destruct (existsb (fun a => Port a =? port) (assignments r)) eqn:E; [|reflexivity].
  apply existsb_port in E. apply assignedLoop_None in H. contradiction.
Qed.

Lemma UnassignPort_present (f : Os.Faults) (port : Z) (r : Registry) (w : Os.World) :
  assignedLoop (assignments r) port <> None ->
  UnassignPort f port r w
  = let r' := mkRegistry (path r)
                (List.filter (fun a => negb (Port a =? port)) (assignments r))
                (blockedPorts r) in
    ((Save f r' w).1, r', (Save f r' w).2).
Proof.
  intros H. unfold UnassignPort. rewrite unassign_loop. cbn [orb app].
  destruct (existsb (fun a => Port a =? port) (assignments r)) eqn:E.
  - cbn. destruct (Save f _ w). reflexivity.
  - exfalso. apply H. apply assignedLoop_None. rewrite <- existsb_port, E. discriminate.
Qed.

Lemma errorsIs_IOError (err : error) (target : sentinel) :
  kindOf err = IOError -> errorsIs err target = false.
Proof.
  induction err; destruct target; cbn; try discriminate; try reflexivity; auto.
Qed.

Lemma Forall_filter_port (l : list Assignment) (port : Z) :
  Forall (fun a => is_int (Port a) = true) l ->
  Forall (fun a => is_int (Port a) = true)
         (List.filter (fun a => negb (Port a =? port)) l).
Proof.
  induction 1 as [|a l Ha _ IH]; cbn; [constructor|].
  destruct (negb (Port a =? port)); [constructor; assumption | exact IH].
Qed.

(** [AssignPort] and the registry file. *)
Lemma AssignPort_file (f : Os.Faults) (port : Z) (description path_ : string)
    (r : Registry) (w : Os.World) :
  match AssignPort f port description path_ r w with
  | (Some err, _, w') =>
      Os.files w' !! path r = Os.files w !! path r
      /\ (errorsIs err SentPortAlreadyAssigned = true ->
          exists a, assignedLoop (assignments r) port = Some a
                    /\ err = ErrPortAlreadyAssigned port (Description a))
      /\ (errorsIs err SentPortAlreadyAssigned = false ->
          err = ErrPortBlocked port \/ kindOf err = IOError)
  | (None, r', w') =>
      IsPortAvailable r port = true
      /\ r' = mkRegistry (path r) (assignments r ++ [mkAssignment port description path_])
                (blockedPorts r)
      /\ Os.files w' !! path r
         = Some (Json.MarshalIndent
                   (mkRegistryData (assignments r ++ [mkAssignment port description path_])
                      (blockedPorts r)))
  end.
Proof.
  unfold AssignPort, IsPortAvailable.
  destruct (assignedLoop (assignments r) port) as [a|].
  { split; [reflexivity|]. split; [eauto | discriminate]. }
  destruct (isPortBlocked r port).
  { split; [reflexivity|]. split; [discriminate | auto]. }
  pose proof (Save_file f
    (mkRegistry (path r) (assignments r ++ [mkAssignment port description path_])
       (blockedPorts r)) w) as HS.
  destruct (Save f _ w) as [[err|] w']; cbn [path assignments blockedPorts] in HS.
  - destruct HS as [HS Hk]. split; [exact HS|].
    rewrite (errorsIs_IOError _ _ Hk). split; [discriminate | auto].
  - auto.
Qed.

(** [UnassignPort] and the registry file. *)
Lemma UnassignPort_file (f : Os.Faults) (port : Z) (r : Registry) (w : Os.World) :
  match UnassignPort f port r w with
  | (Some err, _, w') =>
      Os.files w' !! path r = Os.files w !! path r
      /\ (errorsIs err SentPortNotAssigned = true ->
          assignedLoop (assignments r) port = None /\ err = ErrPortNotAssigned port)
      /\ (errorsIs err SentPortNotAssigned = false -> kindOf err = IOError)
  | (None, r', w') =>
      assignedLoop (assignments r) port <> None
      /\ r' = mkRegistry (path r)
                (List.filter (fun a => negb (Port a =? port)) (assignments r))
                (blockedPorts r)
      /\ Os.files w' !! path r
         = Some (Json.MarshalIndent
                   (mkRegistryData
                      (List.filter (fun a => negb (Port a =? port)) (assignments r))
                      (blockedPorts r)))
  end.
Proof.
  destruct (assignedLoop (assignments r) port) as [a|] eqn:Ea.
  - rewrite UnassignPort_present by (rewrite Ea; discriminate). cbn zeta.
    pose proof (Save_file f
      (mkRegistry (path r) (List.filter (fun a => negb (Port a =? port)) (assignments r))
         (blockedPorts r)) w) as HS.
    destruct (Save f _ w) as [[err|] w']; cbn [fst snd path assignments blockedPorts] in *.
    + destruct HS as [HS Hk]. split; [exact HS|].
      rewrite (errorsIs_IOError _ _ Hk). split; [discriminate | auto].
    + split; [discriminate|]. auto.
  - rewrite UnassignPort_absent by exact Ea.
    split; [reflexivity|]. split; [auto | discriminate].
Qed.

(** X12. The [init] command never overwrites: it succeeds only where
    nothing exists at the registry path, and then the file holds no
    assignment and the five default rules and one line is printed; when
    it fails it prints nothing and the registry file is as it was. *)
Theorem initCmd_outcome (f : Os.Faults) (registryPath : string) (w : Os.World) :
  match Cmd.initCmd f registryPath w with
  | (Some _, out, w') =>
      out = [] /\ Os.files w' !! registryPath = Os.files w !! registryPath
  | (None, out, w') =>
      out = [("Initialized registry at " +:+ registryPath +:+ Cmd.nl)%string]
      /\ Os.files w !! registryPath = None
      /\ Os.isDir w registryPath = false
      /\ Os.files w' !! registryPath
         = Some (Json.MarshalIndent (mkRegistryData [] defaultBlockedPorts))
  end.
Proof.
  unfold Cmd.initCmd.
  destruct (New f registryPath w) as [[err|reg] w1] eqn:EN.
  { split; [reflexivity|]. pose proof (New_world f registryPath w) as [Hf _].
    rewrite EN in Hf. cbn in Hf. rewrite Hf. reflexivity. }
  apply New_nil in EN as (Hp & _ & Hf & Hd).
  unfold Init, Os.Stat. rewrite Hp.
  destruct (Os.isFile w1 registryPath || Os.isDir w1 registryPath) eqn:Ef.
  { split; [reflexivity|]. cbn. rewrite Hf. reflexivity. }
  cbn [path assignments blockedPorts].
  pose proof (Save_file f (mkRegistry registryPath [] defaultBlockedPorts)
                (Os.record (Os.CallStat registryPath) w1)) as HS.
  destruct (Save f _ _) as [[err|] w2]; cbn [path assignments blockedPorts] in HS.
  - destruct HS as [HS _]. split; [reflexivity|]. rewrite HS. cbn. rewrite Hf. reflexivity.
  - apply orb_false_iff in Ef as [Efile Edir].
    split; [reflexivity|]. split; [|split; [|exact HS]].
    + unfold Os.isFile in Efile. rewrite Hf in Efile.
      destruct (Os.files w !! registryPath); [discriminate | reflexivity].
    + unfold Os.isDir in *. rewrite Hd in Edir. exact Edir.
Qed.

(** X13. The [assign] command stores one more assignment, of a positive
    port that was available: the port asked for when it is positive,
    the next available port otherwise, with the current directory where
    no path is given; it prints one line.  When it fails it prints
    nothing and the registry file is as it was, and the hint to list
    the assignments is given for a port already assigned only. *)
Theorem assignCmd_outcome (f : Os.Faults) (cwd registryPath : string) (assignPort : Z)
    (assignDescription assignPath : string) (w : Os.World) :
  match Cmd.assignCmd f cwd registryPath assignPort assignDescription assignPath w with
  | (Some err, out, w') =>
      out = [] /\ Os.files w' !! registryPath = Os.files w !! registryPath
      /\ (forall e, err = Cmd.SeeList e ->
          0 < assignPort /\ exists d, e = ErrPortAlreadyAssigned assignPort d)
  | (None, out, w') =>
      exists reg port,
        (New f registryPath w).1 = inr reg
        /\ port = (if assignPort >? 0 then assignPort else findNextAvailablePort reg)
        /\ 0 < port
        /\ IsPortAvailable reg port = true
        /\ out = [Cmd.assigned port assignDescription]
        /\ Os.files w' !! registryPath
           = Some (Json.MarshalIndent
                     (mkRegistryData
                        (assignments reg
                         ++ [mkAssignment port assignDescription
                               (if String.eqb assignPath EmptyString then cwd
                                else assignPath)])
                        (blockedPorts reg)))
  end.
Proof.
  unfold Cmd.assignCmd.
  destruct (New f registryPath w) as [[err|reg] w1] eqn:EN.
  { split; [reflexivity|]. pose proof (New_world f registryPath w) as [Hf _].
    rewrite EN in Hf. cbn in Hf. rewrite Hf. split; [reflexivity | discriminate]. }
  apply New_nil in EN as (Hp & _ & Hf & _). cbn zeta.
  destruct (assignPort >? 0) eqn:Epos.
  - pose proof (AssignPort_file f assignPort assignDescription
                  (if String.eqb assignPath EmptyString then cwd else assignPath) reg w1) as HA.
    destruct (AssignPort f assignPort _ _ reg w1) as [[[err|] r'] w2].
    + destruct HA as (Hfile & Hyes & Hno). rewrite Hp, Hf in Hfile.
      destruct (errorsIs err SentPortAlreadyAssigned) eqn:Eis.
      * split; [reflexivity|]. split; [exact Hfile|].
        intros e [= <-]. split; [lia|].
        destruct (Hyes eq_refl) as (a & _ & ->). eauto.
      * split; [reflexivity|]. split; [exact Hfile | discriminate].
    + destruct HA as (Hav & _ & Hfile). rewrite Hp in Hfile.
      exists reg, assignPort. cbn [fst]. repeat (split; [first [reflexivity | assumption | lia]|]).
      exact Hfile.
  - unfold AssignNextAvailable.
    destruct (findNextAvailablePort_spec reg) as [[H1 _]|(H1 & _ & _)].
    { rewrite H1. cbn. rewrite Hf. split; [reflexivity|]. split; [reflexivity | discriminate]. }
    unfold startPort, maxPort in H1.
    destruct (findNextAvailablePort reg =? -1) eqn:Eq; [lia|].
    pose proof (AssignPort_file f (findNextAvailablePort reg) assignDescription
                  (if String.eqb assignPath EmptyString then cwd else assignPath) reg w1) as HA.
    destruct (AssignPort f (findNextAvailablePort reg) _ _ reg w1) as [[[err|] r'] w2].
    + destruct HA as (Hfile & _). rewrite Hp, Hf in Hfile.
      split; [reflexivity|]. split; [exact Hfile | discriminate].
    + destruct HA as (Hav & _ & Hfile). rewrite Hp in Hfile.
      exists reg, (findNextAvailablePort reg). cbn [fst].
      repeat (split; [first [reflexivity | assumption | lia]|]).
      exact Hfile.
Qed.

(** X14. The [unassign] command takes a decimal port: an argument that
    [strconv.Atoi] rejects is refused before any file is looked at.  On
    success the port was assigned, the file holds the assignments
    without it, in their order, and one line is printed; the same
    command run again, the file being readable, is refused as not
    assigned, with the hint, and changes no file.  When the command
    fails it prints nothing and the registry file is as it was. *)
Theorem unassignCmd_outcome (f : Os.Faults) (registryPath arg : string) (w : Os.World) :
  match Cmd.unassignCmd f registryPath arg w with
  | (Some err, out, w') =>
      out = [] /\ Os.files w' !! registryPath = Os.files w !! registryPath
      /\ (Strconv.Atoi arg = None -> err = Cmd.InvalidPortNumber arg /\ w' = w)
  | (None, out, w') =>
      exists reg port,
        Strconv.Atoi arg = Some port
        /\ (New f registryPath w).1 = inr reg
        /\ port ∈ ports reg
        /\ out = [("Unassigned port " +:+ Cmd.itoa port +:+ Cmd.nl)%string]
        /\ Os.files w' !! registryPath
           = Some (Json.MarshalIndent
                     (mkRegistryData
                        (List.filter (fun a => negb (Port a =? port)) (assignments reg))
                        (blockedPorts reg)))
        /\ (forall f2, Os.readFault f2 = false ->
            exists w2,
              Cmd.unassignCmd f2 registryPath arg w'
              = (Some (Cmd.SeeList (ErrPortNotAssigned port)), [], w2)
              /\ Os.files w2 = Os.files w' /\ Os.dirs w2 = Os.dirs w')
  end.
Proof.
  unfold Cmd.unassignCmd at 1.
  destruct (Strconv.Atoi arg) as [port|] eqn:EA.
  2: { split; [reflexivity|]. split; [reflexivity|]. auto. }
  destruct (New f registryPath w) as [[err|reg] w1] eqn:EN.
  { split; [reflexivity|]. pose proof (New_world f registryPath w) as [Hf _].
    rewrite EN in Hf. cbn in Hf. rewrite Hf. split; [reflexivity | discriminate]. }
  apply New_nil in EN as (Hp & Hi & Hf & _).
  pose proof (UnassignPort_file f port reg w1) as HU.
  destruct (UnassignPort f port reg w1) as [[[err|] r'] w2].
  - destruct HU as (Hfile & _). rewrite Hp, Hf in Hfile.
    destruct (errorsIs err SentPortNotAssigned);
      (split; [reflexivity|]; split; [exact Hfile | discriminate]).
  - destruct HU as (Hin & _ & Hfile). rewrite Hp in Hfile.
    exists reg, port. cbn [fst].
    split; [reflexivity|]. split; [reflexivity|]. split; [|split; [reflexivity|split; [exact Hfile|]]].
    { unfold ports. destruct (decide (port ∈ Port <$> assignments reg)) as [H|H]; [exact H|].
      apply assignedLoop_None in H. contradiction. }
    intros f2 Hr. unfold Cmd.unassignCmd. rewrite EA.
    rewrite (New_existing f2 registryPath w2 _ Hfile Hr).
    rewrite Unmarshal_MarshalIndent by (apply Forall_filter_port; exact Hi).
    cbn [Assignments BlockedPorts].
    rewrite UnassignPort_absent.
    + cbn. eexists. split; [reflexivity|]. split; reflexivity.
    + cbn [assignments]. apply assignedLoop_coerced. rewrite assignedLoop_filter.
      rewrite Z.eqb_refl. reflexivity.
Qed.

(** What an [assign] command that succeeded has stored. *)
Lemma assignCmd_nil (f : Os.Faults) (cwd registryPath : string) (assignPort : Z)
    (assignDescription assignPath : string) (reg : Registry) (w w1 : Os.World)
    (out : list string) :
  (New f registryPath w).1 = inr reg ->
  Cmd.assignCmd f cwd registryPath assignPort assignDescription assignPath w
  = (None, out, w1) ->
  let port := if assignPort >? 0 then assignPort else findNextAvailablePort reg in
  IsPortAvailable reg port = true
  /\ Os.files w1 !! registryPath
     = Some (Json.MarshalIndent
               (mkRegistryData
                  (assignments reg
                   ++ [mkAssignment port assignDescription
                         (if String.eqb assignPath EmptyString then cwd else assignPath)])
                  (blockedPorts reg))).
Proof.
  unfold Cmd.assignCmd.
  destruct (New f registryPath w) as [[err|reg'] w0] eqn:EN; [discriminate|].
  intros [= ->]. apply New_nil in EN as (Hp & _ & _ & _). cbn zeta.
  destruct (assignPort >? 0).
  - pose proof (AssignPort_file f assignPort assignDescription
                  (if String.eqb assignPath EmptyString then cwd else assignPath) reg w0) as HA.
    destruct (AssignPort f assignPort _ _ reg w0) as [[[err|] r'] w2].
    + destruct (errorsIs err SentPortAlreadyAssigned); discriminate.
    + intros [= _ <-]. destruct HA as (Hav & _ & Hfile). rewrite Hp in Hfile. auto.
  - unfold AssignNextAvailable.
    destruct (findNextAvailablePort reg =? -1); [discriminate|].
    pose proof (AssignPort_file f (findNextAvailablePort reg) assignDescription
                  (if String.eqb assignPath EmptyString then cwd else assignPath) reg w0) as HA.
    destruct (AssignPort f (findNextAvailablePort reg) _ _ reg w0) as [[[err|] r'] w2].
    + discriminate.
    + intros [= _ <-]. destruct HA as (Hav & _ & Hfile). rewrite Hp in Hfile. auto.
Qed.

(** X15. The [unassign] command undoes the [assign] command: after an
    [assign] that succeeded, [unassign] of the port it stored, the file
    being readable, leaves in the file the registry that [assign] had
    loaded, or fails on the file system alone and leaves the file as
    [assign] wrote it. *)
Theorem assignCmd_unassignCmd (f f2 : Os.Faults) (cwd registryPath arg : string)
    (assignPort : Z) (assignDescription assignPath : string) (reg : Registry)
    (w w1 : Os.World) (out : list string) :
  (New f registryPath w).1 = inr reg ->
  Cmd.assignCmd f cwd registryPath assignPort assignDescription assignPath w
  = (None, out, w1) ->
  Strconv.Atoi arg
  = Some (if assignPort >? 0 then assignPort else findNextAvailablePort reg) ->
  Os.readFault f2 = false ->
  match Cmd.unassignCmd f2 registryPath arg w1 with
  | (None, out2, w2) =>
      Os.files w2 !! registryPath
      = Some (Json.MarshalIndent (mkRegistryData (assignments reg) (blockedPorts reg)))
  | (Some err, out2, w2) =>
      (exists e, err = Cmd.Plain e /\ kindOf e = IOError)
      /\ Os.files w2 !! registryPath = Os.files w1 !! registryPath
  end.
Proof.
  intros HN HA Harg Hr.
  destruct (assignCmd_nil _ _ _ _ _ _ _ _ _ _ HN HA) as [Hav Hfile].
  destruct (New f registryPath w) as [res w0] eqn:EN. cbn in HN. subst res.
  apply New_nil in EN as (Hp & Hi & _ & _).
  set (port := if assignPort >? 0 then assignPort else findNextAvailablePort reg) in *.
  apply IsPortAvailable_true in Hav as [Hnot _]. apply assignedLoop_None in Hnot.
  unfold Cmd.unassignCmd. rewrite Harg.
  rewrite (New_existing f2 registryPath w1 _ Hfile Hr).
  rewrite Unmarshal_MarshalIndent.
  2: { cbn [Assignments]. apply Forall_app. split; [exact Hi|].
       constructor; [|constructor]. cbn. pose proof (Atoi_is_int _ _ Harg). unfold is_int.
       apply andb_true_iff. rewrite !Z.leb_le. lia. }
  cbn [Assignments BlockedPorts].
  rewrite UnassignPort_present.
  2: { cbn [assignments]. intros Hc. apply (proj1 (assignedLoop_coerced _ _)) in Hc.
       rewrite assignedLoop_app, Hnot in Hc. cbn in Hc. rewrite Z.eqb_refl in Hc.
       discriminate. }
  cbn zeta. cbn [path assignments blockedPorts].
  rewrite filter_coerced, List.filter_app, (filter_port_absent _ _ Hnot).
  cbn [List.filter Port]. rewrite Z.eqb_refl. cbn [negb]. rewrite app_nil_r.
  match goal with
  | |- context [Save f2 ?r ?w0] => pose proof (Save_file f2 r w0) as HS;
                                   destruct (Save f2 r w0) as [[err|] w2]
  end; cbn [fst snd path assignments blockedPorts] in *.
  - destruct HS as [HS Hk]. rewrite (errorsIs_IOError _ _ Hk).
    split; [eauto|]. rewrite HS. reflexivity.
  - rewrite HS, MarshalIndent_coerced. reflexivity.
Qed.

Lemma assignCmd_unassignCmd_witness :
  match Cmd.unassignCmd Os.noFaults homeFile "3100"
          (Cmd.assignCmd Os.noFaults "/work" homeFile 0 "web" EmptyString
             (Save Os.noFaults testRegistry emptyDisk).2).2 with
  | (None, out2, w2) =>
      Os.files w2 !! homeFile
      = Some (Json.MarshalIndent
                (mkRegistryData (assignments testRegistry) (blockedPorts testRegistry)))
  | (Some err, out2, w2) =>
      (exists e, err = Cmd.Plain e /\ kindOf e = IOError)
      /\ Os.files w2 !! homeFile
         = Os.files (Cmd.assignCmd Os.noFaults "/work" homeFile 0 "web" EmptyString
                       (Save Os.noFaults testRegistry emptyDisk).2).2 !! homeFile
  end.
Proof.
  apply (assignCmd_unassignCmd Os.noFaults Os.noFaults "/work" homeFile "3100" 0 "web"
           EmptyString testRegistry (Save Os.noFaults testRegistry emptyDisk).2
           (Cmd.assignCmd Os.noFaults "/work" homeFile 0 "web" EmptyString
              (Save Os.noFaults testRegistry emptyDisk).2).2
           [Cmd.assigned 3100 "web"]); vm_compute; reflexivity.
Defined.
